(** * Range-deletion aggregator (db/range_del_aggregator.cc)

    A shallow embedding of the two range-tombstone maps
    ([UncollapsedRangeDelMap], [CollapsedRangeDelMap]) and of the
    [RangeDelAggregator] that routes tombstones to snapshot stripes,
    followed by the properties of the specification that were checked
    against them. *)

From Stdlib Require Import ZArith List String Ascii Bool Lia Sorted Permutation.
Import ListNotations.
Local Open Scope Z_scope.

(** ** Basic types *)

(** A [Slice] is a byte string; [SequenceNumber] is [uint64_t]. *)
Abbreviation Slice := string.
Abbreviation SequenceNumber := Z.

(** The codes of the [ValueType] enumeration are declared in dbformat.h;
    only the fact that a parsed key carries one matters here. *)
Abbreviation ValueType := Z.

(** [Comparator::Compare] returns a negative, zero or positive [int]. *)
Record Comparator := { Compare : Slice -> Slice -> Z }.

Definition BytewiseComparator : Comparator :=
  {| Compare a b :=
       match String.compare a b with Lt => -1 | Eq => 0 | Gt => 1 end |}.

Definition ReverseBytewiseComparator : Comparator :=
  {| Compare a b := - Compare BytewiseComparator a b |}.

Record ParsedInternalKey := {
  user_key : Slice;
  sequence : SequenceNumber;
  type : ValueType
}.

Record RangeTombstone := {
  start_key_ : Slice;
  end_key_ : Slice;
  seq_ : SequenceNumber
}.

Inductive RangeDelPositioningMode :=
| kFullScan
| kForwardTraversal
| kBackwardTraversal
| kBinarySearch.

(** ** Ordered containers

    [std::map] and [std::multiset] are kept as lists in ascending key
    order.  A position (an iterator) in a map is a pair
    [(before, after)]: [after] starts at the entry the iterator points
    to ([after = []] is [end()]), [before] holds the entries in front of
    it, nearest first, so [std::prev(it)] is the head of [before] and
    [it == begin()] is [before = []]. *)
Section OrderedContainers.
Context {K V : Type}.
Variable less : K -> K -> bool.

Definition Position : Type := list (K * V) * list (K * V).

Definition unzip (p : Position) : list (K * V) :=
  rev_append (fst p) (snd p).

(** Walk forward from [(before, after)] to the first entry whose key
    is greater than [k]. *)
Fixpoint upper_bound_from (before after : list (K * V)) (k : K) : Position :=
  match after with
  | [] => (before, [])
  | e :: rest =>
      if less k (fst e) then (before, after)
      else upper_bound_from (e :: before) rest k
  end.

(** [m.upper_bound(k)] *)
Definition upper_bound (m : list (K * V)) (k : K) : Position :=
  upper_bound_from [] m k.

(** [m[k] = v]: overwrite the entry equivalent to [k], or insert one. *)
Fixpoint map_assign (m : list (K * V)) (k : K) (v : V) : list (K * V) :=
  match m with
  | [] => [(k, v)]
  | e :: rest =>
      if less k (fst e) then (k, v) :: m
      else if less (fst e) k then e :: map_assign rest k v
      else (fst e, v) :: rest
  end.

(** [m.emplace(k, v)]: a no-op when an equivalent key is present. *)
Fixpoint map_emplace (m : list (K * V)) (k : K) (v : V) : list (K * V) :=
  match m with
  | [] => [(k, v)]
  | e :: rest =>
      if less k (fst e) then (k, v) :: m
      else if less (fst e) k then e :: map_emplace rest k v
      else m
  end.

(** The position of the entry equivalent to [k], if there is one. *)
Fixpoint find_from (before after : list (K * V)) (k : K) : option Position :=
  match after with
  | [] => None
  | e :: rest =>
      if less k (fst e) then None
      else if less (fst e) k then find_from (e :: before) rest k
      else Some (before, after)
  end.

Definition map_find (m : list (K * V)) (k : K) : option Position :=
  find_from [] m k.
End OrderedContainers.

Section Multiset.
Context {A : Type}.
Variable less : A -> A -> bool.

(** [s.emplace(x)]: among equivalent elements the new one goes last. *)
Fixpoint multiset_emplace (s : list A) (x : A) : list A :=
  match s with
  | [] => [x]
  | y :: rest =>
      if less x y then x :: s else y :: multiset_emplace rest x
  end.
End Multiset.

(** [stl_wrappers::LessOfComparator] *)
Definition LessOfComparator (c : Comparator) (a b : Slice) : bool :=
  Compare c a b <? 0.

(** [TombstoneStartKeyComparator] *)
Definition TombstoneStartKeyComparator (c : Comparator)
    (a b : RangeTombstone) : bool :=
  Compare c (start_key_ a) (start_key_ b) <? 0.

(** ** UncollapsedRangeDelMap *)
Module UncollapsedRangeDelMap.
Section WithComparator.
Variable ucmp_ : Comparator.

Definition Rep := list RangeTombstone.

(** The body of the [for] loop of [ShouldDelete]; [break] and falling
    off the end both lead to [return false]. *)
Fixpoint scan (rep : Rep) (parsed : ParsedInternalKey) : bool :=
  match rep with
  | [] => false
  | tombstone :: rest =>
      if Compare ucmp_ (user_key parsed) (start_key_ tombstone) <? 0
      then false
      else if (sequence parsed <? seq_ tombstone)
              && (Compare ucmp_ (user_key parsed) (end_key_ tombstone) <? 0)
      then true
      else scan rest parsed
  end.

(** [None] is the failed [assert(mode == kFullScan)]. *)
Definition ShouldDelete (rep_ : Rep) (parsed : ParsedInternalKey)
    (mode : RangeDelPositioningMode) : option bool :=
  match mode with
  | kFullScan => Some (scan rep_ parsed)
  | _ => None
  end.

Fixpoint IsRangeOverlapped (rep_ : Rep) (start end_ : Slice) : bool :=
  match rep_ with
  | [] => false
  | tombstone :: rest =>
      if (Compare ucmp_ start (end_key_ tombstone) <? 0)
         && (Compare ucmp_ (start_key_ tombstone) end_ <=? 0)
         && (Compare ucmp_ (start_key_ tombstone) (end_key_ tombstone) <? 0)
      then true
      else IsRangeOverlapped rest start end_
  end.

Definition AddTombstone (rep_ : Rep) (tombstone : RangeTombstone) : Rep :=
  multiset_emplace (TombstoneStartKeyComparator ucmp_) rep_ tombstone.

Definition Size (rep_ : Rep) : Z := Z.of_nat (List.length rep_).

(** The iterator walks [rep_] from [begin()]; draining it yields the
    elements in container order. *)
Definition Tombstones (rep_ : Rep) : list RangeTombstone := rep_.
End WithComparator.
End UncollapsedRangeDelMap.

(** ** CollapsedRangeDelMap *)
Module CollapsedRangeDelMap.
Section WithComparator.
Variable ucmp_ : Comparator.

Definition Entry : Type := Slice * SequenceNumber.
Definition Rep := list Entry.

(** The order of [rep_].  The constructor initialises [ucmp_] only and
    leaves [rep_] default-constructed, so the map is ordered by a
    default [stl_wrappers::LessOfComparator]; stl_wrappers.h, the header
    that declares it, gives it [BytewiseComparator()].  The loops below
    compare with [ucmp_]. *)
Definition rep_less : Slice -> Slice -> bool :=
  LessOfComparator BytewiseComparator.

(** The lambda [prev_seq] of [AddTombstone], at the position whose
    preceding entries are [before]. *)
Definition prev_seq (before : list Entry) : SequenceNumber :=
  match before with
  | [] => 0
  | e :: _ => snd e
  end.

(** The [while] loop of [AddTombstone].  The iterator [it] is the
    position [(before, after)]; the result is the position at which
    the loop stops, with the final [end_seq]. *)
Fixpoint walk (t : RangeTombstone) (before after : list Entry)
    (end_seq : SequenceNumber)
    : list Entry * list Entry * SequenceNumber :=
  match after with
  | [] => (before, [], end_seq)
  | e :: rest =>
      if Compare ucmp_ (fst e) (end_key_ t) <? 0 then
        if snd e <? seq_ t then
          if seq_ t =? prev_seq before
          then (* it = rep_.erase(it); continue; *)
            walk t before rest (snd e)
          else (* it->second = t.seq_; ++it; *)
            walk t ((fst e, seq_ t) :: before) rest (snd e)
        else walk t (e :: before) rest end_seq
      else (before, after, end_seq)
  end.

Definition AddTombstone (rep_ : Rep) (t : RangeTombstone) : Rep :=
  let it0 := upper_bound rep_less rep_ (start_key_ t) in
  let p := prev_seq (fst it0) in
  let '(rep1, end_seq0) :=
    if p <? seq_ t
    then (map_assign rep_less rep_ (start_key_ t) (seq_ t), p)
    else (rep_, 0) in
  (* the insertion leaves [it] on the first entry after [start_key_] *)
  let it := upper_bound rep_less rep1 (start_key_ t) in
  let '(before, after, end_seq) := walk t (fst it) (snd it) end_seq0 in
  let rep2 := unzip (before, after) in
  if seq_ t =? prev_seq before
  then map_emplace rep_less rep2 (end_key_ t) end_seq
  else rep2.

(** [rep_.size() - 1] in [size_t] (64-bit unsigned) arithmetic. *)
Definition Size (rep_ : Rep) : Z :=
  (Z.of_nat (List.length rep_) - 1) mod 2 ^ 64.

(** The object: the map and the cursor [iter_].  The cursor names the
    node it points to by its key; [None] is [rep_.end()]. *)
Record t := { rep_ : Rep; iter_ : option Slice }.

Definition InvalidatePosition (m : t) : t :=
  {| rep_ := rep_ m; iter_ := None |}.

(** The constructor. *)
Definition New : t := InvalidatePosition {| rep_ := []; iter_ := None |}.

Definition key_at (after : list Entry) : option Slice :=
  match after with
  | [] => None
  | e :: _ => Some (fst e)
  end.

(** Forward loop: [while (next(iter_) != end && Compare(next(iter_)->first, key) <= 0) ++iter_]. *)
Fixpoint advance (before : list Entry) (cur : Entry) (rest : list Entry)
    (key : Slice) : list Entry * Entry * list Entry :=
  match rest with
  | [] => (before, cur, [])
  | nxt :: rest' =>
      if Compare ucmp_ (fst nxt) key <=? 0
      then advance (cur :: before) nxt rest' key
      else (before, cur, rest)
  end.

(** Backward loop: [while (iter_ != begin && Compare(key, iter_->first) < 0) --iter_]. *)
Fixpoint retreat (before : list Entry) (cur : Entry) (rest : list Entry)
    (key : Slice) : list Entry * Entry * list Entry :=
  match before with
  | [] => ([], cur, rest)
  | prv :: before' =>
      if Compare ucmp_ key (fst cur) <? 0
      then retreat before' prv (cur :: rest) key
      else (before, cur, rest)
  end.

(** The two assertions before the final [return]. *)
Definition positioned (cur : Entry) (rest : list Entry) (key : Slice) : bool :=
  (Compare ucmp_ (fst cur) key <=? 0)
  && match rest with
     | [] => true
     | nxt :: _ => Compare ucmp_ key (fst nxt) <? 0
     end.

Definition finish (m : t) (cur : Entry) (rest : list Entry)
    (parsed : ParsedInternalKey) : option (bool * t) :=
  if positioned cur rest (user_key parsed)
  then Some (sequence parsed <? snd cur,
             {| rep_ := rep_ m; iter_ := Some (fst cur) |})
  else None.

(** [None] is a failed assertion. *)
Definition ShouldDelete (m : t) (parsed : ParsedInternalKey)
    (mode : RangeDelPositioningMode) : option (bool * t) :=
  let mode :=
    match iter_ m, mode with
    | None, kForwardTraversal | None, kBackwardTraversal => kBinarySearch
    | _, _ => mode
    end in
  match mode with
  | kFullScan => None
  | kForwardTraversal =>
      match iter_ m with
      | None => None
      | Some c =>
          match map_find rep_less (rep_ m) c with
          | Some (before, cur :: rest) =>
              if match before with [] => true | _ => false end
                 && (Compare ucmp_ (user_key parsed) (fst cur) <? 0)
              then Some (false, m)
              else
                let '(_, cur', rest') :=
                  advance before cur rest (user_key parsed) in
                finish m cur' rest' parsed
          | _ => None
          end
      end
  | kBackwardTraversal =>
      match iter_ m with
      | None => None
      | Some c =>
          match map_find rep_less (rep_ m) c with
          | Some (before, cur :: rest) =>
              let '(before', cur', rest') :=
                retreat before cur rest (user_key parsed) in
              if match before' with [] => true | _ => false end
                 && (Compare ucmp_ (user_key parsed) (fst cur') <? 0)
              then Some (false,
                         {| rep_ := rep_ m; iter_ := Some (fst cur') |})
              else finish m cur' rest' parsed
          | _ => None
          end
      end
  | kBinarySearch =>
      match upper_bound rep_less (rep_ m) (user_key parsed) with
      | ([], after) =>
          Some (false, {| rep_ := rep_ m; iter_ := key_at after |})
      | (cur :: _, after) => finish m cur after parsed
      end
  end.

(** *** Iterator

    The iterator state is the list of entries from [iter_] on. *)
Definition Valid (it : list Entry) : bool :=
  match it with
  | _ :: _ :: _ => true
  | _ => false
  end.

Fixpoint SeekPastSentinels (it : list Entry) : list Entry :=
  match it with
  | e :: ((_ :: _) as rest) =>
      if snd e =? 0 then SeekPastSentinels rest else it
  | _ => it
  end.

Definition NewIterator (rep_ : Rep) : list Entry := rep_.

Definition Next (it : list Entry) : list Entry :=
  SeekPastSentinels (tl it).

Definition Seek (rep_ : Rep) (target : Slice) : list Entry :=
  match upper_bound rep_less rep_ target with
  | ([], after) => SeekPastSentinels after
  | (prv :: _, after) => SeekPastSentinels (prv :: after)
  end.

Definition Tombstone (it : list Entry) : option RangeTombstone :=
  match it with
  | e :: nxt :: _ =>
      Some {| start_key_ := fst e; end_key_ := fst nxt; seq_ := snd e |}
  | _ => None
  end.

(** [for (; it->Valid(); it->Next()) out.push_back(it->Tombstone());]
    [None] when [fuel] iterations did not reach an invalid iterator. *)
Fixpoint drain (fuel : nat) (it : list Entry) : option (list RangeTombstone) :=
  match Tombstone it with
  | None => Some []
  | Some ts =>
      match fuel with
      | O => None
      | S fuel' =>
          match drain fuel' (Next it) with
          | Some out => Some (ts :: out)
          | None => None
          end
      end
  end.

Definition Tombstones (rep_ : Rep) : option (list RangeTombstone) :=
  drain (List.length rep_) (NewIterator rep_).
End WithComparator.
End CollapsedRangeDelMap.

(** The tombstone [[a, b) @ s] and the key [k @ s] of a value. *)
Definition tomb (a b : string) (s : Z) : RangeTombstone :=
  {| start_key_ := a; end_key_ := b; seq_ := s |}.

Definition pik (k : string) (s : Z) : ParsedInternalKey :=
  {| user_key := k; sequence := s; type := 1 |}.

(** ** RangeDelMap: the interface and its two implementations *)
Inductive RangeDelMap :=
| Uncollapsed (rep : UncollapsedRangeDelMap.Rep)
| Collapsed (m : CollapsedRangeDelMap.t).

Inductive Status :=
| OK
| Corruption (msg : string).

Module RangeDelAggregator.
Section WithEngine.
(** Supplied by the enclosing engine (dbformat.h, the header of this
    unit): the largest sequence number, the internal-key parser, the
    value-type test and [RangeDelMap::IsEmpty]. *)
Variable kMaxSequenceNumber : SequenceNumber.
Variable ParseInternalKey : Slice -> option ParsedInternalKey.
Variable IsValueType : ValueType -> bool.
Variable IsEmpty : RangeDelMap -> bool.
(** [icmp_.user_comparator()] *)
Variable user_comparator : Comparator.

Definition StripeMap := list (SequenceNumber * RangeDelMap).

Record Rep := {
  stripe_map_ : StripeMap;
  (** the source iterators handed to [pinned_iters_mgr_] *)
  pinned_iters_ : list (list (Slice * Slice))
}.

Record t := {
  upper_bound_ : SequenceNumber;
  collapse_deletions_ : bool;
  rep_ : option Rep
}.

(** Virtual dispatch. *)
Definition Map_ShouldDelete (m : RangeDelMap) (parsed : ParsedInternalKey)
    (mode : RangeDelPositioningMode) : option (bool * RangeDelMap) :=
  match m with
  | Uncollapsed rep =>
      match UncollapsedRangeDelMap.ShouldDelete user_comparator rep parsed mode with
      | Some b => Some (b, m)
      | None => None
      end
  | Collapsed c =>
      match CollapsedRangeDelMap.ShouldDelete user_comparator c parsed mode with
      | Some (b, c') => Some (b, Collapsed c')
      | None => None
      end
  end.

Definition Map_AddTombstone (m : RangeDelMap) (tombstone : RangeTombstone)
    : RangeDelMap :=
  match m with
  | Uncollapsed rep =>
      Uncollapsed (UncollapsedRangeDelMap.AddTombstone user_comparator rep tombstone)
  | Collapsed c =>
      Collapsed
        {| CollapsedRangeDelMap.rep_ :=
             CollapsedRangeDelMap.AddTombstone user_comparator
               (CollapsedRangeDelMap.rep_ c) tombstone;
           CollapsedRangeDelMap.iter_ := CollapsedRangeDelMap.iter_ c |}
  end.

Definition Map_InvalidatePosition (m : RangeDelMap) : RangeDelMap :=
  match m with
  | Uncollapsed rep => Uncollapsed rep
  | Collapsed c => Collapsed (CollapsedRangeDelMap.InvalidatePosition c)
  end.

Definition Map_Size (m : RangeDelMap) : Z :=
  match m with
  | Uncollapsed rep => UncollapsedRangeDelMap.Size rep
  | Collapsed c => CollapsedRangeDelMap.Size (CollapsedRangeDelMap.rep_ c)
  end.

(** [None]: the collapsed map aborts. *)
Definition Map_IsRangeOverlapped (m : RangeDelMap) (start end_ : Slice)
    : option bool :=
  match m with
  | Uncollapsed rep =>
      Some (UncollapsedRangeDelMap.IsRangeOverlapped user_comparator rep start end_)
  | Collapsed _ => None
  end.

Definition NewRangeDelMap (collapse_deletions : bool) : RangeDelMap :=
  if collapse_deletions
  then Collapsed CollapsedRangeDelMap.New
  else Uncollapsed [].

(** [InitRep], called with [rep_ == nullptr]. *)
Definition InitRep (collapse_deletions : bool)
    (snapshots : list SequenceNumber) : Rep :=
  let stripes :=
    fold_left
      (fun m snapshot =>
         map_emplace Z.ltb m snapshot (NewRangeDelMap collapse_deletions))
      snapshots [] in
  {| stripe_map_ :=
       map_emplace Z.ltb stripes kMaxSequenceNumber
         (NewRangeDelMap collapse_deletions);
     pinned_iters_ := [] |}.

(** The two constructors. *)
Definition New (snapshots : list SequenceNumber) (collapse_deletions : bool) : t :=
  {| upper_bound_ := kMaxSequenceNumber;
     collapse_deletions_ := collapse_deletions;
     rep_ := Some (InitRep collapse_deletions snapshots) |}.

Definition NewForSnapshot (snapshot : SequenceNumber)
    (collapse_deletions : bool) : t :=
  {| upper_bound_ := snapshot;
     collapse_deletions_ := collapse_deletions;
     rep_ := None |}.

(** [GetRangeDelMap]: the position of the stripe in [stripe_map_];
    the reference returned is the map of the entry at that position.
    [None] is the failed [assert(iter != rep_->stripe_map_.end())]. *)
Definition GetRangeDelMap (rep : Rep) (seq : SequenceNumber)
    : option (StripeMap * (SequenceNumber * RangeDelMap) * StripeMap) :=
  let iter :=
    if 0 <? seq
    then upper_bound Z.ltb (stripe_map_ rep) (seq - 1)
    else ([], stripe_map_ rep) in
  match iter with
  | (before, stripe :: after) => Some (before, stripe, after)
  | (_, []) => None
  end.

(** Writing through the reference returned by [GetRangeDelMap]. *)
Definition set_stripe (rep : Rep)
    (pos : StripeMap * (SequenceNumber * RangeDelMap) * StripeMap)
    (m : RangeDelMap) : Rep :=
  let '(before, stripe, after) := pos in
  {| stripe_map_ := unzip (before, (fst stripe, m) :: after);
     pinned_iters_ := pinned_iters_ rep |}.

(** [ShouldDeleteImpl(parsed, mode)]; [None] is a failed assertion. *)
Definition ShouldDeleteImpl (agg : t) (parsed : ParsedInternalKey)
    (mode : RangeDelPositioningMode) : option (bool * t) :=
  if negb (IsValueType (type parsed)) then None else
  match rep_ agg with
  | None => None
  | Some rep =>
      match GetRangeDelMap rep (sequence parsed) with
      | None => None
      | Some (before, stripe, after) =>
          if IsEmpty (snd stripe) then Some (false, agg)
          else
            match Map_ShouldDelete (snd stripe) parsed mode with
            | None => None
            | Some (b, m') =>
                Some (b, {| upper_bound_ := upper_bound_ agg;
                            collapse_deletions_ := collapse_deletions_ agg;
                            rep_ := Some (set_stripe rep (before, stripe, after) m') |})
            end
      end
  end.

(** [ShouldDeleteImpl(internal_key, mode)] *)
Definition ShouldDeleteImpl_key (agg : t) (internal_key : Slice)
    (mode : RangeDelPositioningMode) : option (bool * t) :=
  match ParseInternalKey internal_key with
  | None => None
  | Some parsed => ShouldDeleteImpl agg parsed mode
  end.

Fixpoint any_overlapped (stripes : StripeMap) (start end_ : Slice)
    : option bool :=
  match stripes with
  | [] => Some false
  | stripe :: rest =>
      match Map_IsRangeOverlapped (snd stripe) start end_ with
      | None => None
      | Some true => Some true
      | Some false => any_overlapped rest start end_
      end
  end.

Definition IsRangeOverlapped (agg : t) (start end_ : Slice) : option bool :=
  match rep_ agg with
  | None => Some false
  | Some rep => any_overlapped (stripe_map_ rep) start end_
  end.

Definition ShouldAddTombstones (agg : t) (bottommost_level : bool) : bool :=
  match rep_ agg with
  | None => false
  | Some rep =>
      let stripes :=
        if bottommost_level then tl (stripe_map_ rep) else stripe_map_ rep in
      existsb (fun stripe => negb (IsEmpty (snd stripe))) stripes
  end.

Definition InvalidateRangeDelMapPositions (agg : t) : t :=
  match rep_ agg with
  | None => agg
  | Some rep =>
      {| upper_bound_ := upper_bound_ agg;
         collapse_deletions_ := collapse_deletions_ agg;
         rep_ := Some {| stripe_map_ :=
                           map (fun stripe =>
                                  (fst stripe, Map_InvalidatePosition (snd stripe)))
                               (stripe_map_ rep);
                         pinned_iters_ := pinned_iters_ rep |} |}
  end.

(** Modelled from the spec: the constructor
    [RangeTombstone(parsed_key, value)] of the header, which is not
    part of this unit.  The internal key decodes to the start user key
    and the sequence number; the value is the exclusive end user key. *)
Definition MakeRangeTombstone (parsed_key : ParsedInternalKey)
    (value : Slice) : RangeTombstone :=
  {| start_key_ := user_key parsed_key;
     end_key_ := value;
     seq_ := sequence parsed_key |}.

(** [GetRangeDelMap(tombstone.seq_).AddTombstone(std::move(tombstone))] *)
Definition route (rep : Rep) (tombstone : RangeTombstone) : option Rep :=
  match GetRangeDelMap rep (seq_ tombstone) with
  | None => None
  | Some (before, stripe, after) =>
      Some (set_stripe rep (before, stripe, after)
              (Map_AddTombstone (snd stripe) tombstone))
  end.

(** The block guarded by [first_iter]. *)
Definition prepare (agg : t) : t :=
  match rep_ agg with
  | None =>
      {| upper_bound_ := upper_bound_ agg;
         collapse_deletions_ := collapse_deletions_ agg;
         rep_ := Some (InitRep (collapse_deletions_ agg) [upper_bound_ agg]) |}
  | Some _ => InvalidateRangeDelMapPositions agg
  end.

Definition pin (agg : t) (input : list (Slice * Slice)) : t :=
  match rep_ agg with
  | None => agg
  | Some rep =>
      {| upper_bound_ := upper_bound_ agg;
         collapse_deletions_ := collapse_deletions_ agg;
         rep_ := Some {| stripe_map_ := stripe_map_ rep;
                         pinned_iters_ := input :: pinned_iters_ rep |} |}
  end.

(** The [while (input->Valid())] loop of [AddTombstones] and the code
    after it; [pending] is what the iterator has not yielded yet. *)
Fixpoint AddTombstones_loop (input pending : list (Slice * Slice))
    (first_iter : bool) (agg : t) : option (Status * t) :=
  match pending with
  | [] => Some (OK, if first_iter then agg else pin agg input)
  | (key, value) :: rest =>
      let agg := if first_iter then prepare agg else agg in
      match ParseInternalKey key with
      | None =>
          Some (Corruption "Unable to parse range tombstone InternalKey", agg)
      | Some parsed_key =>
          match rep_ agg with
          | None => None
          | Some rep =>
              match route rep (MakeRangeTombstone parsed_key value) with
              | None => None
              | Some rep' =>
                  AddTombstones_loop input rest false
                    {| upper_bound_ := upper_bound_ agg;
                       collapse_deletions_ := collapse_deletions_ agg;
                       rep_ := Some rep' |}
              end
          end
      end
  end.

(** [AddTombstones(input)]; [input = None] is the null pointer and the
    result [None] a failed assertion. *)
Definition AddTombstones (agg : t) (input : option (list (Slice * Slice)))
    : option (Status * t) :=
  match input with
  | None => Some (OK, agg)
  | Some entries => AddTombstones_loop entries entries true agg
  end.

(** [IsEmpty()] of the aggregator. *)
Definition AggIsEmpty (agg : t) : bool :=
  match rep_ agg with
  | None => true
  | Some rep => forallb (fun stripe => IsEmpty (snd stripe)) (stripe_map_ rep)
  end.
(** Routing a list of tombstones, one after the other, as the loop of
    [AddTombstones] does with the tombstones it has parsed. *)
Fixpoint route_all (rep : Rep) (tombstones : list RangeTombstone)
    : option Rep :=
  match tombstones with
  | [] => Some rep
  | tombstone :: rest =>
      match route rep tombstone with
      | None => None
      | Some rep' => route_all rep' rest
      end
  end.

(** The tombstones a source iterator holds, when all its keys parse. *)
Fixpoint parse_all (entries : list (Slice * Slice))
    : option (list RangeTombstone) :=
  match entries with
  | [] => Some []
  | (key, value) :: rest =>
      match ParseInternalKey key, parse_all rest with
      | Some parsed_key, Some tombstones =>
          Some (MakeRangeTombstone parsed_key value :: tombstones)
      | _, _ => None
      end
  end.

Definition stripe_keys (rep : Rep) : list SequenceNumber :=
  map fst (stripe_map_ rep).

(** The upper bounds of the stripes, once there are stripes. *)
Definition keys_of (agg : t) : option (list SequenceNumber) :=
  option_map stripe_keys (rep_ agg).

Definition with_rep (agg : t) (rep : Rep) : t :=
  {| upper_bound_ := upper_bound_ agg;
     collapse_deletions_ := collapse_deletions_ agg;
     rep_ := Some rep |}.
End WithEngine.
End RangeDelAggregator.

(** ** Instances used by the scenarios *)

(** Fifty-six one bits: the sequence-number field of an internal key. *)
Definition max_seq_56 : SequenceNumber := 2 ^ 56 - 1.

(** Building a collapsed or an uncollapsed map from a list of
    tombstones, under the bytewise comparator. *)
Definition collapse (tombstones : list RangeTombstone) : CollapsedRangeDelMap.Rep :=
  fold_left (CollapsedRangeDelMap.AddTombstone BytewiseComparator) tombstones [].

Definition gather (tombstones : list RangeTombstone) : UncollapsedRangeDelMap.Rep :=
  fold_left (UncollapsedRangeDelMap.AddTombstone BytewiseComparator) tombstones [].

(** A collapsed map object with an invalidated cursor. *)
Definition fresh (rep : CollapsedRangeDelMap.Rep) : CollapsedRangeDelMap.t :=
  {| CollapsedRangeDelMap.rep_ := rep; CollapsedRangeDelMap.iter_ := None |}.

(** [ShouldDelete] of a collapsed map in [kBinarySearch] mode, keeping
    the answer only. *)
Definition covered (ucmp : Comparator) (rep : CollapsedRangeDelMap.Rep)
    (x : Slice) (s : SequenceNumber) : option bool :=
  option_map fst
    (CollapsedRangeDelMap.ShouldDelete ucmp (fresh rep) (pik x s) kBinarySearch).

(** A stand-in for the engine's internal-key parser in the scenarios:
    the last byte of the key is its sequence number, the bytes before it
    are the user key, and the empty key does not parse. *)
Definition example_parse (key : Slice) : option ParsedInternalKey :=
  match rev (list_ascii_of_string key) with
  | [] => None
  | c :: r =>
      Some {| user_key := string_of_list_ascii (rev r);
              sequence := Z.of_N (N_of_ascii c);
              type := 15 |}
  end.

(** The key [example_parse] reads as user key [k] at sequence [s]. *)
Definition ikey (k : string) (s : nat) : Slice :=
  (k ++ String (ascii_of_nat s) EmptyString)%string.


(** ** What a comparator must satisfy

    [Compare] orders the user keys totally: the sign of [Compare a b]
    is opposite to that of [Compare b a], and "not above" is
    transitive. *)
Record ComparatorLaws (c : Comparator) : Prop := {
  compare_refl : forall a, Compare c a a = 0;
  compare_antisym : forall a b, Compare c a b < 0 <-> 0 < Compare c b a;
  compare_trans : forall a b d,
    Compare c a b <= 0 -> Compare c b d <= 0 -> Compare c a d <= 0
}.

(** ** The meaning of a collapsed map

    Notions used to state what [AddTombstone] does to a sorted map; the
    source has no counterpart for them. *)
Section MapSemantics.
Import CollapsedRangeDelMap.
Variable ucmp : Comparator.

(** Keys strictly ascending under the user comparator: the order the
    map keeps when the user comparator orders the keys as it does
    ([orders_as_rep] below). *)
Definition sorted (rep : Rep) : Prop :=
  StronglySorted (fun a b => Compare ucmp (fst a) (fst b) < 0) rep.

(** The sequence number of the last entry whose key is selected,
    [acc] if there is none. *)
Definition pick (sel : Slice -> bool) (acc : SequenceNumber) (rep : Rep)
    : SequenceNumber :=
  fold_left (fun a e => if sel (fst e) then snd e else a) rep acc.

(** The sequence number in force at [x]: that of the last entry whose
    key is at most [x]. *)
Definition seq_at (acc : SequenceNumber) (rep : Rep) (x : Slice) : SequenceNumber :=
  pick (fun k => Compare ucmp k x <=? 0) acc rep.

(** The sequence number of the last entry. *)
Definition last_seq (acc : SequenceNumber) (rep : Rep) : SequenceNumber :=
  pick (fun _ => true) acc rep.

(** The entries in front of the first one whose key is not below [k],
    and the entries from that one on. *)
Fixpoint below (k : Slice) (l : Rep) : Rep :=
  match l with
  | [] => []
  | e :: r => if Compare ucmp (fst e) k <? 0 then e :: below k r else []
  end.

Fixpoint from (k : Slice) (l : Rep) : Rep :=
  match l with
  | [] => []
  | e :: r => if Compare ucmp (fst e) k <? 0 then from k r else l
  end.

(** What the loop of [AddTombstone] leaves of the entries [A] it
    visits, when the entry in front of them carries [p]. *)
Fixpoint run_entries (t : RangeTombstone) (p : SequenceNumber) (A : Rep) : Rep :=
  match A with
  | [] => []
  | e :: r =>
      if snd e <? seq_ t then
        if seq_ t =? p then run_entries t p r
        else (fst e, seq_ t) :: run_entries t (seq_ t) r
      else e :: run_entries t (snd e) r
  end.

(** The value of [end_seq] after the loop has visited [A]. *)
Fixpoint run_end_seq (t : RangeTombstone) (es : SequenceNumber) (A : Rep)
    : SequenceNumber :=
  match A with
  | [] => es
  | e :: r => run_end_seq t (if snd e <? seq_ t then snd e else es) r
  end.

(** [m[k] = v] on a map whose keys are all at most [k]. *)
Fixpoint assign_le (l : Rep) (k : Slice) (v : SequenceNumber) : Rep :=
  match l with
  | [] => [(k, v)]
  | e :: r =>
      if Compare ucmp (fst e) k <? 0 then e :: assign_le r k v
      else (fst e, v) :: r
  end.

(** [emplace(k, v)] on a map whose keys are all at least [k]. *)
Definition emplace_front (B : Rep) (k : Slice) (v : SequenceNumber) : Rep :=
  match B with
  | [] => [(k, v)]
  | e :: _ => if Compare ucmp k (fst e) <? 0 then (k, v) :: B else B
  end.

(** [x] lies in the interval of [t] *)
Definition covers (t : RangeTombstone) (x : Slice) : bool :=
  (Compare ucmp (start_key_ t) x <=? 0) && (Compare ucmp x (end_key_ t) <? 0).

(** The largest sequence number of a tombstone of [S] covering [x],
    0 if there is none. *)
Definition cover_seq (S : list RangeTombstone) (x : Slice) : SequenceNumber :=
  fold_left (fun acc t => if covers t x then Z.max acc (seq_ t) else acc) S 0.

(** The tombstone [t] deletes the key [x] at sequence number [s]. *)
Definition deletes (x : Slice) (s : SequenceNumber) (t : RangeTombstone) : bool :=
  covers t x && (s <? seq_ t).

(** The order of the multiset: start keys ascending. *)
Definition start_sorted (rep : list RangeTombstone) : Prop :=
  StronglySorted
    (fun a b => Compare ucmp (start_key_ a) (start_key_ b) <= 0) rep.

(** Tombstones that cover something, with positive sequence numbers,
    no two of which have the same sequence number and a key in common. *)
Definition proper (S : list RangeTombstone) : Prop :=
  NoDup S
  /\ Forall (fun t => 0 < seq_ t
                      /\ Compare ucmp (start_key_ t) (end_key_ t) < 0) S
  /\ forall t t' x,
       In t S -> In t' S -> t <> t' -> seq_ t = seq_ t' ->
       covers t x = true -> covers t' x = false.

(** The user comparator orders the keys as [rep_] does. *)
Definition orders_as_rep : Prop :=
  forall a b, LessOfComparator ucmp a b = rep_less a b.

(** A selection of keys that, with a key, holds every smaller one. *)
Definition down_closed (sel : Slice -> bool) : Prop :=
  forall a b, Compare ucmp a b < 0 -> sel b = true -> sel a = true.

(** A test for [proper]: tombstones with the same sequence number lie
    one after the other. *)
Fixpoint proper_b (S : list RangeTombstone) : bool :=
  match S with
  | [] => true
  | t :: rest =>
      (0 <? seq_ t)
      && (Compare ucmp (start_key_ t) (end_key_ t) <? 0)
      && forallb
           (fun t' =>
              negb (seq_ t =? seq_ t')
              || (Compare ucmp (end_key_ t) (start_key_ t') <=? 0)
              || (Compare ucmp (end_key_ t') (start_key_ t) <=? 0))
           rest
      && proper_b rest
  end.
End MapSemantics.

(** ** The cursor of the collapsed map *)

Section CursorDefs.
Import CollapsedRangeDelMap.
Variable ucmp : Comparator.

(** Where a call of [ShouldDelete] for the key [x] leaves [iter_]: on
    the entry whose interval holds [x], on the first entry when [x]
    lies in front of it, and at [end()] only when the map is empty. *)
Definition cursor_for (rep : Rep) (x : Slice) (it : option Slice) : Prop :=
  match it with
  | None => rep = []
  | Some c =>
      exists before cur rest,
        rep = rev before ++ cur :: rest
        /\ fst cur = c
        /\ ((Compare ucmp (fst cur) x <= 0
             /\ match rest with
                | [] => True
                | nxt :: _ => Compare ucmp x (fst nxt) < 0
                end)
            \/ (before = [] /\ Compare ucmp x (fst cur) < 0))
  end.
End CursorDefs.

(** ** What the iterator of the collapsed map yields

    The source has no counterpart for [emitted]. *)

Section IteratorSemantics.
Import CollapsedRangeDelMap.

(** What the iterator yields from the entries [it] on: the pair at the
    front when the iterator was just constructed ([first]), and after it
    every pair of neighbours whose left entry is not a sentinel. *)
Fixpoint emitted (first : bool) (it : list Entry) : list RangeTombstone :=
  match it with
  | e :: ((nxt :: _) as rest) =>
      if first || negb (snd e =? 0)
      then {| start_key_ := fst e; end_key_ := fst nxt; seq_ := snd e |}
           :: emitted false rest
      else emitted false rest
  | _ => []
  end.
End IteratorSemantics.

(** ** The cursors of the stripes *)

(** The cursor of a map is at [end()]; an uncollapsed map has none. *)
Definition cursor_at_end (m : RangeDelMap) : Prop :=
  match m with
  | Uncollapsed _ => True
  | Collapsed c => CollapsedRangeDelMap.iter_ c = None
  end.

(** Every stripe's cursor is at [end()]. *)
Definition cursors_at_end (agg : RangeDelAggregator.t) : Prop :=
  match RangeDelAggregator.rep_ agg with
  | None => True
  | Some rep =>
      Forall (fun stripe => cursor_at_end (snd stripe))
        (RangeDelAggregator.stripe_map_ rep)
  end.

(** ** AddToBuilder *)

Module TableOutput.
(** [RangeDelIterator]: the iterator of an uncollapsed map is the rest
    of the multiset, that of a collapsed map the entries from [iter_]
    on. *)
Inductive RangeDelIterator :=
| UncollapsedIterator (it : list RangeTombstone)
| CollapsedIterator (it : list CollapsedRangeDelMap.Entry).

Definition Iterator_Valid (it : RangeDelIterator) : bool :=
  match it with
  | UncollapsedIterator l => match l with [] => false | _ :: _ => true end
  | CollapsedIterator l => CollapsedRangeDelMap.Valid l
  end.

Definition Iterator_Next (it : RangeDelIterator) : RangeDelIterator :=
  match it with
  | UncollapsedIterator l => UncollapsedIterator (tl l)
  | CollapsedIterator l => CollapsedIterator (CollapsedRangeDelMap.Next l)
  end.

Definition Iterator_Tombstone (it : RangeDelIterator) : option RangeTombstone :=
  match it with
  | UncollapsedIterator l => hd_error l
  | CollapsedIterator l => CollapsedRangeDelMap.Tombstone l
  end.

(** [NewIterator()] of either map. *)
Definition Map_NewIterator (m : RangeDelMap) : RangeDelIterator :=
  match m with
  | Uncollapsed rep => UncollapsedIterator rep
  | Collapsed c =>
      CollapsedIterator
        (CollapsedRangeDelMap.NewIterator (CollapsedRangeDelMap.rep_ c))
  end.

(** The number of entries the iterator has in front of it. *)
Definition Iterator_remaining (it : RangeDelIterator) : nat :=
  match it with
  | UncollapsedIterator l => List.length l
  | CollapsedIterator l => List.length l
  end.

(** The fields of [FileMetaData] that [AddToBuilder] writes. *)
Record FileMetaData {InternalKey : Type} := {
  smallest : InternalKey;
  largest : InternalKey;
  smallest_seqno : SequenceNumber;
  largest_seqno : SequenceNumber
}.
Arguments FileMetaData : clear implicits.

(** The counters of [CompactionIterationStats] that [AddToBuilder]
    writes. *)
Record CompactionIterationStats := {
  num_record_drop_obsolete : Z;
  num_range_del_drop_obsolete : Z
}.

Section WithTable.
(** Supplied by the enclosing engine (dbformat.h, table_builder.h and
    the header of this unit): the internal key with its constructor,
    [user_key()], [size()] and [Encode()], the two serialisers of
    [RangeTombstone], the internal-key comparator, and the constants. *)
Variable InternalKey : Type.
Variable MakeInternalKey : Slice -> SequenceNumber -> ValueType -> InternalKey.
Variable InternalKey_user_key : InternalKey -> Slice.
Variable InternalKey_size : InternalKey -> Z.
Variable Encode : InternalKey -> Slice.
Variable Serialize : RangeTombstone -> InternalKey * Slice.
Variable SerializeEndKey : RangeTombstone -> InternalKey.
Variable icmp_Compare : InternalKey -> InternalKey -> Z.
Variable kMaxSequenceNumber : SequenceNumber.
Variable kTypeRangeDeletion : ValueType.
(** [icmp_.user_comparator()] *)
Variable user_comparator : Comparator.
(** [+=] on a counter of [CompactionIterationStats], with the [size_t]
    that [Size()] returns as its right operand.  The type of the
    counters is declared in compaction_iteration_stats.h, which is not
    part of this unit. *)
Variable counter_add : Z -> Z -> Z.

(** The table builder, as the list of the entries handed to [Add]. *)
Definition TableBuilder := list (Slice * Slice).

(** The test in front of [break]. *)
Definition starts_behind (upper_bound : option Slice) (tombstone : RangeTombstone)
    : bool :=
  match upper_bound with
  | None => false
  | Some upper => Compare user_comparator upper (start_key_ tombstone) <=? 0
  end.

(** The test in front of [continue]. *)
Definition ends_before (lower_bound : option Slice) (tombstone : RangeTombstone)
    : bool :=
  match lower_bound with
  | None => false
  | Some lower => Compare user_comparator (end_key_ tombstone) lower <=? 0
  end.

(** The body of the [for] loop behind the two tests: the tombstone is
    handed to the builder and the metadata is updated. *)
Definition add_one (lower_bound upper_bound : option Slice)
    (first_added : bool) (builder : TableBuilder)
    (meta : FileMetaData InternalKey) (tombstone : RangeTombstone)
    : TableBuilder * FileMetaData InternalKey :=
  let ikey_and_end_key := Serialize tombstone in
  let builder :=
    builder ++ [(Encode (fst ikey_and_end_key), snd ikey_and_end_key)] in
  let smallest' :=
    if first_added then smallest meta
    else
      let smallest_candidate := fst ikey_and_end_key in
      let smallest_candidate :=
        match lower_bound with
        | Some lower =>
            if Compare user_comparator
                 (InternalKey_user_key smallest_candidate) lower <=? 0
            then MakeInternalKey lower 0 kTypeRangeDeletion
            else smallest_candidate
        | None => smallest_candidate
        end in
      if (InternalKey_size (smallest meta) =? 0)
         || (icmp_Compare smallest_candidate (smallest meta) <? 0)
      then smallest_candidate
      else smallest meta in
  let largest_candidate := SerializeEndKey tombstone in
  let largest_candidate :=
    match upper_bound with
    | Some upper =>
        if Compare user_comparator upper
             (InternalKey_user_key largest_candidate) <=? 0
        then MakeInternalKey upper kMaxSequenceNumber kTypeRangeDeletion
        else largest_candidate
    | None => largest_candidate
    end in
  let largest' :=
    if (InternalKey_size (largest meta) =? 0)
       || (icmp_Compare (largest meta) largest_candidate <? 0)
    then largest_candidate
    else largest meta in
  (builder,
   {| smallest := smallest';
      largest := largest';
      smallest_seqno := Z.min (smallest_seqno meta) (seq_ tombstone);
      largest_seqno := Z.max (largest_seqno meta) (seq_ tombstone) |}).

(** The [for] loop over the iterator of one stripe.  [None] when [fuel]
    iterations did not reach an invalid iterator. *)
Fixpoint add_stripe (fuel : nat) (it : RangeDelIterator)
    (lower_bound upper_bound : option Slice) (first_added : bool)
    (builder : TableBuilder) (meta : FileMetaData InternalKey)
    : option (TableBuilder * FileMetaData InternalKey) :=
  if negb (Iterator_Valid it) then Some (builder, meta)
  else
    match fuel, Iterator_Tombstone it with
    | S fuel', Some tombstone =>
        if starts_behind upper_bound tombstone then Some (builder, meta)
        else if ends_before lower_bound tombstone
        then add_stripe fuel' (Iterator_Next it) lower_bound upper_bound
               first_added builder meta
        else
          let '(builder, meta) :=
            add_one lower_bound upper_bound first_added builder meta
              tombstone in
          add_stripe fuel' (Iterator_Next it) lower_bound upper_bound
            true builder meta
    | _, _ => None
    end.

(** The [while] loop over the stripes. *)
Fixpoint add_stripes (stripes : RangeDelAggregator.StripeMap)
    (lower_bound upper_bound : option Slice)
    (builder : TableBuilder) (meta : FileMetaData InternalKey)
    : option (TableBuilder * FileMetaData InternalKey) :=
  match stripes with
  | [] => Some (builder, meta)
  | stripe :: rest =>
      let it := Map_NewIterator (snd stripe) in
      match add_stripe (Iterator_remaining it) it lower_bound upper_bound
              false builder meta with
      | Some (builder, meta) =>
          add_stripes rest lower_bound upper_bound builder meta
      | None => None
      end
  end.

(** [AddToBuilder]; the bounds and the statistics are pointers that may
    be null.  [None] is the failed assertion on the stripe map or the
    write through a null [range_del_out_stats]. *)
Definition AddToBuilder (agg : RangeDelAggregator.t) (builder : TableBuilder)
    (lower_bound upper_bound : option Slice)
    (meta : FileMetaData InternalKey)
    (range_del_out_stats : option CompactionIterationStats)
    (bottommost_level : bool)
    : option (TableBuilder * FileMetaData InternalKey
              * option CompactionIterationStats) :=
  match RangeDelAggregator.rep_ agg with
  | None => Some (builder, meta, range_del_out_stats)
  | Some rep =>
      match RangeDelAggregator.stripe_map_ rep with
      | [] => None
      | first :: rest =>
          if bottommost_level then
            match range_del_out_stats with
            | None => None
            | Some stats =>
                let size := RangeDelAggregator.Map_Size (snd first) in
                let stats :=
                  {| num_record_drop_obsolete :=
                       counter_add (num_record_drop_obsolete stats) size;
                     num_range_del_drop_obsolete :=
                       counter_add (num_range_del_drop_obsolete stats) size |} in
                match add_stripes rest lower_bound upper_bound builder meta with
                | Some (builder, meta) => Some (builder, meta, Some stats)
                | None => None
                end
            end
          else
            match add_stripes (first :: rest) lower_bound upper_bound
                    builder meta with
            | Some (builder, meta) =>
                Some (builder, meta, range_del_out_stats)
            | None => None
            end
      end
  end.

(** *** What [AddToBuilder] writes

    The source has no counterpart for the notions below. *)

(** The tombstones an iterator yields from where it stands. *)
Definition yields (it : RangeDelIterator) : list RangeTombstone :=
  match it with
  | UncollapsedIterator l => l
  | CollapsedIterator l => emitted true l
  end.

(** The tombstones the iterator of a map yields. *)
Definition tombstones_of (m : RangeDelMap) : list RangeTombstone :=
  yields (Map_NewIterator m).

(** The [for] loop, run over the tombstones the iterator yields. *)
Fixpoint write_list (lower_bound upper_bound : option Slice)
    (first_added : bool) (builder : TableBuilder)
    (meta : FileMetaData InternalKey) (tombstones : list RangeTombstone)
    : TableBuilder * FileMetaData InternalKey :=
  match tombstones with
  | [] => (builder, meta)
  | tombstone :: rest =>
      if starts_behind upper_bound tombstone then (builder, meta)
      else if ends_before lower_bound tombstone
      then write_list lower_bound upper_bound first_added builder meta rest
      else
        let '(builder, meta) :=
          add_one lower_bound upper_bound first_added builder meta
            tombstone in
        write_list lower_bound upper_bound true builder meta rest
  end.

Fixpoint write_stripes (lower_bound upper_bound : option Slice)
    (builder : TableBuilder) (meta : FileMetaData InternalKey)
    (stripes : RangeDelAggregator.StripeMap)
    : TableBuilder * FileMetaData InternalKey :=
  match stripes with
  | [] => (builder, meta)
  | stripe :: rest =>
      let '(builder, meta) :=
        write_list lower_bound upper_bound false builder meta
          (tombstones_of (snd stripe)) in
      write_stripes lower_bound upper_bound builder meta rest
  end.

(** The tombstones of one stripe that reach the builder: those in front
    of the first one starting at or behind the upper bound that do not
    end at or before the lower bound. *)
Fixpoint written (lower_bound upper_bound : option Slice)
    (tombstones : list RangeTombstone) : list RangeTombstone :=
  match tombstones with
  | [] => []
  | tombstone :: rest =>
      if starts_behind upper_bound tombstone then []
      else if ends_before lower_bound tombstone
      then written lower_bound upper_bound rest
      else tombstone :: written lower_bound upper_bound rest
  end.

(** The entry the builder receives for a tombstone. *)
Definition entry (tombstone : RangeTombstone) : Slice * Slice :=
  (Encode (fst (Serialize tombstone)), snd (Serialize tombstone)).

(** The tombstones of the stripes that reach the builder. *)
Definition written_of (lower_bound upper_bound : option Slice)
    (stripes : RangeDelAggregator.StripeMap) : list RangeTombstone :=
  flat_map
    (fun stripe => written lower_bound upper_bound (tombstones_of (snd stripe)))
    stripes.

(** The tombstone overlaps the bounds that are given. *)
Definition in_bounds (lower_bound upper_bound : option Slice)
    (tombstone : RangeTombstone) : bool :=
  negb (starts_behind upper_bound tombstone)
  && negb (ends_before lower_bound tombstone).

(** The stripes [AddToBuilder] visits. *)
Definition visited (rep : RangeDelAggregator.Rep) (bottommost_level : bool)
    : RangeDelAggregator.StripeMap :=
  if bottommost_level
  then tl (RangeDelAggregator.stripe_map_ rep)
  else RangeDelAggregator.stripe_map_ rep.

(** The statistics after [AddToBuilder]. *)
Definition credited (rep : RangeDelAggregator.Rep)
    (stats : option CompactionIterationStats) (bottommost_level : bool)
    : option CompactionIterationStats :=
  if bottommost_level then
    match stats, RangeDelAggregator.stripe_map_ rep with
    | Some stats, first :: _ =>
        let size := RangeDelAggregator.Map_Size (snd first) in
        Some {| num_record_drop_obsolete :=
                  counter_add (num_record_drop_obsolete stats) size;
                num_range_del_drop_obsolete :=
                  counter_add (num_range_del_drop_obsolete stats) size |}
    | _, _ => stats
    end
  else stats.
End WithTable.
End TableOutput.

(** Stand-ins for the engine's internal key in the scenarios: the
    decoded triple as the key and [None] as the key of size 0, the user
    key as the encoding, the user key with the eight bytes of the
    trailer as the size, the order of the user keys as the order, and
    15 as [kTypeRangeDeletion]. *)
Definition example_MakeInternalKey (k : Slice) (s : SequenceNumber)
    (t : ValueType) : option ParsedInternalKey :=
  Some {| user_key := k; sequence := s; type := t |}.

Definition example_user_key (k : option ParsedInternalKey) : Slice :=
  match k with
  | Some parsed => user_key parsed
  | None => EmptyString
  end.

Definition example_size (k : option ParsedInternalKey) : Z :=
  match k with
  | Some parsed => Z.of_nat (String.length (user_key parsed)) + 8
  | None => 0
  end.

Definition example_Serialize (t : RangeTombstone)
    : option ParsedInternalKey * Slice :=
  (example_MakeInternalKey (start_key_ t) (seq_ t) 15, end_key_ t).

Definition example_SerializeEndKey (t : RangeTombstone)
    : option ParsedInternalKey :=
  example_MakeInternalKey (end_key_ t) (seq_ t) 15.

Definition example_icmp (a b : option ParsedInternalKey) : Z :=
  Compare BytewiseComparator (example_user_key a) (example_user_key b).

(** A stand-in for [+=] on the drop counters in the scenarios: the
    sum, wrapped around as a 64-bit two's-complement integer. *)
Definition example_counter_add (counter size : Z) : Z :=
  (counter + size + 2 ^ 63) mod 2 ^ 64 - 2 ^ 63.

Definition example_AddToBuilder :=
  TableOutput.AddToBuilder (option ParsedInternalKey) example_MakeInternalKey
    example_user_key example_size example_user_key example_Serialize
    example_SerializeEndKey example_icmp max_seq_56 15 BytewiseComparator
    example_counter_add.

Definition example_entry (t : RangeTombstone) : Slice * Slice :=
  TableOutput.entry (option ParsedInternalKey) example_user_key
    example_Serialize t.

(** An aggregator with the stripes given. *)
Definition with_stripes (stripes : RangeDelAggregator.StripeMap)
    : RangeDelAggregator.t :=
  {| RangeDelAggregator.upper_bound_ := max_seq_56;
     RangeDelAggregator.collapse_deletions_ := false;
     RangeDelAggregator.rep_ :=
       Some {| RangeDelAggregator.stripe_map_ := stripes;
               RangeDelAggregator.pinned_iters_ := [] |} |}.

(** Metadata of a file that holds nothing yet. *)
Definition empty_meta : TableOutput.FileMetaData (option ParsedInternalKey) :=
  {| TableOutput.smallest := None;
     TableOutput.largest := None;
     TableOutput.smallest_seqno := max_seq_56;
     TableOutput.largest_seqno := 0 |}.

(** * Properties *)

(** ** The scenarios of the source comment and of the tests *)

Section Scenarios.
Local Open Scope string_scope.

(** The example of the class comment: [b, n) @ 1, [e, h) @ 2,
    [q, t) @ 2 and [g, k) @ 3 collapse to
    b -> 1, e -> 2, g -> 3, k -> 1, n -> 0, q -> 2, t -> 0. *)
Example class_comment_example :
  collapse [tomb "b" "n" 1; tomb "e" "h" 2; tomb "q" "t" 2; tomb "g" "k" 3]
  = [("b", 1); ("e", 2); ("g", 3); ("k", 1); ("n", 0); ("q", 2); ("t", 0)].
Proof. reflexivity. Qed.

Example class_comment_queries :
  let rep :=
    collapse [tomb "b" "n" 1; tomb "e" "h" 2; tomb "q" "t" 2; tomb "g" "k" 3] in
  covered BytewiseComparator rep "h" 4 = Some false
  /\ covered BytewiseComparator rep "h" 2 = Some true.
Proof. split; reflexivity. Qed.

Example overlap_above_middle :
  collapse [tomb "a" "d" 5; tomb "b" "c" 10]
  = [("a", 5); ("b", 10); ("c", 5); ("d", 0)]
  /\ CollapsedRangeDelMap.Tombstones
       (collapse [tomb "a" "d" 5; tomb "b" "c" 10])
     = Some [tomb "a" "b" 5; tomb "b" "c" 10; tomb "c" "d" 5].
Proof. split; reflexivity. Qed.

Example full_scan_is_refused_by_collapsed_map :
  CollapsedRangeDelMap.ShouldDelete BytewiseComparator
    (fresh (collapse [tomb "a" "b" 5])) (pik "a" 1) kFullScan = None.
Proof. reflexivity. Qed.

(** A traversal with an invalidated cursor is a binary search. *)
Example traversal_reseeks :
  CollapsedRangeDelMap.ShouldDelete BytewiseComparator
    (fresh (collapse [tomb "a" "c" 5])) (pik "b" 1) kForwardTraversal
  = CollapsedRangeDelMap.ShouldDelete BytewiseComparator
    (fresh (collapse [tomb "a" "c" 5])) (pik "b" 1) kBinarySearch.
Proof. reflexivity. Qed.

(** The tests whose tombstones have pairwise different sequence
    numbers: what the iterator of the collapsed map emits, with the
    tombstones added in the order of the test and in the reverse
    order. *)
Example test_single :
  let S := [tomb "a" "b" 10] in
  let expected := Some [tomb "a" "b" 10] in
  CollapsedRangeDelMap.Tombstones (collapse S) = expected
  /\ CollapsedRangeDelMap.Tombstones (collapse (rev S)) = expected.
Proof. split; reflexivity. Qed.

Example test_overlap_above_left :
  let S := [tomb "a" "c" 10; tomb "b" "d" 5] in
  let expected := Some [tomb "a" "c" 10; tomb "c" "d" 5] in
  CollapsedRangeDelMap.Tombstones (collapse S) = expected
  /\ CollapsedRangeDelMap.Tombstones (collapse (rev S)) = expected.
Proof. split; reflexivity. Qed.

Example test_overlap_above_right :
  let S := [tomb "a" "c" 5; tomb "b" "d" 10] in
  let expected := Some [tomb "a" "b" 5; tomb "b" "d" 10] in
  CollapsedRangeDelMap.Tombstones (collapse S) = expected
  /\ CollapsedRangeDelMap.Tombstones (collapse (rev S)) = expected.
Proof. split; reflexivity. Qed.

Example test_overlap_fully :
  let S := [tomb "a" "d" 10; tomb "b" "c" 5] in
  let expected := Some [tomb "a" "d" 10] in
  CollapsedRangeDelMap.Tombstones (collapse S) = expected
  /\ CollapsedRangeDelMap.Tombstones (collapse (rev S)) = expected.
Proof. split; reflexivity. Qed.

Example test_overlap_point :
  let S := [tomb "a" "b" 5; tomb "b" "c" 10] in
  let expected := Some [tomb "a" "b" 5; tomb "b" "c" 10] in
  CollapsedRangeDelMap.Tombstones (collapse S) = expected
  /\ CollapsedRangeDelMap.Tombstones (collapse (rev S)) = expected.
Proof. split; reflexivity. Qed.

Example test_same_start_key :
  let S := [tomb "a" "c" 5; tomb "a" "b" 10] in
  let expected := Some [tomb "a" "b" 10; tomb "b" "c" 5] in
  CollapsedRangeDelMap.Tombstones (collapse S) = expected
  /\ CollapsedRangeDelMap.Tombstones (collapse (rev S)) = expected.
Proof. split; reflexivity. Qed.

Example test_same_end_key :
  let S := [tomb "a" "d" 5; tomb "b" "d" 10] in
  let expected := Some [tomb "a" "b" 5; tomb "b" "d" 10] in
  CollapsedRangeDelMap.Tombstones (collapse S) = expected
  /\ CollapsedRangeDelMap.Tombstones (collapse (rev S)) = expected.
Proof. split; reflexivity. Qed.

Example test_gaps_between_ranges :
  let S := [tomb "a" "b" 5; tomb "c" "d" 10; tomb "e" "f" 15] in
  let expected := Some [tomb "a" "b" 5; tomb "c" "d" 10; tomb "e" "f" 15] in
  CollapsedRangeDelMap.Tombstones (collapse S) = expected
  /\ CollapsedRangeDelMap.Tombstones (collapse (rev S)) = expected.
Proof. split; reflexivity. Qed.

Example test_cover_multiple_from_left :
  let S := [tomb "b" "d" 5; tomb "c" "f" 10; tomb "e" "g" 15; tomb "a" "f" 20] in
  let expected := Some [tomb "a" "f" 20; tomb "f" "g" 15] in
  CollapsedRangeDelMap.Tombstones (collapse S) = expected
  /\ CollapsedRangeDelMap.Tombstones (collapse (rev S)) = expected.
Proof. split; reflexivity. Qed.

Example test_cover_multiple_from_right :
  let S := [tomb "b" "d" 5; tomb "c" "f" 10; tomb "e" "g" 15; tomb "c" "h" 20] in
  let expected := Some [tomb "b" "c" 5; tomb "c" "h" 20] in
  CollapsedRangeDelMap.Tombstones (collapse S) = expected
  /\ CollapsedRangeDelMap.Tombstones (collapse (rev S)) = expected.
Proof. split; reflexivity. Qed.

Example test_cover_multiple_fully :
  let S := [tomb "b" "d" 5; tomb "c" "f" 10; tomb "e" "g" 15; tomb "a" "h" 20] in
  let expected := Some [tomb "a" "h" 20] in
  CollapsedRangeDelMap.Tombstones (collapse S) = expected
  /\ CollapsedRangeDelMap.Tombstones (collapse (rev S)) = expected.
Proof. split; reflexivity. Qed.

Example test_alternate_multiple_above_below :
  let S := [tomb "b" "d" 15; tomb "c" "f" 10; tomb "e" "g" 20; tomb "a" "h" 5] in
  let expected := Some [tomb "a" "b" 5; tomb "b" "d" 15; tomb "d" "e" 10; tomb "e" "g" 20; tomb "g" "h" 5] in
  CollapsedRangeDelMap.Tombstones (collapse S) = expected
  /\ CollapsedRangeDelMap.Tombstones (collapse (rev S)) = expected.
Proof. split; reflexivity. Qed.

(** Test OverlapAboveMiddleReverse, under the reverse comparator.  The
    test expects (d, c) @ 5, (c, b) @ 10, (b, a) @ 5.  The map keeps its
    bytewise order (see [rep_less]) while the loop compares with the
    reverse comparator, so neither direction gives these tombstones. *)
Example test_overlap_above_middle_reverse :
  let add := CollapsedRangeDelMap.AddTombstone ReverseBytewiseComparator in
  let S := [tomb "d" "a" 5; tomb "c" "b" 10] in
  fold_left add S [] = [("a", 0); ("b", 5); ("c", 10)]
  /\ fold_left add (rev S) [] = [("b", 0); ("c", 10)]
  /\ CollapsedRangeDelMap.Tombstones (fold_left add S [])
     = Some [tomb "a" "b" 0; tomb "b" "c" 5]
  /\ CollapsedRangeDelMap.ShouldDelete ReverseBytewiseComparator
       (fresh (fold_left add [tomb "d" "a" 5] [])) (pik "c" 4) kBinarySearch
     = None.
Proof. repeat split; reflexivity. Qed.

(** Test SameStartAndEnd: the iterator emits nothing. *)
Example test_same_start_and_end :
  CollapsedRangeDelMap.Tombstones (collapse [tomb "a" "a" 5]) = Some [].
Proof. reflexivity. Qed.

(** C1 (test CoverSameSeqNo, point c): with [a, d) @ 5 and [b, c) @ 5
    the uncollapsed map in FullScan mode deletes c @ 4, the collapsed
    map in BinarySearch mode does not: the second tombstone installs
    the transition c -> 0 under the first one. *)
Theorem same_seqno_cover_breaks_equivalence :
  let S := [tomb "a" "d" 5; tomb "b" "c" 5] in
  collapse S = [("a", 5); ("c", 0); ("d", 0)]
  /\ UncollapsedRangeDelMap.ShouldDelete BytewiseComparator (gather S)
       (pik "c" 4) kFullScan = Some true
  /\ covered BytewiseComparator (collapse S) "c" 4 = Some false.
Proof. repeat split; reflexivity. Qed.

(** C2: adding the empty tombstone [a, a) @ 5 to the empty collapsed
    map leaves the single entry a -> 5, and adding [e, e) @ 7 after
    [a, c) @ 5 leaves e -> 7 last: the run of non-zero entries is not
    followed by a sentinel and the last entry does not have seq 0. *)
Theorem empty_tombstone_leaves_no_sentinel :
  collapse [tomb "a" "a" 5] = [("a", 5)]
  /\ collapse [tomb "a" "c" 5; tomb "e" "e" 7] = [("a", 5); ("c", 0); ("e", 7)]
  /\ option_map snd (last (map Some (collapse [tomb "a" "c" 5; tomb "e" "e" 7])) None)
     = Some 7.
Proof. repeat split; reflexivity. Qed.

(** C4: in the collapsed map built from [a, c) @ 5 the key f @ 6 is
    not deleted; after adding the empty tombstone [e, e) @ 7 it is.
    The uncollapsed map answers [false] both times. *)
Theorem empty_tombstone_adds_coverage :
  let M := collapse [tomb "a" "c" 5] in
  let M' := CollapsedRangeDelMap.AddTombstone BytewiseComparator M (tomb "e" "e" 7) in
  covered BytewiseComparator M "f" 6 = Some false
  /\ covered BytewiseComparator M' "f" 6 = Some true
  /\ UncollapsedRangeDelMap.ShouldDelete BytewiseComparator
       (gather [tomb "a" "c" 5; tomb "e" "e" 7]) (pik "f" 6) kFullScan
     = Some false.
Proof. repeat split; reflexivity. Qed.

(** C5 (test ContiguousSameSeqNo): [a, b) @ 5 then [b, c) @ 5 give the
    three entries a -> 5, b -> 5, c -> 0, and the iterator emits the
    two tombstones (a, b, 5) and (b, c, 5), not the single (a, c, 5). *)
Theorem contiguous_same_seqno_is_not_merged :
  collapse [tomb "a" "b" 5; tomb "b" "c" 5] = [("a", 5); ("b", 5); ("c", 0)]
  /\ CollapsedRangeDelMap.Tombstones (collapse [tomb "a" "b" 5; tomb "b" "c" 5])
     = Some [tomb "a" "b" 5; tomb "b" "c" 5]
  /\ CollapsedRangeDelMap.Tombstones (collapse [tomb "a" "b" 5; tomb "b" "c" 5])
     <> Some [tomb "a" "c" 5].
Proof. repeat split; try reflexivity. discriminate. Qed.

(** C6 (test CoverSameSeqNo, both directions): inserting [a, d) @ 5
    then [b, c) @ 5 leaves c @ 4 alive, inserting them in the other
    order deletes it. *)
Theorem insertion_order_changes_coverage :
  let S := [tomb "a" "d" 5; tomb "b" "c" 5] in
  collapse S = [("a", 5); ("c", 0); ("d", 0)]
  /\ collapse (rev S) = [("a", 5); ("b", 5); ("d", 0)]
  /\ covered BytewiseComparator (collapse S) "c" 4 = Some false
  /\ covered BytewiseComparator (collapse (rev S)) "c" 4 = Some true.
Proof. repeat split; reflexivity. Qed.

(** C7: on the map built from [a, z) @ 5, adding the empty tombstone
    [c, c) @ 5 once gives a -> 5, c -> 0, z -> 0, and adding it a
    second time changes the map again, to a -> 5, c -> 5, z -> 0. *)
Theorem second_add_of_empty_tombstone_changes_map :
  let M := collapse [tomb "a" "z" 5] in
  let t := tomb "c" "c" 5 in
  let M1 := CollapsedRangeDelMap.AddTombstone BytewiseComparator M t in
  let M2 := CollapsedRangeDelMap.AddTombstone BytewiseComparator M1 t in
  M1 = [("a", 5); ("c", 0); ("z", 0)]
  /\ M2 = [("a", 5); ("c", 5); ("z", 0)]
  /\ M2 <> M1.
Proof. repeat split; try reflexivity. discriminate. Qed.
End Scenarios.

(** ** Sizes *)

(** C9: [Size] of a collapsed map is the number of entries minus one
    in unsigned 64-bit arithmetic, for every state of the map; for the
    empty map, with zero entries, that is [2^64 - 1]. *)
Theorem collapsed_size (rep : CollapsedRangeDelMap.Rep) :
  CollapsedRangeDelMap.Size rep = (Z.of_nat (List.length rep) - 1) mod 2 ^ 64
  /\ CollapsedRangeDelMap.Size [] = 2 ^ 64 - 1.
Proof. split; reflexivity. Qed.

(** Without the wrap-around: a map of [n > 0] entries has size [n - 1]. *)
Lemma collapsed_size_nonempty (rep : CollapsedRangeDelMap.Rep) :
  rep <> [] -> Z.of_nat (List.length rep) <= 2 ^ 64 ->
  CollapsedRangeDelMap.Size rep = Z.of_nat (List.length rep) - 1.
Proof.
  intros Hne Hle. unfold CollapsedRangeDelMap.Size. apply Z.mod_small.
  destruct rep as [|e rep]; [congruence|].
  cbn [List.length] in *. lia.
Qed.

Lemma multiset_emplace_length {A} (less : A -> A -> bool) (s : list A) (x : A) :
  List.length (multiset_emplace less s x) = S (List.length s).
Proof.
  induction s as [|y s IH]; cbn; [reflexivity|].
  destruct (less x y); cbn; [reflexivity|]. now rewrite IH.
Qed.

(** Every add to an uncollapsed map makes it one larger, duplicates
    included. *)
Lemma uncollapsed_add_size ucmp rep t :
  UncollapsedRangeDelMap.Size (UncollapsedRangeDelMap.AddTombstone ucmp rep t)
  = UncollapsedRangeDelMap.Size rep + 1.
Proof.
  unfold UncollapsedRangeDelMap.Size, UncollapsedRangeDelMap.AddTombstone.
  rewrite multiset_emplace_length. lia.
Qed.

(** ** Ordered containers: positions and keys *)

Section PositionFacts.
Context {K V : Type}.
Variable less : K -> K -> bool.

Lemma unzip_rev (l1 b l2 : list (K * V)) :
  unzip (rev l1 ++ b, l2) = rev b ++ l1 ++ l2.
Proof.
  unfold unzip; cbn [fst snd].
  now rewrite rev_append_rev, rev_app_distr, rev_involutive, app_assoc.
Qed.

(** [upper_bound_from] moves a prefix [l1] of [after], whose keys are
    not above [k], in front of the position and stops at an entry
    whose key is above [k], or at [end()]. *)
Lemma upper_bound_from_split (after : list (K * V)) :
  forall before k,
  exists l1 l2,
    upper_bound_from less before after k = (rev l1 ++ before, l2)
    /\ after = l1 ++ l2
    /\ Forall (fun e => less k (fst e) = false) l1
    /\ match l2 with [] => True | e :: _ => less k (fst e) = true end.
Proof.
  induction after as [|e rest IH]; intros before k; cbn [upper_bound_from].
  - exists [], []. cbn. auto.
  - destruct (less k (fst e)) eqn:Hk.
    + exists [], (e :: rest). cbn. auto.
    + destruct (IH (e :: before) k) as (l1 & l2 & Heq & Happ & Hall & Hhd).
      exists (e :: l1), l2. rewrite Heq. cbn [rev]. rewrite <- app_assoc.
      cbn [app]. repeat split; auto. now rewrite Happ.
Qed.

Lemma upper_bound_split (m : list (K * V)) (k : K) :
  exists l1 l2,
    upper_bound less m k = (rev l1, l2)
    /\ m = l1 ++ l2
    /\ Forall (fun e => less k (fst e) = false) l1
    /\ match l2 with [] => True | e :: _ => less k (fst e) = true end.
Proof.
  destruct (upper_bound_from_split m [] k) as (l1 & l2 & Heq & H).
  exists l1, l2. unfold upper_bound. rewrite Heq, app_nil_r. auto.
Qed.


End PositionFacts.

(** Two orders that agree give the same container operations. *)
Section SameOrder.
Context {K V : Type}.
Variables less less' : K -> K -> bool.
Hypothesis same : forall a b, less a b = less' a b.

Lemma upper_bound_from_ext (after : list (K * V)) :
  forall before k,
    upper_bound_from less before after k = upper_bound_from less' before after k.
Proof.
  induction after as [|e after IH]; intros before k; cbn; [reflexivity|].
  rewrite same. destruct (less' k (fst e)); [reflexivity|apply IH].
Qed.

Lemma upper_bound_ext (m : list (K * V)) k :
  upper_bound less m k = upper_bound less' m k.
Proof. apply upper_bound_from_ext. Qed.

Lemma map_assign_ext (m : list (K * V)) k v :
  map_assign less m k v = map_assign less' m k v.
Proof.
  induction m as [|e m IH]; cbn; [reflexivity|].
  rewrite !same, IH. reflexivity.
Qed.

Lemma map_emplace_ext (m : list (K * V)) k v :
  map_emplace less m k v = map_emplace less' m k v.
Proof.
  induction m as [|e m IH]; cbn; [reflexivity|].
  rewrite !same, IH. reflexivity.
Qed.

Lemma find_from_ext (after : list (K * V)) :
  forall before k,
    find_from less before after k = find_from less' before after k.
Proof.
  induction after as [|e after IH]; intros before k; cbn; [reflexivity|].
  rewrite !same. destruct (less' k (fst e)); [reflexivity|].
  destruct (less' (fst e) k); [apply IH|reflexivity].
Qed.

Lemma map_find_ext (m : list (K * V)) k :
  map_find less m k = map_find less' m k.
Proof. apply find_from_ext. Qed.
End SameOrder.

(** ** Stripes *)

Section StripeKeys.
Context {V : Type}.



End StripeKeys.

Section StripeRouting.
Import RangeDelAggregator.
Variable kMaxSequenceNumber : SequenceNumber.
Variable IsValueType : ValueType -> bool.
Variable IsEmpty : RangeDelMap -> bool.
Variable user_comparator : Comparator.


(** The position returned by [GetRangeDelMap] is a position of
    [stripe_map_]. *)
Lemma GetRangeDelMap_position rep seq before stripe after :
  GetRangeDelMap rep seq = Some (before, stripe, after) ->
  stripe_map_ rep = rev before ++ stripe :: after.
Proof.
  unfold GetRangeDelMap. destruct (0 <? seq).
  - destruct (upper_bound_split Z.ltb (stripe_map_ rep) (seq - 1))
      as (l1 & l2 & Heq & Happ & _). rewrite Heq.
    destruct l2 as [|e l2]; [discriminate|].
    intros [= <- <- <-]. now rewrite rev_involutive.
  - destruct (stripe_map_ rep) as [|e l]; [discriminate|].
    now intros [= <- <- <-].
Qed.







Lemma set_stripe_keys rep before stripe after m :
  stripe_map_ rep = rev before ++ stripe :: after ->
  stripe_keys (set_stripe rep (before, stripe, after) m) = stripe_keys rep.
Proof.
  unfold stripe_keys. intros ->. cbn [set_stripe stripe_map_].
  unfold unzip; cbn [fst snd]. rewrite rev_append_rev, !map_app. reflexivity.
Qed.


Lemma route_keys rep t rep' :
  route user_comparator rep t = Some rep' -> stripe_keys rep' = stripe_keys rep.
Proof.
  unfold route.
  destruct (GetRangeDelMap rep (seq_ t)) as [[[b s] a]|] eqn:Hget;
    [|discriminate].
  intros [= <-]. apply set_stripe_keys.
  now apply GetRangeDelMap_position in Hget.
Qed.

End StripeRouting.


(** ** Ingestion *)

Section Ingestion.
Import RangeDelAggregator.
Variable kMaxSequenceNumber : SequenceNumber.
Variable ParseInternalKey : Slice -> option ParsedInternalKey.
Variable user_comparator : Comparator.

Local Abbreviation route := (route user_comparator).
Local Abbreviation route_all := (route_all user_comparator).
Local Abbreviation parse_all := (parse_all ParseInternalKey).
Local Abbreviation prepare := (prepare kMaxSequenceNumber).
Local Abbreviation AddTombstones_loop :=
  (AddTombstones_loop kMaxSequenceNumber ParseInternalKey user_comparator).
Local Abbreviation AddTombstones :=
  (AddTombstones kMaxSequenceNumber ParseInternalKey user_comparator).

Lemma route_succeeds rep t :
  (exists u, In u (stripe_keys rep) /\ seq_ t <= u) ->
  exists rep', route rep t = Some rep'.
Proof.
  intros (u & Hu & Hle). unfold RangeDelAggregator.route, GetRangeDelMap.
  unfold stripe_keys in Hu. destruct (0 <? seq_ t).
  - destruct (upper_bound_split Z.ltb (stripe_map_ rep) (seq_ t - 1))
      as (l1 & l2 & Heq & Happ & Hl1 & _). rewrite Heq.
    destruct l2 as [|e l2]; [|eauto].
    rewrite Happ, app_nil_r in Hu. apply in_map_iff in Hu.
    destruct Hu as (e & <- & He). rewrite Forall_forall in Hl1.
    specialize (Hl1 _ He). cbn in Hl1. apply Z.ltb_ge in Hl1. lia.
  - destruct (stripe_map_ rep) as [|e l]; [contradiction|eauto].
Qed.

Lemma route_pinned rep t rep' :
  route rep t = Some rep' -> pinned_iters_ rep' = pinned_iters_ rep.
Proof.
  unfold RangeDelAggregator.route.
  destruct (GetRangeDelMap rep (seq_ t)) as [[[b s] a]|]; [|discriminate].
  now intros [= <-].
Qed.

Lemma route_all_succeeds tombstones :
  forall rep top,
    In top (stripe_keys rep) ->
    Forall (fun t => seq_ t <= top) tombstones ->
    exists rep',
      route_all rep tombstones = Some rep'
      /\ stripe_keys rep' = stripe_keys rep
      /\ pinned_iters_ rep' = pinned_iters_ rep.
Proof.
  induction tombstones as [|t rest IH]; intros rep top Hin Hall; cbn.
  - eauto.
  - inversion Hall as [|? ? Ht Hrest]; subst.
    destruct (route_succeeds rep t) as [rep1 Hroute]; [eauto|].
    rewrite Hroute.
    pose proof (route_keys _ _ _ _ Hroute) as Hkeys.
    pose proof (route_pinned _ _ _ Hroute) as Hpin.
    destruct (IH rep1 top) as (rep' & Hall' & Hkeys' & Hpin'); auto.
    { now rewrite Hkeys. }
    exists rep'. repeat split; congruence.
Qed.

Lemma prepare_initialised agg : exists rep, rep_ (prepare agg) = Some rep.
Proof.
  unfold RangeDelAggregator.prepare, InvalidateRangeDelMapPositions.
  destruct (rep_ agg) eqn:Hrep; cbn; eauto.
Qed.

(** The first pass through the loop body prepares the aggregator and
    then behaves as every other pass. *)
Lemma loop_first input kv pending agg :
  AddTombstones_loop input (kv :: pending) true agg
  = AddTombstones_loop input (kv :: pending) false (prepare agg).
Proof. destruct kv. reflexivity. Qed.

Lemma with_rep_with_rep agg r1 r2 :
  with_rep (with_rep agg r1) r2 = with_rep agg r2.
Proof. reflexivity. Qed.

(** A source whose keys all parse: every tombstone is routed as parsed
    and the source is pinned. *)
Lemma loop_all_parsed input pending :
  forall agg rep tombstones,
    rep_ agg = Some rep ->
    parse_all pending = Some tombstones ->
    AddTombstones_loop input pending false agg
    = match route_all rep tombstones with
      | Some rep' => Some (OK, pin (with_rep agg rep') input)
      | None => None
      end.
Proof.
  induction pending as [|[key value] rest IH]; intros agg rep ts Hrep Hparse;
    cbn in Hparse |- *.
  - injection Hparse as <-. cbn. unfold pin, with_rep. rewrite Hrep.
    cbn. destruct agg, rep; cbn in *. now subst.
  - destruct (ParseInternalKey key) as [pk|]; [|discriminate].
    destruct (RangeDelAggregator.parse_all ParseInternalKey rest) as [ts'|];
      [|discriminate].
    injection Hparse as <-. rewrite Hrep. cbn.
    destruct (route rep (MakeRangeTombstone pk value)) as [rep1|];
      [|reflexivity].
    erewrite IH by reflexivity. reflexivity.
Qed.

(** A source with a key that does not parse: the tombstones in front of
    it are routed, the rest is not read, nothing is pinned. *)
Lemma loop_corrupt input pre :
  forall agg rep tombstones bad rest,
    rep_ agg = Some rep ->
    parse_all pre = Some tombstones ->
    ParseInternalKey (fst bad) = None ->
    AddTombstones_loop input (pre ++ bad :: rest) false agg
    = match route_all rep tombstones with
      | Some rep' =>
          Some (Corruption "Unable to parse range tombstone InternalKey",
                with_rep agg rep')
      | None => None
      end.
Proof.
  induction pre as [|[key value] pre IH];
    intros agg rep ts [bkey bvalue] rest Hrep Hparse Hbad;
    cbn in Hparse, Hbad |- *.
  - injection Hparse as <-. rewrite Hbad. cbn.
    unfold with_rep. destruct agg; cbn in *. now subst.
  - destruct (ParseInternalKey key) as [pk|]; [|discriminate].
    destruct (RangeDelAggregator.parse_all ParseInternalKey pre) as [ts'|];
      [|discriminate].
    injection Hparse as <-. rewrite Hrep. cbn.
    destruct (route rep (MakeRangeTombstone pk value)) as [rep1|];
      [|reflexivity].
    erewrite IH by (reflexivity || exact Hbad). reflexivity.
Qed.

Lemma parse_all_fields entries :
  forall tombstones,
    parse_all entries = Some tombstones ->
    Forall2
      (fun kv t =>
         exists parsed_key,
           ParseInternalKey (fst kv) = Some parsed_key
           /\ start_key_ t = user_key parsed_key
           /\ end_key_ t = snd kv
           /\ seq_ t = sequence parsed_key)
      entries tombstones.
Proof.
  induction entries as [|[key value] rest IH]; intros ts Hparse;
    cbn in Hparse.
  - injection Hparse as <-. constructor.
  - destruct (ParseInternalKey key) as [pk|] eqn:Hpk; [|discriminate].
    destruct (RangeDelAggregator.parse_all ParseInternalKey rest) as [ts'|];
      [|discriminate].
    injection Hparse as <-. constructor; [|auto].
    exists pk. cbn. auto.
Qed.

(** C10: when the key of [bad] does not parse and the keys in front of
    it do, [AddTombstones] returns [Corruption] without reading what
    follows [bad], and the state it leaves is the prepared aggregator
    with every tombstone in front of [bad] routed to its stripe: the
    call does not restore the state it started from. *)
Theorem corruption_keeps_ingested agg pre bad rest tombstones rep0 :
  parse_all pre = Some tombstones ->
  ParseInternalKey (fst bad) = None ->
  rep_ (prepare agg) = Some rep0 ->
  In kMaxSequenceNumber (stripe_keys rep0) ->
  Forall (fun t => seq_ t <= kMaxSequenceNumber) tombstones ->
  exists rep',
    route_all rep0 tombstones = Some rep'
    /\ AddTombstones agg (Some (pre ++ bad :: rest))
       = Some (Corruption "Unable to parse range tombstone InternalKey",
               with_rep agg rep')
    /\ stripe_keys rep' = stripe_keys rep0
    /\ pinned_iters_ rep' = pinned_iters_ rep0.
Proof.
  intros Hparse Hbad Hrep Htop Hseq.
  destruct (route_all_succeeds tombstones rep0 _ Htop Hseq)
    as (rep' & Hroute & Hkeys & Hpin).
  exists rep'. split; [exact Hroute|]. split; [|auto].
  unfold RangeDelAggregator.AddTombstones.
  assert (Hloop :
    AddTombstones_loop (pre ++ bad :: rest) (pre ++ bad :: rest) true agg
    = AddTombstones_loop (pre ++ bad :: rest) (pre ++ bad :: rest) false
        (prepare agg)).
  { destruct pre; apply loop_first. }
  rewrite Hloop.
  rewrite (loop_corrupt _ pre (prepare agg) rep0 tombstones bad rest
             Hrep Hparse Hbad), Hroute.
  unfold with_rep, RangeDelAggregator.prepare, InvalidateRangeDelMapPositions.
  destruct (rep_ agg); reflexivity.
Qed.

(** What [AddTombstones] stores: it takes the source iterator and no
    file boundaries.  When every key parses, each tombstone is routed
    to its stripe with the start key, end key and sequence number it
    was parsed with; none is clipped and none is dropped. *)
Theorem tombstones_added_as_parsed agg input tombstones rep0 :
  input <> [] ->
  parse_all input = Some tombstones ->
  rep_ (prepare agg) = Some rep0 ->
  In kMaxSequenceNumber (stripe_keys rep0) ->
  Forall (fun t => seq_ t <= kMaxSequenceNumber) tombstones ->
  Forall2
    (fun kv t =>
       exists parsed_key,
         ParseInternalKey (fst kv) = Some parsed_key
         /\ start_key_ t = user_key parsed_key
         /\ end_key_ t = snd kv
         /\ seq_ t = sequence parsed_key)
    input tombstones
  /\ exists rep',
       route_all rep0 tombstones = Some rep'
       /\ AddTombstones agg (Some input)
          = Some (OK, pin (with_rep agg rep') input).
Proof.
  intros Hne Hparse Hrep Htop Hseq.
  split; [now apply parse_all_fields|].
  destruct (route_all_succeeds tombstones rep0 _ Htop Hseq)
    as (rep' & Hroute & _).
  exists rep'. split; [exact Hroute|].
  unfold RangeDelAggregator.AddTombstones.
  destruct input as [|kv input]; [congruence|].
  rewrite loop_first.
  rewrite (loop_all_parsed _ _ (prepare agg) rep0 tombstones Hrep Hparse),
    Hroute.
  unfold with_rep, pin, RangeDelAggregator.prepare,
    InvalidateRangeDelMapPositions.
  destruct (rep_ agg); reflexivity.
Qed.
End Ingestion.

(** ** The stripes of a running aggregator *)

Section StripesStay.
Import RangeDelAggregator.
Variable kMaxSequenceNumber : SequenceNumber.
Variable ParseInternalKey : Slice -> option ParsedInternalKey.
Variable IsValueType : ValueType -> bool.
Variable IsEmpty : RangeDelMap -> bool.
Variable user_comparator : Comparator.

Lemma Invalidate_keys agg :
  keys_of (InvalidateRangeDelMapPositions agg) = keys_of agg.
Proof.
  unfold keys_of, InvalidateRangeDelMapPositions.
  destruct (rep_ agg) as [rep|] eqn:Hrep; cbn; [|now rewrite Hrep].
  unfold stripe_keys. cbn. rewrite map_map. cbn. reflexivity.
Qed.

Lemma pin_keys agg input : keys_of (pin agg input) = keys_of agg.
Proof.
  unfold keys_of, pin. destruct (rep_ agg) as [rep|] eqn:Hrep; cbn;
    [reflexivity|now rewrite Hrep].
Qed.

(** The first pass creates the stripes of a single-snapshot aggregator
    and keeps those of any other. *)
Lemma prepare_keys agg :
  keys_of (prepare kMaxSequenceNumber agg)
  = Some match rep_ agg with
         | Some rep => stripe_keys rep
         | None =>
             stripe_keys
               (InitRep kMaxSequenceNumber (collapse_deletions_ agg)
                  [upper_bound_ agg])
         end.
Proof.
  unfold prepare. destruct (rep_ agg) as [rep|] eqn:Hrep.
  - rewrite Invalidate_keys. unfold keys_of. now rewrite Hrep.
  - reflexivity.
Qed.

Lemma loop_keys input pending :
  forall agg status agg',
    AddTombstones_loop kMaxSequenceNumber ParseInternalKey user_comparator
      input pending false agg = Some (status, agg') ->
    keys_of agg' = keys_of agg.
Proof.
  induction pending as [|[key value] rest IH]; intros agg status agg'; cbn.
  - intros [= _ <-]. apply pin_keys.
  - destruct (ParseInternalKey key) as [pk|]; [|now intros [= _ <-]].
    destruct (rep_ agg) as [rep|] eqn:Hrep; [|discriminate].
    destruct (route user_comparator rep (MakeRangeTombstone pk value))
      as [rep1|] eqn:Hroute; [|discriminate].
    intros Hloop. rewrite (IH _ _ _ Hloop). unfold keys_of. cbn.
    now rewrite Hrep, (route_keys _ _ _ _ Hroute).
Qed.

(** [AddTombstones] never changes the set of stripes: it only creates
    them, on its first pass, in an aggregator that has none yet. *)
Lemma AddTombstones_keys agg input status agg' :
  AddTombstones kMaxSequenceNumber ParseInternalKey user_comparator agg input
  = Some (status, agg') ->
  keys_of agg' = keys_of agg
  \/ keys_of agg' = keys_of (prepare kMaxSequenceNumber agg).
Proof.
  unfold AddTombstones. destruct input as [[|kv pending]|].
  - cbn. intros [= _ <-]. now left.
  - rewrite loop_first. intros Hloop. right. now apply loop_keys in Hloop.
  - intros [= _ <-]. now left.
Qed.

(** A lookup moves cursors and leaves the stripes in place. *)
Lemma ShouldDeleteImpl_keys agg parsed mode b agg' :
  ShouldDeleteImpl IsValueType IsEmpty user_comparator agg parsed mode
  = Some (b, agg') ->
  keys_of agg' = keys_of agg.
Proof.
  unfold ShouldDeleteImpl.
  destruct (negb (IsValueType (type parsed))); [discriminate|].
  destruct (rep_ agg) as [rep|] eqn:Hrep; [|discriminate].
  destruct (GetRangeDelMap rep (sequence parsed)) as [[[before stripe] after]|]
    eqn:Hget; [|discriminate].
  destruct (IsEmpty (snd stripe)); [now intros [= _ <-]|].
  destruct (Map_ShouldDelete user_comparator (snd stripe) parsed mode)
    as [[b' m']|]; [|discriminate].
  intros [= _ <-]. unfold keys_of. cbn. rewrite Hrep. cbn. f_equal.
  apply set_stripe_keys. now apply GetRangeDelMap_position in Hget.
Qed.
End StripesStay.

Section IngestionScenarios.
Import RangeDelAggregator.
Local Open Scope string_scope.

Lemma corruption_keeps_ingested_witness :
  let agg := New max_seq_56 [] false in
  exists rep',
    AddTombstones max_seq_56 example_parse BytewiseComparator agg
      (Some [(ikey "a" 10, "c"); ("", "x"); (ikey "d" 5, "e")])
    = Some (Corruption "Unable to parse range tombstone InternalKey",
            with_rep agg rep')
    /\ stripe_map_ rep' = [(max_seq_56, Uncollapsed [tomb "a" "c" 10])].
Proof.
  intros agg.
  destruct (corruption_keeps_ingested max_seq_56 example_parse
              BytewiseComparator agg [(ikey "a" 10, "c")] ("", "x")
              [(ikey "d" 5, "e")] [tomb "a" "c" 10]
              (InitRep max_seq_56 false []))
    as (rep' & Hroute & Hadd & _).
  - reflexivity.
  - reflexivity.
  - reflexivity.
  - left. reflexivity.
  - repeat constructor. discriminate.
  - exists rep'. split; [exact Hadd|].
    vm_compute in Hroute. injection Hroute as <-. reflexivity.
Defined.

Lemma tombstones_added_as_parsed_witness :
  let agg := NewForSnapshot 20 true in
  exists rep',
    AddTombstones max_seq_56 example_parse BytewiseComparator agg
      (Some [(ikey "a" 10, "c"); (ikey "b" 30, "d")])
    = Some (OK, pin (with_rep agg rep')
                  [(ikey "a" 10, "c"); (ikey "b" 30, "d")])
    /\ stripe_map_ rep'
       = [(20, Collapsed (fresh [("a", 10); ("c", 0)]));
          (max_seq_56, Collapsed (fresh [("b", 30); ("d", 0)]))].
Proof.
  intros agg.
  destruct (tombstones_added_as_parsed max_seq_56 example_parse
              BytewiseComparator agg
              [(ikey "a" 10, "c"); (ikey "b" 30, "d")]
              [tomb "a" "c" 10; tomb "b" "d" 30]
              (InitRep max_seq_56 true [20]))
    as (_ & rep' & Hroute & Hadd).
  - discriminate.
  - reflexivity.
  - reflexivity.
  - right. left. reflexivity.
  - repeat constructor; discriminate.
  - exists rep'. split; [exact Hadd|].
    vm_compute in Hroute. injection Hroute as <-. reflexivity.
Defined.


(** Stripes of the test MergingIteratorOverlappingStripes. *)
Example stripes_of_snapshots :
  stripe_keys (InitRep max_seq_56 true [5; 15; 25; 35])
  = [5; 15; 25; 35; max_seq_56]
  /\ option_map (fun p => fst (snd (fst p)))
       (GetRangeDelMap (InitRep max_seq_56 true [5; 15; 25; 35]) 10) = Some 15
  /\ option_map (fun p => fst (snd (fst p)))
       (GetRangeDelMap (InitRep max_seq_56 true [5; 15; 25; 35]) 15) = Some 15
  /\ option_map (fun p => fst (snd (fst p)))
       (GetRangeDelMap (InitRep max_seq_56 true [5; 15; 25; 35]) 0) = Some 5
  /\ option_map (fun p => fst (snd (fst p)))
       (GetRangeDelMap (InitRep max_seq_56 true [5; 15; 25; 35]) 36)
     = Some max_seq_56.
Proof. repeat split; reflexivity. Qed.
End IngestionScenarios.

(** ** The iterator of the collapsed map *)

Section IteratorFacts.
Import CollapsedRangeDelMap.

Lemma SeekPastSentinels_length (it : list Entry) :
  (List.length (SeekPastSentinels it) <= List.length it)%nat.
Proof.
  induction it as [|e it IH]; cbn; [lia|].
  destruct it as [|e' it]; [cbn; lia|].
  destruct (snd e =? 0); [|cbn; lia].
  cbn [List.length] in *. lia.
Qed.

Lemma Next_length (it : list Entry) :
  it <> [] -> (List.length (Next it) < List.length it)%nat.
Proof.
  intros Hne. destruct it as [|e it]; [congruence|].
  unfold Next. cbn [tl List.length].
  pose proof (SeekPastSentinels_length it). lia.
Qed.

(** Draining the iterator ends: as many steps as the map has entries
    reach an invalid iterator. *)
Lemma drain_ends (fuel : nat) :
  forall it : list Entry,
    (List.length it <= fuel)%nat -> exists out, drain fuel it = Some out.
Proof.
  induction fuel as [|fuel IH]; intros it Hlen.
  - destruct it; [|cbn in Hlen; lia]. exists []. reflexivity.
  - cbn [drain]. destruct (Tombstone it) as [ts|] eqn:Hts; [|eauto].
    assert (Hne : it <> []) by (intros ->; discriminate).
    destruct (IH (Next it)) as [out Hout].
    { pose proof (Next_length it Hne). lia. }
    rewrite Hout. eauto.
Qed.

Lemma Tombstones_total (rep : Rep) : exists out, Tombstones rep = Some out.
Proof. apply drain_ends. unfold NewIterator. lia. Qed.
End IteratorFacts.

(** ** The bytewise comparator is a total order *)

Lemma ascii_compare_Lt_trans a b c :
  Ascii.compare a b = Lt -> Ascii.compare b c = Lt -> Ascii.compare a c = Lt.
Proof.
  unfold Ascii.compare. rewrite !N.compare_lt_iff. lia.
Qed.

Lemma string_compare_refl a : String.compare a a = Eq.
Proof.
  pose proof (String.compare_antisym a a) as H.
  destruct (String.compare a a); cbn in H; congruence.
Qed.

Lemma string_compare_Lt_trans a :
  forall b c,
    String.compare a b = Lt -> String.compare b c = Lt -> String.compare a c = Lt.
Proof.
  induction a as [|x a IH]; intros [|y b] [|z c]; cbn; try congruence.
  destruct (Ascii.compare x y) eqn:Hxy; try congruence;
    destruct (Ascii.compare y z) eqn:Hyz; try congruence.
  - apply Ascii.compare_eq_iff in Hxy, Hyz. subst.
    assert (Ascii.compare z z = Eq) as ->.
    { unfold Ascii.compare. apply N.compare_refl. }
    apply IH.
  - apply Ascii.compare_eq_iff in Hxy. subst. now rewrite Hyz.
  - apply Ascii.compare_eq_iff in Hyz. subst. now rewrite Hxy.
  - now rewrite (ascii_compare_Lt_trans _ _ _ Hxy Hyz).
Qed.

Lemma BytewiseComparator_laws : ComparatorLaws BytewiseComparator.
Proof.
  constructor; cbn.
  - intros a. now rewrite string_compare_refl.
  - intros a b. rewrite (String.compare_antisym b a).
    destruct (String.compare a b); cbn; lia.
  - intros a b d.
    destruct (String.compare a b) eqn:Hab; try lia;
      destruct (String.compare b d) eqn:Hbd; try lia; intros _ _.
    + apply String.compare_eq_iff in Hab, Hbd. subst.
      now rewrite string_compare_refl.
    + apply String.compare_eq_iff in Hab. subst. now rewrite Hbd.
    + apply String.compare_eq_iff in Hbd. subst. now rewrite Hab.
    + now rewrite (string_compare_Lt_trans _ _ _ Hab Hbd).
Qed.

(** ** The collapsed map *)

Section CollapsedMapFacts.
Import CollapsedRangeDelMap.
Variable ucmp : Comparator.
Hypothesis laws : ComparatorLaws ucmp.
(** What follows about [AddTombstone] and the binary search is for a
    user comparator that orders the keys as the map does. *)
Hypothesis order : orders_as_rep ucmp.

Local Abbreviation cmp := (Compare ucmp).
Local Abbreviation less := (LessOfComparator ucmp).

Lemma upper_bound_order (M : Rep) k :
  upper_bound rep_less M k = upper_bound less M k.
Proof. apply upper_bound_ext. intros a b. symmetry. apply order. Qed.

Lemma map_assign_order (M : Rep) k v :
  map_assign rep_less M k v = map_assign less M k v.
Proof. apply map_assign_ext. intros a b. symmetry. apply order. Qed.

Lemma map_emplace_order (M : Rep) k v :
  map_emplace rep_less M k v = map_emplace less M k v.
Proof. apply map_emplace_ext. intros a b. symmetry. apply order. Qed.

Lemma map_find_order (M : Rep) k :
  map_find rep_less M k = map_find less M k.
Proof. apply map_find_ext. intros a b. symmetry. apply order. Qed.

Lemma cmp_refl a : cmp a a = 0.
Proof. apply laws. Qed.

Lemma cmp_flip a b : cmp a b < 0 <-> 0 < cmp b a.
Proof. apply laws. Qed.

Lemma cmp_ge_flip a b : 0 <= cmp a b <-> cmp b a <= 0.
Proof.
  pose proof (cmp_flip a b). pose proof (cmp_flip b a). lia.
Qed.

Lemma cmp_le_trans a b d : cmp a b <= 0 -> cmp b d <= 0 -> cmp a d <= 0.
Proof. apply laws. Qed.

Lemma cmp_le_lt_trans a b d : cmp a b <= 0 -> cmp b d < 0 -> cmp a d < 0.
Proof.
  intros Hab Hbd. destruct (Z_lt_ge_dec (cmp a d) 0) as [|Hge]; [assumption|].
  assert (cmp d a <= 0) as Hda by (apply cmp_ge_flip; lia).
  pose proof (cmp_le_trans _ _ _ Hda Hab) as Hdb.
  apply cmp_flip in Hbd. lia.
Qed.

Lemma cmp_lt_le_trans a b d : cmp a b < 0 -> cmp b d <= 0 -> cmp a d < 0.
Proof.
  intros Hab Hbd. destruct (Z_lt_ge_dec (cmp a d) 0) as [|Hge]; [assumption|].
  assert (cmp d a <= 0) as Hda by (apply cmp_ge_flip; lia).
  pose proof (cmp_le_trans _ _ _ Hbd Hda) as Hba.
  apply cmp_flip in Hab. lia.
Qed.

Lemma cmp_lt_trans a b d : cmp a b < 0 -> cmp b d < 0 -> cmp a d < 0.
Proof. intros Hab Hbd. apply (cmp_le_lt_trans a b d); lia. Qed.

Lemma less_false a b : less a b = false <-> cmp b a <= 0.
Proof.
  unfold LessOfComparator. rewrite Z.ltb_ge. apply cmp_ge_flip.
Qed.

Lemma less_true a b : less a b = true <-> cmp a b < 0.
Proof. unfold LessOfComparator. apply Z.ltb_lt. Qed.


(** *** Sorted maps *)

Lemma sorted_app_inv (L1 L2 : Rep) :
  sorted ucmp (L1 ++ L2) ->
  sorted ucmp L1 /\ sorted ucmp L2
  /\ forall a b, In a L1 -> In b L2 -> cmp (fst a) (fst b) < 0.
Proof.
  unfold sorted. induction L1 as [|e L1 IH]; cbn; intros Hs.
  - repeat split; [constructor|assumption|contradiction].
  - inversion Hs as [|? ? Hrest Hall]; subst.
    destruct (IH Hrest) as (H1 & H2 & H12).
    rewrite Forall_app in Hall. destruct Hall as [Hall1 Hall2].
    repeat split; [constructor; assumption|assumption|].
    intros a b [<-|Ha] Hb; [|auto].
    rewrite Forall_forall in Hall2. auto.
Qed.

Lemma sorted_app (L1 L2 : Rep) :
  sorted ucmp L1 -> sorted ucmp L2 ->
  (forall a b, In a L1 -> In b L2 -> cmp (fst a) (fst b) < 0) ->
  sorted ucmp (L1 ++ L2).
Proof.
  unfold sorted. induction L1 as [|e L1 IH]; cbn; intros H1 H2 H12; [assumption|].
  inversion H1 as [|? ? Hrest Hall]; subst. constructor.
  - apply IH; auto.
  - rewrite Forall_app. split; [assumption|].
    apply Forall_forall. intros b Hb. apply H12; auto.
Qed.

Lemma sorted_cons_inv e (L : Rep) :
  sorted ucmp (e :: L) ->
  sorted ucmp L /\ Forall (fun b => cmp (fst e) (fst b) < 0) L.
Proof. intros H. inversion H; auto. Qed.

(** *** Positions in sorted maps *)

Lemma upper_bound_from_app (L1 : Rep) :
  forall before L2 k,
    Forall (fun e => cmp (fst e) k <= 0) L1 ->
    Forall (fun e => cmp k (fst e) < 0) L2 ->
    upper_bound_from less before (L1 ++ L2) k = (rev L1 ++ before, L2).
Proof.
  induction L1 as [|e L1 IH]; intros before L2 k H1 H2; cbn.
  - destruct L2 as [|e L2]; cbn; [reflexivity|].
    inversion H2; subst.
    assert (less k (fst e) = true) as -> by now apply less_true.
    reflexivity.
  - inversion H1; subst.
    assert (less k (fst e) = false) as -> by now apply less_false.
    rewrite IH by assumption. now rewrite <- app_assoc.
Qed.

Lemma upper_bound_app (L1 L2 : Rep) k :
  Forall (fun e => cmp (fst e) k <= 0) L1 ->
  Forall (fun e => cmp k (fst e) < 0) L2 ->
  upper_bound less (L1 ++ L2) k = (rev L1, L2).
Proof.
  intros H1 H2. unfold upper_bound.
  rewrite upper_bound_from_app by assumption. now rewrite app_nil_r.
Qed.

Lemma upper_bound_sorted (M : Rep) k :
  sorted ucmp M ->
  exists L1 L2,
    M = L1 ++ L2
    /\ Forall (fun e => cmp (fst e) k <= 0) L1
    /\ Forall (fun e => cmp k (fst e) < 0) L2.
Proof.
  intros Hs.
  destruct (upper_bound_split less M k) as (L1 & L2 & _ & Happ & H1 & H2).
  exists L1, L2. split; [assumption|]. split.
  - eapply Forall_impl; [|exact H1]. cbn. intros e He. now apply less_false.
  - subst M. apply sorted_app_inv in Hs. destruct Hs as (_ & Hs2 & _).
    destruct L2 as [|e L2]; [constructor|].
    apply less_true in H2. constructor; [assumption|].
    apply sorted_cons_inv in Hs2. destruct Hs2 as [_ Hall].
    eapply Forall_impl; [|exact Hall]. cbn. intros b Hb.
    now apply (cmp_lt_trans _ (fst e)).
Qed.

Lemma below_from (k : Slice) (L : Rep) : L = below ucmp k L ++ from ucmp k L.
Proof.
  induction L as [|e L IH]; cbn; [reflexivity|].
  destruct (cmp (fst e) k <? 0); cbn; [now rewrite <- IH|reflexivity].
Qed.

Lemma below_lt (k : Slice) (L : Rep) :
  Forall (fun e => cmp (fst e) k < 0) (below ucmp k L).
Proof.
  induction L as [|e L IH]; cbn; [constructor|].
  destruct (Z.ltb_spec (cmp (fst e) k) 0); constructor; assumption.
Qed.

Lemma from_ge (k : Slice) (L : Rep) :
  sorted ucmp L -> Forall (fun e => cmp k (fst e) <= 0) (from ucmp k L).
Proof.
  induction L as [|e L IH]; cbn; intros Hs; [constructor|].
  apply sorted_cons_inv in Hs. destruct Hs as [Hs Hall].
  destruct (Z.ltb_spec (cmp (fst e) k) 0) as [|Hge]; [auto|].
  assert (cmp k (fst e) <= 0) as Hke by (apply cmp_ge_flip; lia).
  constructor; [assumption|].
  eapply Forall_impl; [|exact Hall]. cbn. intros b Hb.
  apply (cmp_le_trans _ (fst e)); lia.
Qed.

Lemma prev_seq_rev (L before : Rep) :
  prev_seq (rev L ++ before) = last_seq (prev_seq before) L.
Proof.
  unfold last_seq, pick. revert before.
  induction L as [|e L IH]; intros before; cbn; [reflexivity|].
  rewrite <- app_assoc. cbn. now rewrite IH.
Qed.

(** *** The three steps of [AddTombstone] on sorted maps *)

Lemma map_assign_app (L1 L2 : Rep) k v :
  Forall (fun e => cmp (fst e) k <= 0) L1 ->
  Forall (fun e => cmp k (fst e) < 0) L2 ->
  map_assign less (L1 ++ L2) k v = assign_le ucmp L1 k v ++ L2.
Proof.
  induction L1 as [|e L1 IH]; intros H1 H2; cbn.
  - destruct L2 as [|e L2]; cbn; [reflexivity|].
    inversion H2; subst.
    assert (less k (fst e) = true) as -> by now apply less_true.
    reflexivity.
  - inversion H1; subst.
    assert (less k (fst e) = false) as -> by now apply less_false.
    unfold LessOfComparator at 1.
    destruct (cmp (fst e) k <? 0); cbn; [|reflexivity].
    now rewrite IH.
Qed.

Lemma map_emplace_app (L B : Rep) k v :
  Forall (fun e => cmp (fst e) k < 0) L ->
  Forall (fun e => cmp k (fst e) <= 0) B ->
  map_emplace less (L ++ B) k v = L ++ emplace_front ucmp B k v.
Proof.
  induction L as [|e L IH]; intros H1 H2; cbn.
  - destruct B as [|e B]; cbn; [reflexivity|].
    inversion H2; subst. unfold LessOfComparator at 1.
    destruct (cmp k (fst e) <? 0); [reflexivity|].
    assert (less (fst e) k = false) as -> by now apply less_false.
    reflexivity.
  - inversion H1; subst.
    assert (less k (fst e) = false) as ->.
    { apply less_false. lia. }
    assert (less (fst e) k = true) as -> by now apply less_true.
    now rewrite IH.
Qed.

Lemma walk_shape (t : RangeTombstone) (after : Rep) :
  forall before end_seq,
    walk ucmp t before after end_seq
    = (rev (run_entries t (prev_seq before) (below ucmp (end_key_ t) after))
         ++ before,
       from ucmp (end_key_ t) after,
       run_end_seq t end_seq (below ucmp (end_key_ t) after)).
Proof.
  induction after as [|e rest IH]; intros before end_seq; cbn; [reflexivity|].
  destruct (cmp (fst e) (end_key_ t) <? 0); cbn; [|reflexivity].
  destruct (snd e <? seq_ t); cbn.
  - destruct (seq_ t =? prev_seq before); cbn.
    + apply IH.
    + rewrite IH. cbn. now rewrite <- app_assoc.
  - rewrite IH. cbn. now rewrite <- app_assoc.
Qed.


Lemma assign_le_le (L : Rep) k v :
  Forall (fun e => cmp (fst e) k <= 0) L ->
  Forall (fun e => cmp (fst e) k <= 0) (assign_le ucmp L k v).
Proof.
  induction L as [|e L IH]; cbn; intros H.
  - constructor; [|constructor]. cbn. rewrite cmp_refl. lia.
  - inversion H; subst. destruct (cmp (fst e) k <? 0); constructor; auto.
Qed.

(** The result of [AddTombstone] on a sorted map, part by part:
    the entries up to the start key, the entries the loop leaves in
    front of the end key, and the rest, with the end key emplaced when
    the tombstone is still open. *)
Lemma AddTombstone_shape (M L1 L2 : Rep) (t : RangeTombstone) :
  M = L1 ++ L2 ->
  Forall (fun e => cmp (fst e) (start_key_ t) <= 0) L1 ->
  Forall (fun e => cmp (start_key_ t) (fst e) < 0) L2 ->
  let q0 := last_seq 0 L1 in
  let L1' := if q0 <? seq_ t then assign_le ucmp L1 (start_key_ t) (seq_ t) else L1 in
  let es0 := if q0 <? seq_ t then q0 else 0 in
  let A := below ucmp (end_key_ t) L2 in
  let B := from ucmp (end_key_ t) L2 in
  let W := run_entries t (last_seq 0 L1') A in
  AddTombstone ucmp M t
  = if seq_ t =? last_seq (last_seq 0 L1') W
    then map_emplace less (L1' ++ W ++ B) (end_key_ t) (run_end_seq t es0 A)
    else L1' ++ W ++ B.
Proof.
  intros -> H1 H2 q0 L1' es0 A B W. unfold AddTombstone.
  rewrite upper_bound_order, (upper_bound_app L1 L2) by assumption.
  cbn [fst snd].
  assert (Hq0 : prev_seq (rev L1) = q0).
  { rewrite <- (app_nil_r (rev L1)). apply prev_seq_rev. }
  rewrite Hq0.
  assert (H1' : Forall (fun e => cmp (fst e) (start_key_ t) <= 0) L1').
  { unfold L1'. destruct (q0 <? seq_ t); [|assumption].
    now apply assign_le_le. }
  assert (Hp : prev_seq (rev L1') = last_seq 0 L1').
  { rewrite <- (app_nil_r (rev L1')). apply prev_seq_rev. }
  assert (Htail : forall es,
    (let it := upper_bound rep_less (L1' ++ L2) (start_key_ t) in
     let '(before, after, end_seq) := walk ucmp t (fst it) (snd it) es in
     let rep2 := unzip (before, after) in
     if seq_ t =? prev_seq before
     then map_emplace rep_less rep2 (end_key_ t) end_seq
     else rep2)
    = if seq_ t =? last_seq (last_seq 0 L1') W
      then map_emplace less (L1' ++ W ++ B) (end_key_ t) (run_end_seq t es A)
      else L1' ++ W ++ B).
  { intros es. cbn zeta.
    rewrite upper_bound_order, (upper_bound_app L1' L2) by assumption.
    cbn [fst snd].
    rewrite walk_shape. cbv beta iota zeta.
    rewrite map_emplace_order, prev_seq_rev, Hp. fold A B W.
    unfold unzip; cbn [fst snd].
    rewrite rev_append_rev, rev_app_distr, !rev_involutive, <- app_assoc.
    reflexivity. }
  unfold L1', es0 in *. destruct (q0 <? seq_ t).
  - rewrite map_assign_order, map_assign_app by assumption. apply Htail.
  - apply Htail.
Qed.


(** *** Keys and values of the parts *)

Lemma assign_le_keys (P : Slice -> Prop) (L : Rep) k v :
  Forall (fun e => P (fst e)) L -> P k ->
  Forall (fun e => P (fst e)) (assign_le ucmp L k v).
Proof.
  induction L as [|e L IH]; cbn; intros H Hk.
  - repeat constructor. assumption.
  - inversion H; subst. destruct (cmp (fst e) k <? 0); constructor; auto.
Qed.

Lemma assign_le_values (P : SequenceNumber -> Prop) (L : Rep) k v :
  Forall (fun e => P (snd e)) L -> P v ->
  Forall (fun e => P (snd e)) (assign_le ucmp L k v).
Proof.
  induction L as [|e L IH]; cbn; intros H Hv.
  - repeat constructor. assumption.
  - inversion H; subst. destruct (cmp (fst e) k <? 0); constructor; auto.
Qed.

Lemma assign_le_sorted (L : Rep) k v :
  sorted ucmp L -> Forall (fun e => cmp (fst e) k <= 0) L ->
  sorted ucmp (assign_le ucmp L k v).
Proof.
  induction L as [|e L IH]; cbn; intros Hs Hle.
  - repeat constructor.
  - apply sorted_cons_inv in Hs. destruct Hs as [Hs Hall].
    inversion Hle; subst.
    destruct (Z.ltb_spec (cmp (fst e) k) 0).
    + constructor; [now apply IH|].
      apply (assign_le_keys (fun x => cmp (fst e) x < 0)); assumption.
    + constructor; assumption.
Qed.

Lemma run_entries_keys (P : Slice -> Prop) t (A : Rep) :
  forall p,
    Forall (fun e => P (fst e)) A ->
    Forall (fun e => P (fst e)) (run_entries t p A).
Proof.
  induction A as [|e A IH]; cbn; intros p H; [constructor|].
  inversion H; subst.
  destruct (snd e <? seq_ t); [destruct (seq_ t =? p)|];
    try constructor; auto.
Qed.

Lemma run_entries_values (P : SequenceNumber -> Prop) t (A : Rep) :
  forall p,
    Forall (fun e => P (snd e)) A -> P (seq_ t) ->
    Forall (fun e => P (snd e)) (run_entries t p A).
Proof.
  induction A as [|e A IH]; cbn; intros p H Hs; [constructor|].
  inversion H; subst.
  destruct (snd e <? seq_ t); [destruct (seq_ t =? p)|];
    try constructor; auto.
Qed.

Lemma run_entries_sorted t (A : Rep) :
  forall p, sorted ucmp A -> sorted ucmp (run_entries t p A).
Proof.
  induction A as [|e A IH]; cbn; intros p Hs; [constructor|].
  apply sorted_cons_inv in Hs. destruct Hs as [Hs Hall].
  destruct (snd e <? seq_ t); [destruct (seq_ t =? p)|];
    try (constructor; [now apply IH|]);
    try (apply (run_entries_keys (fun x => cmp (fst e) x < 0)); assumption).
  now apply IH.
Qed.

Lemma run_entries_ge t (A : Rep) :
  forall p, Forall (fun e => seq_ t <= snd e) (run_entries t p A).
Proof.
  induction A as [|e A IH]; cbn; intros p; [constructor|].
  destruct (Z.ltb_spec (snd e) (seq_ t)); [destruct (seq_ t =? p)|];
    try constructor; cbn; auto; lia.
Qed.

Lemma run_entries_fixed t (W : Rep) :
  forall p, Forall (fun e => seq_ t <= snd e) W -> run_entries t p W = W.
Proof.
  induction W as [|e W IH]; cbn; intros p H; [reflexivity|].
  inversion H; subst.
  destruct (Z.ltb_spec (snd e) (seq_ t)); [lia|]. now rewrite IH.
Qed.

Lemma run_end_seq_fixed t (W : Rep) :
  forall es, Forall (fun e => seq_ t <= snd e) W -> run_end_seq t es W = es.
Proof.
  induction W as [|e W IH]; cbn; intros es H; [reflexivity|].
  inversion H; subst.
  destruct (Z.ltb_spec (snd e) (seq_ t)); [lia|]. now apply IH.
Qed.

Lemma run_end_seq_values (P : SequenceNumber -> Prop) t (A : Rep) :
  forall es, Forall (fun e => P (snd e)) A -> P es -> P (run_end_seq t es A).
Proof.
  induction A as [|e A IH]; cbn; intros es H Hes; [assumption|].
  inversion H; subst. apply IH; [assumption|].
  now destruct (snd e <? seq_ t).
Qed.

Lemma below_sorted k (L : Rep) : sorted ucmp L -> sorted ucmp (below ucmp k L).
Proof.
  intros Hs. rewrite (below_from k L) in Hs. now apply sorted_app_inv in Hs.
Qed.

Lemma from_sorted k (L : Rep) : sorted ucmp L -> sorted ucmp (from ucmp k L).
Proof.
  intros Hs. rewrite (below_from k L) in Hs. now apply sorted_app_inv in Hs.
Qed.

Lemma Forall_below (P : Entry -> Prop) k (L : Rep) :
  Forall P L -> Forall P (below ucmp k L).
Proof.
  intros H. rewrite (below_from k L) in H. now apply Forall_app in H.
Qed.

Lemma Forall_from (P : Entry -> Prop) k (L : Rep) :
  Forall P L -> Forall P (from ucmp k L).
Proof.
  intros H. rewrite (below_from k L) in H. now apply Forall_app in H.
Qed.

Lemma map_emplace_keys (P : Slice -> Prop) (L : Rep) k v :
  Forall (fun e => P (fst e)) L -> P k ->
  Forall (fun e => P (fst e)) (map_emplace less L k v).
Proof.
  induction L as [|e L IH]; cbn; intros H Hk.
  - repeat constructor. assumption.
  - inversion H; subst.
    destruct (less k (fst e)); [constructor; assumption|].
    destruct (less (fst e) k); [constructor; auto|assumption].
Qed.

Lemma map_emplace_values (P : SequenceNumber -> Prop) (L : Rep) k v :
  Forall (fun e => P (snd e)) L -> P v ->
  Forall (fun e => P (snd e)) (map_emplace less L k v).
Proof.
  induction L as [|e L IH]; cbn; intros H Hv.
  - repeat constructor. assumption.
  - inversion H; subst.
    destruct (less k (fst e)); [constructor; assumption|].
    destruct (less (fst e) k); [constructor; auto|assumption].
Qed.

Lemma map_emplace_sorted (L : Rep) k v :
  sorted ucmp L -> sorted ucmp (map_emplace less L k v).
Proof.
  induction L as [|e L IH]; cbn; intros Hs.
  - repeat constructor.
  - pose proof Hs as Hs0.
    apply sorted_cons_inv in Hs. destruct Hs as [Hs Hall].
    destruct (less k (fst e)) eqn:Hk.
    + apply less_true in Hk. constructor; [assumption|].
      constructor; [assumption|].
      eapply Forall_impl; [|exact Hall]. cbn. intros b Hb.
      now apply (cmp_lt_trans _ (fst e)).
    + destruct (less (fst e) k) eqn:He; [|assumption].
      apply less_true in He. constructor; [now apply IH|].
      apply (map_emplace_keys (fun x => cmp (fst e) x < 0)); assumption.
Qed.

(** [AddTombstone] keeps the map sorted, whatever the tombstone. *)
Lemma AddTombstone_sorted (M : Rep) (t : RangeTombstone) :
  sorted ucmp M -> sorted ucmp (AddTombstone ucmp M t).
Proof.
  intros Hs.
  destruct (upper_bound_sorted M (start_key_ t) Hs) as (L1 & L2 & HM & H1 & H2).
  rewrite (AddTombstone_shape M L1 L2 t HM H1 H2).
  subst M. apply sorted_app_inv in Hs. destruct Hs as (Hs1 & Hs2 & _).
  set (L1' := if last_seq 0 L1 <? seq_ t
              then assign_le ucmp L1 (start_key_ t) (seq_ t) else L1).
  assert (Hs1' : sorted ucmp L1').
  { unfold L1'. destruct (last_seq 0 L1 <? seq_ t); [|assumption].
    now apply assign_le_sorted. }
  assert (H1' : Forall (fun e => cmp (fst e) (start_key_ t) <= 0) L1').
  { unfold L1'. destruct (last_seq 0 L1 <? seq_ t); [|assumption].
    now apply assign_le_le. }
  set (A := below ucmp (end_key_ t) L2).
  set (B := from ucmp (end_key_ t) L2).
  set (W := run_entries t (last_seq 0 L1') A).
  assert (Hsorted : sorted ucmp (L1' ++ W ++ B)).
  { apply sorted_app; [assumption| |].
    - apply sorted_app.
      + apply run_entries_sorted. now apply below_sorted.
      + now apply from_sorted.
      + intros a b Ha Hb.
        assert (HA : Forall (fun e => cmp (fst e) (end_key_ t) < 0) W).
        { apply (run_entries_keys (fun x => cmp x (end_key_ t) < 0)).
          apply below_lt. }
        pose proof (from_ge (end_key_ t) L2 Hs2) as HB.
        rewrite Forall_forall in HA, HB.
        apply (cmp_lt_le_trans _ (end_key_ t)); auto.
    - intros a b Ha Hb.
      assert (HWB : Forall (fun e => cmp (start_key_ t) (fst e) < 0) (W ++ B)).
      { apply Forall_app. split.
        - apply (run_entries_keys (fun x => cmp (start_key_ t) x < 0)).
          now apply Forall_below.
        - now apply Forall_from. }
      rewrite Forall_forall in H1', HWB.
      apply (cmp_le_lt_trans _ (start_key_ t)); auto. }
  destruct (seq_ t =? last_seq (last_seq 0 L1') W); [|assumption].
  now apply map_emplace_sorted.
Qed.


(** *** The sequence number in force at a key *)

Lemma pick_app sel acc (X Y : Rep) :
  pick sel acc (X ++ Y) = pick sel (pick sel acc X) Y.
Proof. unfold pick. apply fold_left_app. Qed.

Lemma pick_none sel (Y : Rep) :
  forall acc, Forall (fun e => sel (fst e) = false) Y -> pick sel acc Y = acc.
Proof.
  induction Y as [|e Y IH]; cbn; intros acc H; [reflexivity|].
  inversion H as [|? ? He HY]; subst. rewrite He. now apply IH.
Qed.

Lemma pick_all sel (Y : Rep) :
  forall acc, Forall (fun e => sel (fst e) = true) Y ->
              pick sel acc Y = last_seq acc Y.
Proof.
  induction Y as [|e Y IH]; cbn; intros acc H; [reflexivity|].
  inversion H as [|? ? He HY]; subst. rewrite He. now apply IH.
Qed.

Lemma pick_cons sel (e : Entry) (Y : Rep) acc :
  pick sel acc (e :: Y) = pick sel (if sel (fst e) then snd e else acc) Y.
Proof. reflexivity. Qed.

Lemma pick_cons_true sel (e : Entry) (Y : Rep) acc acc' :
  sel (fst e) = true -> pick sel acc (e :: Y) = pick sel acc' (e :: Y).
Proof. cbn. now intros ->. Qed.

Lemma last_seq_cons (e : Entry) (Y : Rep) acc acc' :
  last_seq acc (e :: Y) = last_seq acc' (e :: Y).
Proof. reflexivity. Qed.

Lemma last_seq_value (P : SequenceNumber -> Prop) (L : Rep) :
  forall acc, P acc -> Forall (fun e => P (snd e)) L -> P (last_seq acc L).
Proof.
  induction L as [|e L IH]; cbn; intros acc Hacc H; [assumption|].
  inversion H; subst. now apply IH.
Qed.

Lemma down_closed_le x : down_closed ucmp (fun k => cmp k x <=? 0).
Proof.
  intros a b Hab Hb. apply Z.leb_le in Hb. apply Z.leb_le.
  apply (cmp_le_trans _ b); lia.
Qed.

Lemma down_closed_all : down_closed ucmp (fun _ => true).
Proof. intros a b _ _. reflexivity. Qed.

Lemma sorted_unselected sel (e : Entry) (L : Rep) :
  down_closed ucmp sel -> sel (fst e) = false ->
  Forall (fun b => cmp (fst e) (fst b) < 0) L ->
  Forall (fun b => sel (fst b) = false) L.
Proof.
  intros Hdc He Hall. eapply Forall_impl; [|exact Hall]. cbn.
  intros b Hb. destruct (sel (fst b)) eqn:Hsb; [|reflexivity].
  rewrite (Hdc _ _ Hb Hsb) in He. discriminate.
Qed.

(** Over the entries the loop visits, the new map carries the larger
    of the old sequence number and the tombstone's. *)
Lemma run_entries_pick sel t (A : Rep) :
  down_closed ucmp sel ->
  forall p q,
    sorted ucmp A ->
    p = Z.max q (seq_ t) ->
    pick sel p (run_entries t p A) = Z.max (pick sel q A) (seq_ t).
Proof.
  intros Hdc. induction A as [|e A IH]; intros p q Hs Hp; [assumption|].
  apply sorted_cons_inv in Hs. destruct Hs as [Hs Hall].
  destruct (sel (fst e)) eqn:Hsel.
  - cbn [run_entries].
    destruct (Z.ltb_spec (snd e) (seq_ t)) as [Hlt|Hge].
    + destruct (Z.eqb_spec (seq_ t) p) as [Heq|Hne].
      * cbn [pick fold_left]. rewrite Hsel.
        apply (IH p (snd e)); [assumption|lia].
      * cbn [pick fold_left fst snd]. rewrite Hsel.
        apply (IH (seq_ t) (snd e)); [assumption|lia].
    + cbn [pick fold_left]. rewrite Hsel.
      apply (IH (snd e) (snd e)); [assumption|lia].
  - pose proof (sorted_unselected sel e A Hdc Hsel Hall) as Hnone.
    assert (HL : pick sel p (run_entries t p (e :: A)) = p).
    { apply pick_none.
      apply (run_entries_keys (fun x => sel x = false)).
      constructor; assumption. }
    assert (HR : pick sel q (e :: A) = q).
    { apply pick_none. constructor; assumption. }
    rewrite HL, HR. exact Hp.
Qed.

(** When the tombstone ends on top and its sequence number is new to
    the map, [end_seq] is the sequence number the map had there. *)
Lemma run_end_seq_restores t (A : Rep) :
  forall p q es,
    p = Z.max q (seq_ t) ->
    (q < seq_ t -> es = q) ->
    q <> seq_ t ->
    Forall (fun e => snd e <> seq_ t) A ->
    last_seq p (run_entries t p A) = seq_ t ->
    run_end_seq t es A = last_seq q A.
Proof.
  induction A as [|e A IH]; intros p q es Hp Hes Hq Hfresh Hlast.
  - cbn in *. apply Hes. lia.
  - inversion Hfresh as [|? ? He HA]; subst. cbn [run_entries] in Hlast.
    cbn [run_end_seq]. rewrite (last_seq_cons e A q (snd e)).
    change (last_seq (snd e) (e :: A)) with (last_seq (snd e) A).
    destruct (Z.ltb_spec (snd e) (seq_ t)) as [Hlt|Hge].
    + destruct (Z.eqb_spec (seq_ t) (Z.max q (seq_ t))) as [Heq|Hne].
      * apply (IH (Z.max q (seq_ t)) (snd e)); auto; lia.
      * apply (IH (seq_ t) (snd e)); auto; lia.
    + apply (IH (snd e) (snd e)); auto; lia.
Qed.

Lemma emplace_front_keys_ge (B : Rep) k v :
  Forall (fun e => cmp k (fst e) <= 0) B ->
  Forall (fun e => cmp k (fst e) <= 0) (emplace_front ucmp B k v).
Proof.
  intros H. destruct B as [|e B]; cbn.
  - repeat constructor. cbn. rewrite cmp_refl. lia.
  - destruct (cmp k (fst e) <? 0); [|assumption].
    constructor; [|assumption]. cbn. rewrite cmp_refl. lia.
Qed.

(** Behind the end key, the emplaced entry stands for the sequence
    number [v] in front of it. *)
Lemma emplace_front_pick (B : Rep) k v x acc :
  Forall (fun e => cmp k (fst e) <= 0) B ->
  cmp k x <= 0 ->
  seq_at ucmp acc (emplace_front ucmp B k v) x = seq_at ucmp v B x.
Proof.
  intros HB Hkx. unfold seq_at.
  destruct B as [|e B]; cbn [emplace_front].
  - cbn. apply Z.leb_le in Hkx. now rewrite Hkx.
  - inversion HB as [|? ? Hke _]; subst.
    destruct (Z.ltb_spec (cmp k (fst e)) 0) as [Hlt|Hge].
    + cbn [pick fold_left fst snd]. apply Z.leb_le in Hkx. now rewrite Hkx.
    + apply pick_cons_true. apply Z.leb_le.
      apply (cmp_le_trans _ k); [|assumption]. apply cmp_ge_flip. lia.
Qed.


Lemma unselected_above x k (Y : Rep) :
  cmp x k < 0 ->
  Forall (fun e => cmp k (fst e) <= 0) Y ->
  Forall (fun e => (cmp (fst e) x <=? 0) = false) Y.
Proof.
  intros Hxk H. eapply Forall_impl; [|exact H]. cbn. intros e He.
  apply Z.leb_gt. apply cmp_flip. now apply (cmp_lt_le_trans _ k).
Qed.

Lemma selected_below x k (Y : Rep) :
  cmp k x <= 0 ->
  Forall (fun e => cmp (fst e) k <= 0) Y ->
  Forall (fun e => (cmp (fst e) x <=? 0) = true) Y.
Proof.
  intros Hkx H. eapply Forall_impl; [|exact H]. cbn. intros e He.
  apply Z.leb_le. now apply (cmp_le_trans _ k).
Qed.

Lemma Forall_lt_le (P : Entry -> Z) (Y : Rep) :
  Forall (fun e => P e < 0) Y -> Forall (fun e => P e <= 0) Y.
Proof. intros H. eapply Forall_impl; [|exact H]. cbn. intros; lia. Qed.

Lemma seq_at_assign_le_before (L : Rep) k v x :
  cmp x k < 0 ->
  forall acc, seq_at ucmp acc (assign_le ucmp L k v) x = seq_at ucmp acc L x.
Proof.
  intros Hxk. unfold seq_at.
  assert (Hk : (cmp k x <=? 0) = false).
  { apply Z.leb_gt. now apply cmp_flip. }
  induction L as [|e L IH]; intros acc; cbn.
  - now rewrite Hk.
  - destruct (Z.ltb_spec (cmp (fst e) k) 0) as [Hlt|Hge]; cbn.
    + apply IH.
    + assert ((cmp (fst e) x <=? 0) = false) as ->; [|reflexivity].
      apply Z.leb_gt. apply cmp_flip. apply (cmp_lt_le_trans _ k); [assumption|].
      apply cmp_ge_flip. lia.
Qed.

Lemma last_seq_assign_le (L : Rep) k v :
  sorted ucmp L -> Forall (fun e => cmp (fst e) k <= 0) L ->
  forall acc, last_seq acc (assign_le ucmp L k v) = v.
Proof.
  induction L as [|e L IH]; intros Hs Hle acc; cbn; [reflexivity|].
  apply sorted_cons_inv in Hs. destruct Hs as [Hs Hall].
  inversion Hle as [|? ? He HL]; subst.
  destruct (Z.ltb_spec (cmp (fst e) k) 0) as [Hlt|Hge].
  - apply (IH Hs HL).
  - destruct L as [|b L]; [reflexivity|].
    inversion Hall as [|? ? Heb _]; subst. inversion HL as [|? ? Hb _]; subst.
    pose proof (cmp_lt_le_trans _ _ _ Heb Hb). lia.
Qed.

(** The parts of the result of [AddTombstone] for a tombstone with
    start < end, with the bounds on their keys. *)
Lemma AddTombstone_parts (M : Rep) (t : RangeTombstone) :
  sorted ucmp M ->
  cmp (start_key_ t) (end_key_ t) < 0 ->
  exists L1 L2,
    M = L1 ++ L2
    /\ sorted ucmp L1 /\ sorted ucmp L2
    /\ Forall (fun e => cmp (fst e) (start_key_ t) <= 0) L1
    /\ Forall (fun e => cmp (start_key_ t) (fst e) < 0) L2
    /\ let q0 := last_seq 0 L1 in
       let L1' := if q0 <? seq_ t
                  then assign_le ucmp L1 (start_key_ t) (seq_ t) else L1 in
       let es0 := if q0 <? seq_ t then q0 else 0 in
       let A := below ucmp (end_key_ t) L2 in
       let B := from ucmp (end_key_ t) L2 in
       let W := run_entries t (last_seq 0 L1') A in
       let B' := if seq_ t =? last_seq (last_seq 0 L1') W
                 then emplace_front ucmp B (end_key_ t) (run_end_seq t es0 A)
                 else B in
       AddTombstone ucmp M t = L1' ++ W ++ B'
       /\ L2 = A ++ B
       /\ sorted ucmp A /\ sorted ucmp B
       /\ Forall (fun e => cmp (fst e) (start_key_ t) <= 0) L1'
       /\ last_seq 0 L1' = Z.max q0 (seq_ t)
       /\ Forall (fun e => cmp (fst e) (end_key_ t) < 0) A
       /\ Forall (fun e => cmp (fst e) (end_key_ t) < 0) W
       /\ Forall (fun e => cmp (start_key_ t) (fst e) < 0) W
       /\ Forall (fun e => cmp (end_key_ t) (fst e) <= 0) B
       /\ Forall (fun e => cmp (end_key_ t) (fst e) <= 0) B'.
Proof.
  intros Hs Hse.
  destruct (upper_bound_sorted M (start_key_ t) Hs) as (L1 & L2 & HM & H1 & H2).
  exists L1, L2. split; [assumption|].
  pose proof Hs as Hs0. rewrite HM in Hs0. apply sorted_app_inv in Hs0.
  destruct Hs0 as (Hs1 & Hs2 & _).
  split; [assumption|]. split; [assumption|].
  split; [assumption|]. split; [assumption|].
  intros q0 L1' es0 A B W B'.
  assert (H1' : Forall (fun e => cmp (fst e) (start_key_ t) <= 0) L1').
  { unfold L1'. destruct (q0 <? seq_ t); [|assumption]. now apply assign_le_le. }
  assert (Hp1 : last_seq 0 L1' = Z.max q0 (seq_ t)).
  { unfold L1'. destruct (Z.ltb_spec q0 (seq_ t)).
    - rewrite last_seq_assign_le by assumption. lia.
    - fold q0. lia. }
  assert (HA : Forall (fun e => cmp (fst e) (end_key_ t) < 0) A) by apply below_lt.
  assert (HW : Forall (fun e => cmp (fst e) (end_key_ t) < 0) W).
  { apply (run_entries_keys (fun x => cmp x (end_key_ t) < 0)). exact HA. }
  assert (HW2 : Forall (fun e => cmp (start_key_ t) (fst e) < 0) W).
  { apply (run_entries_keys (fun x => cmp (start_key_ t) x < 0)).
    now apply Forall_below. }
  assert (HB : Forall (fun e => cmp (end_key_ t) (fst e) <= 0) B).
  { now apply from_ge. }
  assert (HB' : Forall (fun e => cmp (end_key_ t) (fst e) <= 0) B').
  { unfold B'. destruct (seq_ t =? last_seq (last_seq 0 L1') W); [|assumption].
    now apply emplace_front_keys_ge. }
  split.
  { rewrite (AddTombstone_shape M L1 L2 t HM H1 H2). fold q0 L1' es0 A B W.
    unfold B'. destruct (seq_ t =? last_seq (last_seq 0 L1') W); [|reflexivity].
    rewrite app_assoc, map_emplace_app, <- app_assoc; [reflexivity| |assumption].
    apply Forall_app. split; [|assumption].
    eapply Forall_impl; [|exact H1']. cbn. intros e He.
    now apply (cmp_le_lt_trans _ (start_key_ t)). }
  split; [apply below_from|].
  split; [now apply below_sorted|]. split; [now apply from_sorted|].
  repeat split; assumption.
Qed.


Lemma seq_at_split (M L1 L2 : Rep) k :
  M = L1 ++ L2 ->
  Forall (fun e => cmp (fst e) k <= 0) L1 ->
  Forall (fun e => cmp k (fst e) < 0) L2 ->
  seq_at ucmp 0 M k = last_seq 0 L1.
Proof.
  intros -> H1 H2. unfold seq_at. rewrite pick_app.
  rewrite (pick_none _ L2).
  - apply pick_all. eapply Forall_impl; [|exact H1]. cbn.
    intros e He. now apply Z.leb_le.
  - eapply Forall_impl; [|exact H2]. cbn. intros e He.
    apply Z.leb_gt. now apply cmp_flip.
Qed.

(** At the key of an entry the entry's sequence number is in force. *)
Lemma seq_at_key (M : Rep) (e : Entry) acc :
  sorted ucmp M -> In e M -> seq_at ucmp acc M (fst e) = snd e.
Proof.
  unfold seq_at. revert acc. induction M as [|b M IH]; intros acc Hs Hin.
  - contradiction.
  - apply sorted_cons_inv in Hs. destruct Hs as [Hs Hall].
    rewrite pick_cons. destruct Hin as [->|Hin].
    + rewrite cmp_refl. change (0 <=? 0) with true. cbv iota.
      apply pick_none.
      eapply Forall_impl; [|exact Hall]. cbn. intros d Hd.
      apply Z.leb_gt. now apply cmp_flip.
    + apply (IH _ Hs Hin).
Qed.

(** Coverage after [AddTombstone]: for a tombstone with start < end
    whose sequence number is not in force anywhere in [start, end), the
    sequence number in force at [x] becomes the larger of the old one
    and the tombstone's inside [start, end) and is unchanged outside. *)
Theorem AddTombstone_seq_at (M : Rep) (t : RangeTombstone) (x : Slice) :
  sorted ucmp M ->
  cmp (start_key_ t) (end_key_ t) < 0 ->
  (forall y, cmp (start_key_ t) y <= 0 -> cmp y (end_key_ t) < 0 ->
             seq_at ucmp 0 M y <> seq_ t) ->
  seq_at ucmp 0 (AddTombstone ucmp M t) x
  = if (cmp (start_key_ t) x <=? 0) && (cmp x (end_key_ t) <? 0)
    then Z.max (seq_at ucmp 0 M x) (seq_ t)
    else seq_at ucmp 0 M x.
Proof.
  intros Hs Hse Hfresh.
  destruct (AddTombstone_parts M t Hs Hse)
    as (L1 & L2 & HM & Hs1 & Hs2 & H1 & H2 & Hparts).
  cbv zeta in Hparts.
  set (q0 := last_seq 0 L1) in *.
  set (L1' := if q0 <? seq_ t
              then assign_le ucmp L1 (start_key_ t) (seq_ t) else L1) in *.
  set (es0 := if q0 <? seq_ t then q0 else 0) in *.
  set (A := below ucmp (end_key_ t) L2) in *.
  set (B := from ucmp (end_key_ t) L2) in *.
  set (W := run_entries t (last_seq 0 L1') A) in *.
  set (B' := if seq_ t =? last_seq (last_seq 0 L1') W
             then emplace_front ucmp B (end_key_ t) (run_end_seq t es0 A)
             else B) in *.
  destruct Hparts as (HR & HL2 & HsA & HsB & H1' & Hp1 & HA & HW & HW2 & HB & HB').
  rewrite HR, HM, HL2. unfold seq_at. rewrite !pick_app.
  fold (seq_at ucmp 0 L1' x) (seq_at ucmp 0 L1 x).
  set (sel := fun k => cmp k x <=? 0).
  destruct (Z.leb_spec (cmp (start_key_ t) x) 0) as [Hsx|Hxs]; cbn [andb].
  - (* start <= x *)
    assert (Hnew1 : seq_at ucmp 0 L1' x = last_seq 0 L1').
    { apply pick_all. now apply (selected_below x (start_key_ t)). }
    assert (Hold1 : seq_at ucmp 0 L1 x = q0).
    { apply pick_all. now apply (selected_below x (start_key_ t)). }
    rewrite Hnew1, Hold1, Hp1.
    destruct (Z.ltb_spec (cmp x (end_key_ t)) 0) as [Hxe|Hex].
    + (* x < end *)
      rewrite (pick_none sel B') by now apply (unselected_above x (end_key_ t)).
      rewrite (pick_none sel B) by now apply (unselected_above x (end_key_ t)).
      unfold W. rewrite Hp1.
      apply run_entries_pick; [apply down_closed_le|assumption|reflexivity].
    + (* end <= x *)
      assert (Hxe : cmp (end_key_ t) x <= 0) by (apply cmp_ge_flip; lia).
      assert (HlastW : last_seq (Z.max q0 (seq_ t)) W
                       = Z.max (last_seq q0 A) (seq_ t)).
      { unfold W. rewrite Hp1.
        apply (run_entries_pick (fun _ => true));
          [apply down_closed_all|assumption|reflexivity]. }
      rewrite (pick_all sel W)
        by (apply (selected_below x (end_key_ t)); [assumption|];
            now apply Forall_lt_le).
      rewrite (pick_all sel A)
        by (apply (selected_below x (end_key_ t)); [assumption|];
            now apply Forall_lt_le).
      rewrite HlastW. unfold B'. rewrite Hp1, HlastW.
      destruct (Z.eqb_spec (seq_ t) (Z.max (last_seq q0 A) (seq_ t))) as [Heq|Hne].
      * change (pick sel ?a ?l) with (seq_at ucmp a l x).
        rewrite emplace_front_pick by assumption.
        assert (Hes : run_end_seq t es0 A = last_seq q0 A).
        { apply (run_end_seq_restores t A (Z.max q0 (seq_ t)) q0 es0).
          - reflexivity.
          - unfold es0. intros Hlt. apply Z.ltb_lt in Hlt. now rewrite Hlt.
          - unfold q0. rewrite <- (seq_at_split M L1 L2 (start_key_ t) HM H1 H2).
            apply Hfresh; [rewrite cmp_refl; lia|assumption].
          - apply Forall_forall. intros e He.
            assert (HeM : In e M).
            { rewrite HM, HL2. apply in_or_app. right.
              apply in_or_app. now left. }
            rewrite <- (seq_at_key M e 0 Hs HeM).
            rewrite Forall_forall in HA, H2. apply Hfresh.
            + assert (cmp (start_key_ t) (fst e) < 0); [|lia].
              apply H2. rewrite HL2. apply in_or_app. now left.
            + now apply HA.
          - fold W. rewrite <- Hp1. fold W. rewrite Hp1, HlastW. lia. }
        rewrite Hes. reflexivity.
      * replace (Z.max (last_seq q0 A) (seq_ t)) with (last_seq q0 A) by lia.
        reflexivity.
  - (* x < start *)
    assert (Hxs' : cmp x (start_key_ t) < 0) by (apply cmp_flip; lia).
    assert (Hxe : cmp x (end_key_ t) < 0).
    { now apply (cmp_lt_trans _ (start_key_ t)). }
    rewrite (pick_none sel B') by now apply (unselected_above x (end_key_ t)).
    rewrite (pick_none sel B) by now apply (unselected_above x (end_key_ t)).
    rewrite (pick_none sel W)
      by (apply (unselected_above x (start_key_ t)); [assumption|];
          now apply Forall_lt_le).
    rewrite (pick_none sel A).
    2:{ apply (unselected_above x (start_key_ t)); [assumption|].
        apply Forall_lt_le. rewrite HL2 in H2. now apply Forall_app in H2. }
    unfold L1'. destruct (q0 <? seq_ t); [|reflexivity].
    now apply seq_at_assign_le_before.
Qed.


(** [ShouldDelete] in [kBinarySearch] mode compares the sequence number
    of the key with the one in force at the key. *)
Lemma covered_seq_at (M : Rep) (x : Slice) (s : SequenceNumber) :
  sorted ucmp M -> 0 <= s ->
  covered ucmp M x s = Some (s <? seq_at ucmp 0 M x).
Proof.
  intros Hs Hnn.
  destruct (upper_bound_sorted M x Hs) as (L1 & L2 & HM & H1 & H2).
  unfold covered, ShouldDelete, fresh. cbn [iter_ rep_ user_key pik].
  rewrite HM, upper_bound_order, (upper_bound_app L1 L2) by assumption.
  unfold seq_at. rewrite pick_app.
  rewrite (pick_none _ L2).
  2:{ eapply Forall_impl; [|exact H2]. cbn. intros e He.
      apply Z.leb_gt. now apply cmp_flip. }
  rewrite (pick_all _ L1).
  2:{ eapply Forall_impl; [|exact H1]. cbn. intros e He. now apply Z.leb_le. }
  destruct (rev L1) as [|cur l] eqn:Hrev.
  - apply (f_equal (@rev Entry)) in Hrev. rewrite rev_involutive in Hrev.
    subst L1. cbn. f_equal. symmetry. apply Z.ltb_ge. exact Hnn.
  - apply (f_equal (@rev Entry)) in Hrev. rewrite rev_involutive in Hrev.
    cbn [rev] in Hrev. subst L1.
    unfold last_seq. rewrite pick_app. cbn [pick fold_left].
    apply Forall_app in H1. destruct H1 as [_ Hcur].
    inversion Hcur as [|? ? Hc _]; subst.
    unfold finish, positioned. cbn [user_key sequence pik].
    apply Z.leb_le in Hc. rewrite Hc. cbn [andb].
    destruct L2 as [|nxt L2]; [reflexivity|].
    inversion H2 as [|? ? Hn _]; subst. apply Z.ltb_lt in Hn. rewrite Hn.
    reflexivity.
Qed.

(** The sequence numbers in the map after [AddTombstone] are those it
    had, the tombstone's, and the sentinel 0. *)
Lemma AddTombstone_values (P : SequenceNumber -> Prop) (M : Rep) t :
  sorted ucmp M -> P 0 -> P (seq_ t) ->
  Forall (fun e => P (snd e)) M ->
  Forall (fun e => P (snd e)) (AddTombstone ucmp M t).
Proof.
  intros Hs H0 Ht HM.
  destruct (upper_bound_sorted M (start_key_ t) Hs) as (L1 & L2 & Heq & H1 & H2).
  rewrite (AddTombstone_shape M L1 L2 t Heq H1 H2).
  rewrite Heq in HM. apply Forall_app in HM. destruct HM as [HL1 HL2].
  set (q0 := last_seq 0 L1).
  assert (Hq0 : P q0) by now apply last_seq_value.
  set (L1' := if q0 <? seq_ t
              then assign_le ucmp L1 (start_key_ t) (seq_ t) else L1).
  assert (HL1' : Forall (fun e => P (snd e)) L1').
  { unfold L1'. destruct (q0 <? seq_ t); [|assumption].
    now apply assign_le_values. }
  set (A := below ucmp (end_key_ t) L2).
  set (W := run_entries t (last_seq 0 L1') A).
  assert (HA : Forall (fun e => P (snd e)) A) by now apply Forall_below.
  assert (Hall : Forall (fun e => P (snd e))
                   (L1' ++ W ++ from ucmp (end_key_ t) L2)).
  { apply Forall_app. split; [assumption|]. apply Forall_app. split.
    - now apply run_entries_values.
    - now apply Forall_from. }
  destruct (seq_ t =? last_seq (last_seq 0 L1') W); [|assumption].
  apply map_emplace_values; [assumption|].
  apply run_end_seq_values; [assumption|].
  now destruct (q0 <? seq_ t).
Qed.

(** When the last entry of the old map is a sentinel, the sequence
    number the loop keeps for the end key is 0. *)
Lemma run_end_seq_sentinel t (A : Rep) :
  0 < seq_ t ->
  forall q es,
    (q = 0 -> es = 0) ->
    last_seq q A = 0 ->
    run_end_seq t es A = 0.
Proof.
  intros Hpos. induction A as [|e A IH]; intros q es Hes Hlast; cbn in *.
  - auto.
  - apply (IH (snd e)); [|exact Hlast].
    intros He. destruct (Z.ltb_spec (snd e) (seq_ t)); [assumption|lia].
Qed.

(** The sentinel invariant for tombstones that cover something: if the
    map is empty or ends with a sentinel, so does the map after adding a
    tombstone with start < end and a positive sequence number. *)
Theorem AddTombstone_sentinel (M : Rep) (t : RangeTombstone) :
  sorted ucmp M ->
  cmp (start_key_ t) (end_key_ t) < 0 ->
  0 < seq_ t ->
  last_seq 0 M = 0 ->
  AddTombstone ucmp M t <> [] /\ last_seq 0 (AddTombstone ucmp M t) = 0.
Proof.
  intros Hs Hse Hpos Hlast.
  destruct (AddTombstone_parts M t Hs Hse)
    as (L1 & L2 & HM & Hs1 & Hs2 & H1 & H2 & Hparts).
  cbv zeta in Hparts.
  set (q0 := last_seq 0 L1) in *.
  set (L1' := if q0 <? seq_ t
              then assign_le ucmp L1 (start_key_ t) (seq_ t) else L1) in *.
  set (es0 := if q0 <? seq_ t then q0 else 0) in *.
  set (A := below ucmp (end_key_ t) L2) in *.
  set (B := from ucmp (end_key_ t) L2) in *.
  set (W := run_entries t (last_seq 0 L1') A) in *.
  destruct Hparts as (HR & HL2 & HsA & HsB & H1' & Hp1 & HA & HW & HW2 & HB & HB').
  rewrite HR. clear HR HB'.
  rewrite HM, HL2 in Hlast. unfold last_seq in Hlast |- *.
  rewrite !pick_app in Hlast. rewrite !pick_app.
  fold (last_seq 0 L1) in Hlast. fold q0 in Hlast.
  fold (last_seq q0 A) in Hlast. fold (last_seq 0 L1').
  fold (last_seq (last_seq 0 L1') W).
  assert (HlastW : last_seq (last_seq 0 L1') W = Z.max (last_seq q0 A) (seq_ t)).
  { unfold W. rewrite Hp1.
    apply (run_entries_pick (fun _ => true));
      [apply down_closed_all|assumption|reflexivity]. }
  destruct B as [|b B].
  - cbn in Hlast. rewrite HlastW, Hlast.
    replace (seq_ t =? Z.max 0 (seq_ t)) with true by (symmetry; apply Z.eqb_eq; lia).
    cbn. split.
    + intros Habs. apply app_eq_nil in Habs. destruct Habs as [_ Habs].
      apply app_eq_nil in Habs. destruct Habs as [_ Habs]. discriminate.
    + apply (run_end_seq_sentinel t A Hpos q0 es0); [|exact Hlast].
      unfold es0. intros ->. now destruct (0 <? seq_ t).
  - split.
    + intros Habs. apply app_eq_nil in Habs. destruct Habs as [_ Habs].
      apply app_eq_nil in Habs. destruct Habs as [_ Habs].
      destruct (seq_ t =? last_seq (last_seq 0 L1') W); [|discriminate].
      cbn in Habs. destruct (cmp (end_key_ t) (fst b) <? 0); discriminate.
    + destruct (seq_ t =? last_seq (last_seq 0 L1') W); [|exact Hlast].
      cbn [emplace_front].
      destruct (cmp (end_key_ t) (fst b) <? 0); exact Hlast.
Qed.

Lemma below_app_all k (X Y : Rep) :
  Forall (fun e => cmp (fst e) k < 0) X ->
  Forall (fun e => cmp k (fst e) <= 0) Y ->
  below ucmp k (X ++ Y) = X /\ from ucmp k (X ++ Y) = Y.
Proof.
  intros HX HY. induction X as [|e X IH]; cbn.
  - destruct Y as [|e Y]; cbn; [auto|].
    inversion HY as [|? ? He _]; subst.
    destruct (Z.ltb_spec (cmp (fst e) k) 0) as [Hlt|_]; [|auto].
    apply cmp_flip in Hlt. lia.
  - inversion HX as [|? ? He HX']; subst.
    apply Z.ltb_lt in He. rewrite He.
    destruct (IH HX') as [-> ->]. auto.
Qed.

Lemma emplace_front_twice (B : Rep) k v v' :
  emplace_front ucmp (emplace_front ucmp B k v) k v' = emplace_front ucmp B k v.
Proof.
  assert (Hkk : (cmp k k <? 0) = false).
  { apply Z.ltb_ge. rewrite cmp_refl. lia. }
  destruct B as [|e B]; cbn.
  - now rewrite Hkk.
  - destruct (cmp k (fst e) <? 0) eqn:He; cbn.
    + now rewrite Hkk.
    + now rewrite He.
Qed.

(** Adding a tombstone with start < end a second time changes nothing. *)
Theorem AddTombstone_idempotent (M : Rep) (t : RangeTombstone) :
  sorted ucmp M ->
  cmp (start_key_ t) (end_key_ t) < 0 ->
  AddTombstone ucmp (AddTombstone ucmp M t) t = AddTombstone ucmp M t.
Proof.
  intros Hs Hse.
  destruct (AddTombstone_parts M t Hs Hse)
    as (L1 & L2 & HM & Hs1 & Hs2 & H1 & H2 & Hparts).
  cbv zeta in Hparts.
  set (q0 := last_seq 0 L1) in *.
  set (L1' := if q0 <? seq_ t
              then assign_le ucmp L1 (start_key_ t) (seq_ t) else L1) in *.
  set (es0 := if q0 <? seq_ t then q0 else 0) in *.
  set (A := below ucmp (end_key_ t) L2) in *.
  set (B := from ucmp (end_key_ t) L2) in *.
  set (W := run_entries t (last_seq 0 L1') A) in *.
  remember (if seq_ t =? last_seq (last_seq 0 L1') W
            then emplace_front ucmp B (end_key_ t) (run_end_seq t es0 A)
            else B) as B' eqn:HB'def.
  destruct Hparts as (HR & HL2 & HsA & HsB & H1' & Hp1 & HA & HW & HW2 & HB & HB').
  rewrite HR.
  assert (HWB : Forall (fun e => cmp (start_key_ t) (fst e) < 0) (W ++ B')).
  { apply Forall_app. split; [assumption|].
    eapply Forall_impl; [|exact HB']. cbn. intros e He.
    now apply (cmp_lt_le_trans _ (end_key_ t)). }
  rewrite (AddTombstone_shape (L1' ++ W ++ B') L1' (W ++ B') t eq_refl H1' HWB).
  cbv zeta.
  destruct (below_app_all (end_key_ t) W B' HW HB') as [Hbelow Hfrom].
  rewrite Hbelow, Hfrom.
  assert (Hge : (last_seq 0 L1' <? seq_ t) = false).
  { apply Z.ltb_ge. rewrite Hp1. lia. }
  rewrite Hge. cbv iota.
  assert (HWge : Forall (fun e => seq_ t <= snd e) W) by apply run_entries_ge.
  rewrite (run_entries_fixed t W _ HWge), (run_end_seq_fixed t W _ HWge).
  destruct (seq_ t =? last_seq (last_seq 0 L1') W) eqn:Hc; [|reflexivity].
  rewrite app_assoc, map_emplace_app, <- app_assoc; [| |assumption].
  - subst B'. cbv iota. rewrite emplace_front_twice. now rewrite <- !app_assoc.
  - apply Forall_app. split; [|assumption].
    eapply Forall_impl; [|exact H1']. cbn. intros e He.
    now apply (cmp_le_lt_trans _ (start_key_ t)).
Qed.


(** *** Collapsed against uncollapsed *)

Lemma cover_seq_witness (S : list RangeTombstone) x :
  cover_seq ucmp S x = 0
  \/ exists t, In t S /\ covers ucmp t x = true /\ seq_ t = cover_seq ucmp S x.
Proof.
  unfold cover_seq. induction S as [|t S IH] using rev_ind.
  - now left.
  - rewrite fold_left_app. cbn [fold_left].
    set (c := fold_left
                (fun acc t => if covers ucmp t x then Z.max acc (seq_ t) else acc)
                S 0) in *.
    assert (Hold : c = 0 \/ exists t', In t' (S ++ [t])
                     /\ covers ucmp t' x = true /\ seq_ t' = c).
    { destruct IH as [IH|(t' & Hin & Hc & Hs)]; [now left|].
      right. exists t'. split; [apply in_or_app; now left|auto]. }
    destruct (covers ucmp t x) eqn:Hc; [|exact Hold].
    destruct (Z.max_spec c (seq_ t)) as [[_ ->]|[_ ->]]; [|exact Hold].
    right. exists t. split; [apply in_or_app; right; now left|auto].
Qed.

Lemma collapse_invariant (S : list RangeTombstone) :
  proper ucmp S ->
  let M := fold_left (AddTombstone ucmp) S [] in
  sorted ucmp M
  /\ last_seq 0 M = 0
  /\ forall x, seq_at ucmp 0 M x = cover_seq ucmp S x.
Proof.
  unfold proper. induction S as [|t S IH] using rev_ind;
    intros (Hnd & Hall & Hdisj).
  - cbn. repeat split; constructor.
  - apply NoDup_remove in Hnd. rewrite app_nil_r in Hnd.
    destruct Hnd as [Hnd Hnew].
    apply Forall_app in Hall. destruct Hall as [Hall Ht].
    inversion Ht as [|? ? [Hpos Hse] _]; subst.
    destruct IH as (Hs & Hlast & Hcov).
    { split; [assumption|]. split; [assumption|].
      intros a b x Ha Hb. apply Hdisj; apply in_or_app; now left. }
    rewrite fold_left_app. cbn [fold_left].
    set (M := fold_left (AddTombstone ucmp) S []) in *.
    split; [now apply AddTombstone_sorted|].
    split; [now apply AddTombstone_sentinel|].
    intros x. rewrite AddTombstone_seq_at; auto.
    + unfold cover_seq. rewrite fold_left_app. cbn [fold_left].
      fold (cover_seq ucmp S x). rewrite Hcov. reflexivity.
    + intros y Hsy Hye. rewrite Hcov.
      destruct (cover_seq_witness S y) as [->|(t' & Hin & Hc & <-)]; [lia|].
      intros Heq.
      assert (Hty : covers ucmp t y = true).
      { unfold covers. apply andb_true_iff. split.
        - now apply Z.leb_le.
        - now apply Z.ltb_lt. }
      assert (Hne : t <> t') by (intros ->; contradiction).
      rewrite (Hdisj t t' y) in Hc; auto; try discriminate.
      * apply in_or_app. right. now left.
      * apply in_or_app. now left.
Qed.

Lemma cover_seq_deletes (S : list RangeTombstone) x s :
  0 <= s ->
  (s <? cover_seq ucmp S x) = existsb (deletes ucmp x s) S.
Proof.
  intros Hs. unfold cover_seq.
  assert (Hgen : forall acc,
    (s <? fold_left
            (fun acc t => if covers ucmp t x then Z.max acc (seq_ t) else acc)
            S acc)
    = (s <? acc) || existsb (deletes ucmp x s) S).
  { induction S as [|t S IH]; intros acc; cbn.
    - now rewrite orb_false_r.
    - rewrite IH. unfold deletes at 2.
      destruct (covers ucmp t x); cbn.
      + rewrite orb_assoc. f_equal.
        destruct (Z.ltb_spec s (Z.max acc (seq_ t)));
          destruct (Z.ltb_spec s acc); destruct (Z.ltb_spec s (seq_ t));
          cbn; try reflexivity; lia.
      + reflexivity. }
  rewrite Hgen. replace (s <? 0) with false; [reflexivity|].
  symmetry. apply Z.ltb_ge. exact Hs.
Qed.

Lemma multiset_emplace_Forall {A} (less : A -> A -> bool) (P : A -> Prop) s x :
  Forall P s -> P x -> Forall P (multiset_emplace less s x).
Proof.
  induction s as [|y s IH]; cbn; intros H Hx.
  - repeat constructor. assumption.
  - inversion H; subst. destruct (less x y); constructor; auto.
Qed.

Lemma multiset_emplace_existsb {A} (less : A -> A -> bool) (f : A -> bool) s x :
  existsb f (multiset_emplace less s x) = f x || existsb f s.
Proof.
  induction s as [|y s IH]; cbn.
  - reflexivity.
  - destruct (less x y); cbn; [reflexivity|].
    rewrite IH. destruct (f x), (f y); reflexivity.
Qed.

Lemma uncollapsed_add_sorted (rep : UncollapsedRangeDelMap.Rep) t :
  start_sorted ucmp rep ->
  start_sorted ucmp (UncollapsedRangeDelMap.AddTombstone ucmp rep t).
Proof.
  unfold start_sorted, UncollapsedRangeDelMap.AddTombstone.
  induction rep as [|y rep IH]; cbn; intros Hs.
  - repeat constructor.
  - inversion Hs as [|? ? Hrest Hall]; subst.
    unfold TombstoneStartKeyComparator at 1.
    destruct (Z.ltb_spec (cmp (start_key_ t) (start_key_ y)) 0) as [Hlt|Hge].
    + constructor; [assumption|]. constructor; [lia|].
      eapply Forall_impl; [|exact Hall]. cbn. intros b Hb.
      apply (cmp_le_trans _ (start_key_ y)); lia.
    + constructor; [now apply IH|].
      apply multiset_emplace_Forall; [assumption|].
      apply cmp_ge_flip. lia.
Qed.

(** The full scan of a start-ordered multiset finds a deleting
    tombstone exactly when there is one. *)
Lemma scan_deletes (rep : UncollapsedRangeDelMap.Rep) x s :
  start_sorted ucmp rep ->
  UncollapsedRangeDelMap.scan ucmp rep (pik x s)
  = existsb (deletes ucmp x s) rep.
Proof.
  unfold start_sorted. induction rep as [|t rep IH]; cbn; intros Hs.
  - reflexivity.
  - inversion Hs as [|? ? Hrest Hall]; subst.
    unfold deletes at 1, covers.
    destruct (Z.ltb_spec (cmp x (start_key_ t)) 0) as [Hlt|Hge].
    + assert ((cmp (start_key_ t) x <=? 0) = false) as ->.
      { apply Z.leb_gt. now apply cmp_flip. }
      cbn. symmetry. apply not_true_is_false. intros Hex.
      apply existsb_exists in Hex. destruct Hex as (b & Hb & Hdel).
      rewrite Forall_forall in Hall. specialize (Hall _ Hb).
      unfold deletes, covers in Hdel.
      apply andb_true_iff in Hdel. destruct Hdel as [Hdel _].
      apply andb_true_iff in Hdel. destruct Hdel as [Hdel _].
      apply Z.leb_le in Hdel.
      pose proof (cmp_lt_le_trans _ _ _ Hlt Hall) as Hxb.
      apply cmp_flip in Hxb. lia.
    + assert ((cmp (start_key_ t) x <=? 0) = true) as ->.
      { apply Z.leb_le. apply cmp_ge_flip. lia. }
      cbn. rewrite (IH Hrest).
      destruct (s <? seq_ t), (cmp x (end_key_ t) <? 0); reflexivity.
Qed.

Lemma gather_invariant (S : list RangeTombstone) :
  forall rep,
    start_sorted ucmp rep ->
    let R := fold_left (UncollapsedRangeDelMap.AddTombstone ucmp) S rep in
    start_sorted ucmp R
    /\ forall f, existsb f R = existsb f S || existsb f rep.
Proof.
  induction S as [|t S IH]; intros rep Hs; cbn.
  - split; [assumption|reflexivity].
  - destruct (IH _ (uncollapsed_add_sorted rep t Hs)) as [Hs' Hex].
    split; [assumption|]. intros f. rewrite Hex.
    unfold UncollapsedRangeDelMap.AddTombstone.
    rewrite multiset_emplace_existsb.
    destruct (f t), (existsb f S), (existsb f rep); reflexivity.
Qed.

(** For tombstones that cover something, have positive sequence
    numbers and do not overlap when they have the same sequence number,
    the collapsed map in BinarySearch mode answers as the uncollapsed
    map in FullScan mode. *)
Theorem collapsed_agrees_with_uncollapsed (S : list RangeTombstone) x s :
  proper ucmp S ->
  0 <= s ->
  covered ucmp (fold_left (AddTombstone ucmp) S []) x s
  = UncollapsedRangeDelMap.ShouldDelete ucmp
      (fold_left (UncollapsedRangeDelMap.AddTombstone ucmp) S [])
      (pik x s) kFullScan.
Proof.
  intros Hproper Hs.
  destruct (collapse_invariant S Hproper) as (Hsorted & _ & Hcov).
  rewrite covered_seq_at by assumption. rewrite Hcov.
  unfold UncollapsedRangeDelMap.ShouldDelete. f_equal.
  destruct (gather_invariant S [] (SSorted_nil _)) as [HsR Hex].
  rewrite scan_deletes by assumption.
  rewrite Hex. cbn. rewrite orb_false_r. now apply cover_seq_deletes.
Qed.

Lemma existsb_Permutation {A} (f : A -> bool) (l l' : list A) :
  Permutation l l' -> existsb f l = existsb f l'.
Proof.
  induction 1; cbn.
  - reflexivity.
  - now rewrite IHPermutation.
  - destruct (f x), (f y); reflexivity.
  - congruence.
Qed.

Lemma proper_Permutation (S S' : list RangeTombstone) :
  Permutation S S' -> proper ucmp S -> proper ucmp S'.
Proof.
  intros Hperm (Hnd & Hall & Hdisj). split; [|split].
  - eapply Permutation_NoDup; eassumption.
  - eapply Permutation_Forall; eassumption.
  - intros a b x Ha Hb. apply Hdisj.
    + eapply Permutation_in; [apply Permutation_sym|]; eassumption.
    + eapply Permutation_in; [apply Permutation_sym|]; eassumption.
Qed.

(** For such tombstones the order of insertion does not matter. *)
Theorem collapsed_order_invariant (S S' : list RangeTombstone) x s :
  Permutation S S' ->
  proper ucmp S ->
  0 <= s ->
  covered ucmp (fold_left (AddTombstone ucmp) S []) x s
  = covered ucmp (fold_left (AddTombstone ucmp) S' []) x s.
Proof.
  intros Hperm Hproper Hs.
  pose proof (proper_Permutation S S' Hperm Hproper) as Hproper'.
  destruct (collapse_invariant S Hproper) as (Hsorted & _ & Hcov).
  destruct (collapse_invariant S' Hproper') as (Hsorted' & _ & Hcov').
  rewrite !covered_seq_at by assumption. rewrite Hcov, Hcov'.
  rewrite !cover_seq_deletes by assumption.
  f_equal. now apply existsb_Permutation.
Qed.


(** *** Reachable maps and ready-made instances *)

(** Every map built from tombstones with start < end and positive
    sequence numbers is sorted and is empty or ends with a sentinel. *)
Theorem collapse_sentinel (S : list RangeTombstone) :
  Forall (fun t => 0 < seq_ t /\ cmp (start_key_ t) (end_key_ t) < 0) S ->
  let M := fold_left (AddTombstone ucmp) S [] in
  sorted ucmp M /\ last_seq 0 M = 0.
Proof.
  induction S as [|t S IH] using rev_ind; intros Hall.
  - cbn. split; constructor.
  - apply Forall_app in Hall. destruct Hall as [Hall Ht].
    inversion Ht as [|? ? [Hpos Hse] _]; subst.
    destruct (IH Hall) as [Hs Hlast].
    cbv zeta. rewrite fold_left_app. cbn [fold_left]. split.
    + now apply AddTombstone_sorted.
    + now apply AddTombstone_sentinel.
Qed.

(** An empty tombstone deletes nothing in the uncollapsed map. *)
Lemma uncollapsed_empty_tombstone_inert (rep : UncollapsedRangeDelMap.Rep) a q x s :
  start_sorted ucmp rep ->
  UncollapsedRangeDelMap.ShouldDelete ucmp
    (UncollapsedRangeDelMap.AddTombstone ucmp rep
       {| start_key_ := a; end_key_ := a; seq_ := q |})
    (pik x s) kFullScan
  = UncollapsedRangeDelMap.ShouldDelete ucmp rep (pik x s) kFullScan.
Proof.
  intros Hs. unfold UncollapsedRangeDelMap.ShouldDelete. f_equal.
  rewrite !scan_deletes; [|assumption|now apply uncollapsed_add_sorted].
  unfold UncollapsedRangeDelMap.AddTombstone.
  rewrite multiset_emplace_existsb.
  assert (deletes ucmp x s {| start_key_ := a; end_key_ := a; seq_ := q |}
          = false) as ->; [|reflexivity].
  unfold deletes, covers. cbn [start_key_ end_key_ seq_].
  destruct (Z.leb_spec (cmp a x) 0) as [Hax|]; [|reflexivity].
  destruct (Z.ltb_spec (cmp x a) 0) as [Hxa|]; [|reflexivity].
  apply cmp_flip in Hxa. lia.
Qed.

Lemma apart_no_common_key (t t' : RangeTombstone) x :
  cmp (end_key_ t) (start_key_ t') <= 0 ->
  covers ucmp t x = true -> covers ucmp t' x = false.
Proof.
  unfold covers. intros Hapart Hc.
  apply andb_true_iff in Hc. destruct Hc as [_ Hxe]. apply Z.ltb_lt in Hxe.
  apply andb_false_iff. left. apply Z.leb_gt. apply cmp_flip.
  now apply (cmp_lt_le_trans _ (end_key_ t)).
Qed.

Lemma apart_no_common_key' (t t' : RangeTombstone) x :
  cmp (end_key_ t') (start_key_ t) <= 0 ->
  covers ucmp t x = true -> covers ucmp t' x = false.
Proof.
  unfold covers. intros Hapart Hc.
  apply andb_true_iff in Hc. destruct Hc as [Hsx _]. apply Z.leb_le in Hsx.
  apply andb_false_iff. right. apply Z.ltb_ge.
  apply cmp_ge_flip. now apply (cmp_le_trans _ (start_key_ t)).
Qed.

Lemma proper_b_sound (S : list RangeTombstone) :
  proper_b ucmp S = true -> proper ucmp S.
Proof.
  unfold proper. induction S as [|t S IH]; cbn [proper_b]; intros H.
  - repeat split; [constructor|constructor|]. intros ? ? ? [].
  - apply andb_true_iff in H. destruct H as [H Hrest].
    apply andb_true_iff in H. destruct H as [H Hpairs].
    apply andb_true_iff in H. destruct H as [Hpos Hse].
    apply Z.ltb_lt in Hpos, Hse.
    destruct (IH Hrest) as (Hnd & Hall & Hdisj).
    rewrite forallb_forall in Hpairs.
    assert (Hsep : forall t', In t' S -> seq_ t = seq_ t' ->
              cmp (end_key_ t) (start_key_ t') <= 0
              \/ cmp (end_key_ t') (start_key_ t) <= 0).
    { intros t' Hin Heq. specialize (Hpairs _ Hin).
      apply orb_true_iff in Hpairs. destruct Hpairs as [Hpairs|Hpairs].
      - apply orb_true_iff in Hpairs. destruct Hpairs as [Hne|Hle].
        + apply negb_true_iff, Z.eqb_neq in Hne. contradiction.
        + left. now apply Z.leb_le.
      - right. now apply Z.leb_le. }
    split; [|split].
    + constructor; [|assumption]. intros Hin.
      apply cmp_flip in Hse. destruct (Hsep t Hin eq_refl); lia.
    + constructor; auto.
    + intros a b x [<-|Ha] [<-|Hb] Hne Heq Hc.
      * contradiction.
      * destruct (Hsep b Hb Heq);
          [eapply apart_no_common_key|eapply apart_no_common_key'];
          eassumption.
      * destruct (Hsep a Ha (eq_sym Heq));
          [eapply apart_no_common_key'|eapply apart_no_common_key];
          eassumption.
      * now apply (Hdisj a b x).
Qed.

End CollapsedMapFacts.

(** ** The general results at the bytewise comparator *)

(** The bytewise comparator orders the keys as the map does. *)
Lemma BytewiseComparator_order : orders_as_rep BytewiseComparator.
Proof. intros a b. reflexivity. Qed.

Section BytewiseInstances.
Local Open Scope string_scope.

(** The tombstones of the class comment: two of them share the
    sequence number 2 and lie apart. *)
Example class_comment_is_proper :
  proper BytewiseComparator
    [tomb "b" "n" 1; tomb "e" "h" 2; tomb "q" "t" 2; tomb "g" "k" 3].
Proof.
  apply (proper_b_sound _ BytewiseComparator_laws). reflexivity.
Qed.

Example class_comment_agrees x s :
  0 <= s ->
  let S := [tomb "b" "n" 1; tomb "e" "h" 2; tomb "q" "t" 2; tomb "g" "k" 3] in
  covered BytewiseComparator (collapse S) x s
  = UncollapsedRangeDelMap.ShouldDelete BytewiseComparator (gather S)
      (pik x s) kFullScan.
Proof.
  intros Hs S.
  apply (collapsed_agrees_with_uncollapsed _ BytewiseComparator_laws
           BytewiseComparator_order);
    [apply class_comment_is_proper|assumption].
Qed.

(** Test AlternateMultipleAboveBelow, in both directions. *)
Example alternate_above_below_any_order x s :
  0 <= s ->
  let S := [tomb "b" "d" 15; tomb "c" "f" 10; tomb "e" "g" 20; tomb "a" "h" 5] in
  covered BytewiseComparator (collapse S) x s
  = covered BytewiseComparator (collapse (rev S)) x s.
Proof.
  intros Hs S.
  apply (collapsed_order_invariant _ BytewiseComparator_laws
           BytewiseComparator_order);
    [apply Permutation_rev| |assumption].
  apply (proper_b_sound _ BytewiseComparator_laws). reflexivity.
Qed.

(** Test IdenticalSameSeqNo: the second add of [a, b) @ 5 is a no-op. *)
Example identical_same_seqno :
  collapse [tomb "a" "b" 5; tomb "a" "b" 5] = collapse [tomb "a" "b" 5].
Proof.
  apply (AddTombstone_idempotent _ BytewiseComparator_laws
           BytewiseComparator_order (collapse []));
    [constructor|reflexivity].
Qed.

(** The tombstones of test CoverSameSeqNo overlap with the same
    sequence number. *)
Example cover_same_seqno_is_not_proper :
  proper_b BytewiseComparator [tomb "a" "d" 5; tomb "b" "c" 5] = false.
Proof. reflexivity. Qed.
End BytewiseInstances.

(** * Further properties *)

(** ** The collapsed map under [AddTombstone] *)

Section CollapsedMapLaws.
Import CollapsedRangeDelMap.
Variable ucmp : Comparator.
Hypothesis laws : ComparatorLaws ucmp.
(** The map is kept in the bytewise order (see [rep_less]); what
    follows is for a user comparator that orders the keys in the same
    way, as [BytewiseComparator] does. *)
Hypothesis order : orders_as_rep ucmp.

Local Abbreviation cmp := (Compare ucmp).

(** The keys of the map after [AddTombstone] are keys it had, or the
    start or end key of the tombstone. *)
Lemma AddTombstone_keys (P : Slice -> Prop) (M : Rep) t :
  sorted ucmp M -> P (start_key_ t) -> P (end_key_ t) ->
  Forall (fun e => P (fst e)) M ->
  Forall (fun e => P (fst e)) (AddTombstone ucmp M t).
Proof.
  intros Hs Hstart Hend HM.
  destruct (upper_bound_sorted ucmp laws M (start_key_ t) Hs)
    as (L1 & L2 & Heq & H1 & H2).
  rewrite (AddTombstone_shape ucmp laws order M L1 L2 t Heq H1 H2).
  rewrite Heq in HM. apply Forall_app in HM. destruct HM as [HL1 HL2].
  set (L1' := if last_seq 0 L1 <? seq_ t
              then assign_le ucmp L1 (start_key_ t) (seq_ t) else L1).
  assert (HL1' : Forall (fun e => P (fst e)) L1').
  { unfold L1'. destruct (last_seq 0 L1 <? seq_ t); [|assumption].
    now apply assign_le_keys. }
  set (W := run_entries t (last_seq 0 L1') (below ucmp (end_key_ t) L2)).
  assert (Hall : Forall (fun e => P (fst e))
                   (L1' ++ W ++ from ucmp (end_key_ t) L2)).
  { apply Forall_app. split; [assumption|]. apply Forall_app. split.
    - apply (run_entries_keys P). now apply Forall_below.
    - now apply Forall_from. }
  destruct (seq_ t =? last_seq (last_seq 0 L1') W); [|assumption].
  now apply map_emplace_keys.
Qed.

Lemma pick_value (P : SequenceNumber -> Prop) sel (L : Rep) :
  forall acc, P acc -> Forall (fun e => P (snd e)) L -> P (pick sel acc L).
Proof.
  induction L as [|e L IH]; cbn; intros acc Hacc H; [assumption|].
  inversion H; subst. apply IH; [|assumption]. now destruct (sel (fst e)).
Qed.

(** X1: when the user comparator orders the keys as the map does,
    [AddTombstone] keeps the keys of the map strictly ascending,
    whatever the tombstone (empty, inverted, of sequence number 0). *)
Theorem add_keeps_keys_ascending (M : Rep) (t : RangeTombstone) :
  sorted ucmp M -> sorted ucmp (AddTombstone ucmp M t).
Proof. now apply AddTombstone_sorted. Qed.

(** X2: when the user comparator orders the keys as the map does,
    [AddTombstone] invents nothing: every key of the new map is a key of
    the old map or the start or end key of the tombstone, and every
    sequence number is one of the old map, the tombstone's, or the
    sentinel 0. *)
Theorem add_invents_nothing (M : Rep) (t : RangeTombstone) :
  sorted ucmp M ->
  Forall
    (fun e =>
       (fst e = start_key_ t \/ fst e = end_key_ t \/ In (fst e) (map fst M))
       /\ (snd e = seq_ t \/ snd e = 0 \/ In (snd e) (map snd M)))
    (AddTombstone ucmp M t).
Proof.
  intros Hs. apply Forall_and.
  - apply (AddTombstone_keys
             (fun k => k = start_key_ t \/ k = end_key_ t \/ In k (map fst M)));
      auto.
    apply Forall_forall. intros e He. right. right. now apply in_map.
  - apply (AddTombstone_values ucmp laws order
             (fun v => v = seq_ t \/ v = 0 \/ In v (map snd M)));
      auto.
    apply Forall_forall. intros e He. right. right. now apply in_map.
Qed.

(** X3: when the user comparator orders the keys as the map does, the
    sentinel invariant is kept by tombstones that cover something: when
    the map is empty or ends with an entry of sequence number 0, then
    after adding a tombstone with start < end and a positive sequence
    number the map is not empty and ends with an entry of sequence
    number 0. *)
Theorem add_keeps_last_sentinel (M : Rep) (t : RangeTombstone) :
  sorted ucmp M ->
  cmp (start_key_ t) (end_key_ t) < 0 ->
  0 < seq_ t ->
  last_seq 0 M = 0 ->
  AddTombstone ucmp M t <> [] /\ last_seq 0 (AddTombstone ucmp M t) = 0.
Proof. now apply AddTombstone_sentinel. Qed.

(** X4: when the user comparator orders the keys as the map does,
    adding the same tombstone a second time changes nothing, for every
    tombstone with start < end and every sorted map. *)
Theorem second_add_is_noop (M : Rep) (t : RangeTombstone) :
  sorted ucmp M ->
  cmp (start_key_ t) (end_key_ t) < 0 ->
  AddTombstone ucmp (AddTombstone ucmp M t) t = AddTombstone ucmp M t.
Proof. now apply AddTombstone_idempotent. Qed.

(** X5: what [AddTombstone] does to the answers of [ShouldDelete], when
    the user comparator orders the keys as the map does: for a tombstone
    with start < end whose sequence number is not the one in force at
    any key of its interval, a key is deleted after the add exactly when
    it was deleted before or the tombstone deletes it. *)
Theorem add_extends_coverage (M : Rep) (t : RangeTombstone) x s :
  sorted ucmp M ->
  cmp (start_key_ t) (end_key_ t) < 0 ->
  (forall y, covers ucmp t y = true -> seq_at ucmp 0 M y <> seq_ t) ->
  0 <= s ->
  covered ucmp (AddTombstone ucmp M t) x s
  = option_map (fun b => b || deletes ucmp x s t) (covered ucmp M x s).
Proof.
  intros Hs Hse Hfresh Hnn.
  pose proof (AddTombstone_sorted ucmp laws order M t Hs) as Hs'.
  rewrite (covered_seq_at ucmp laws order _ x s Hs' Hnn).
  rewrite (covered_seq_at ucmp laws order _ x s Hs Hnn).
  cbn [option_map]. f_equal.
  assert (Hfresh' : forall y, cmp (start_key_ t) y <= 0 ->
                              cmp y (end_key_ t) < 0 ->
                              seq_at ucmp 0 M y <> seq_ t).
  { intros y Hy1 Hy2. apply Hfresh. unfold covers.
    apply andb_true_iff. split; [now apply Z.leb_le|now apply Z.ltb_lt]. }
  rewrite (AddTombstone_seq_at ucmp laws order M t x Hs Hse Hfresh').
  unfold deletes, covers.
  destruct ((cmp (start_key_ t) x <=? 0) && (cmp x (end_key_ t) <? 0)); cbn.
  - destruct (Z.ltb_spec s (Z.max (seq_at ucmp 0 M x) (seq_ t)));
      destruct (Z.ltb_spec s (seq_at ucmp 0 M x));
      destruct (Z.ltb_spec s (seq_ t)); cbn; try reflexivity; lia.
  - now rewrite orb_false_r.
Qed.

(** X6: when the user comparator orders the keys as the map does, the
    collapsed map in BinarySearch mode answers as the uncollapsed map in
    FullScan mode, for tombstones with start < end and positive sequence
    numbers of which no two with the same sequence number overlap. *)
Theorem collapsed_answers_as_uncollapsed (S : list RangeTombstone) x s :
  proper ucmp S ->
  0 <= s ->
  covered ucmp (fold_left (AddTombstone ucmp) S []) x s
  = UncollapsedRangeDelMap.ShouldDelete ucmp
      (fold_left (UncollapsedRangeDelMap.AddTombstone ucmp) S [])
      (pik x s) kFullScan.
Proof. now apply collapsed_agrees_with_uncollapsed. Qed.

(** X7: when the user comparator orders the keys as the map does, the
    answers of the collapsed map for such tombstones do not depend on
    the order in which the tombstones were added. *)
Theorem collapsed_answers_in_any_order (S S' : list RangeTombstone) x s :
  Permutation S S' ->
  proper ucmp S ->
  0 <= s ->
  covered ucmp (fold_left (AddTombstone ucmp) S []) x s
  = covered ucmp (fold_left (AddTombstone ucmp) S' []) x s.
Proof. now apply collapsed_order_invariant. Qed.
End CollapsedMapLaws.

Section CollapsedMapLawsWitnesses.
Local Open Scope string_scope.
Import CollapsedRangeDelMap.

Lemma sorted_example : sorted BytewiseComparator (collapse [tomb "a" "c" 5]).
Proof. repeat constructor. Qed.

Lemma add_keeps_keys_ascending_witness :
  sorted BytewiseComparator
    (AddTombstone BytewiseComparator (collapse [tomb "a" "c" 5]) (tomb "b" "b" 7)).
Proof.
  apply (add_keeps_keys_ascending BytewiseComparator BytewiseComparator_laws BytewiseComparator_order).
  repeat constructor.
Defined.

Lemma add_invents_nothing_witness :
  Forall
    (fun e =>
       (fst e = "b" \/ fst e = "d" \/ In (fst e) ["a"; "c"])
       /\ (snd e = 7 \/ snd e = 0 \/ In (snd e) [5; 0]))
    (AddTombstone BytewiseComparator (collapse [tomb "a" "c" 5]) (tomb "b" "d" 7)).
Proof.
  apply (add_invents_nothing BytewiseComparator BytewiseComparator_laws BytewiseComparator_order
           (collapse [tomb "a" "c" 5]) (tomb "b" "d" 7)).
  repeat constructor.
Defined.

Lemma add_keeps_last_sentinel_witness :
  AddTombstone BytewiseComparator (collapse [tomb "a" "c" 5]) (tomb "b" "d" 7) <> []
  /\ last_seq 0
       (AddTombstone BytewiseComparator (collapse [tomb "a" "c" 5]) (tomb "b" "d" 7))
     = 0.
Proof.
  apply (add_keeps_last_sentinel BytewiseComparator BytewiseComparator_laws BytewiseComparator_order).
  - repeat constructor.
  - reflexivity.
  - reflexivity.
  - reflexivity.
Defined.

Lemma second_add_is_noop_witness :
  collapse [tomb "a" "c" 5; tomb "b" "d" 5; tomb "b" "d" 5]
  = collapse [tomb "a" "c" 5; tomb "b" "d" 5].
Proof.
  apply (second_add_is_noop BytewiseComparator BytewiseComparator_laws BytewiseComparator_order
           (collapse [tomb "a" "c" 5]) (tomb "b" "d" 5)).
  - repeat constructor.
  - reflexivity.
Defined.

Lemma add_extends_coverage_witness :
  let M := collapse [tomb "a" "c" 5] in
  let t := tomb "b" "d" 7 in
  covered BytewiseComparator (AddTombstone BytewiseComparator M t) "c" 6
  = option_map (fun b => b || deletes BytewiseComparator "c" 6 t)
      (covered BytewiseComparator M "c" 6).
Proof.
  apply (add_extends_coverage BytewiseComparator BytewiseComparator_laws BytewiseComparator_order).
  - repeat constructor.
  - reflexivity.
  - intros y _. apply (pick_value (fun v => v <> 7)).
    + discriminate.
    + repeat constructor; discriminate.
  - discriminate.
Defined.

Lemma collapsed_answers_as_uncollapsed_witness :
  let S := [tomb "b" "n" 1; tomb "e" "h" 2; tomb "q" "t" 2; tomb "g" "k" 3] in
  covered BytewiseComparator (collapse S) "h" 2
  = UncollapsedRangeDelMap.ShouldDelete BytewiseComparator (gather S)
      (pik "h" 2) kFullScan.
Proof.
  apply (collapsed_answers_as_uncollapsed BytewiseComparator
           BytewiseComparator_laws
           BytewiseComparator_order).
  - apply (proper_b_sound _ BytewiseComparator_laws). reflexivity.
  - discriminate.
Defined.

Lemma collapsed_answers_in_any_order_witness :
  let S := [tomb "b" "d" 15; tomb "c" "f" 10; tomb "e" "g" 20; tomb "a" "h" 5] in
  covered BytewiseComparator (collapse S) "d" 9
  = covered BytewiseComparator (collapse (rev S)) "d" 9.
Proof.
  apply (collapsed_answers_in_any_order BytewiseComparator
           BytewiseComparator_laws
           BytewiseComparator_order).
  - apply Permutation_rev.
  - apply (proper_b_sound _ BytewiseComparator_laws). reflexivity.
  - discriminate.
Defined.
End CollapsedMapLawsWitnesses.

(** ** The positioning modes of the collapsed map *)

Section PositioningModes.
Import CollapsedRangeDelMap.
Variable ucmp : Comparator.
Hypothesis laws : ComparatorLaws ucmp.

Local Abbreviation cmp := (Compare ucmp).

Lemma find_from_split (lt : Slice -> Slice -> bool) (after : Rep) :
  forall before c b' a',
    find_from lt before after c = Some (b', a') ->
    rev b' ++ a' = rev before ++ after /\ a' <> [].
Proof.
  induction after as [|e after IH]; intros before c b' a'; cbn; [discriminate|].
  destruct (lt c (fst e)); [discriminate|].
  destruct (lt (fst e) c).
  - intros H. apply IH in H. destruct H as [H Hne]. split; [|assumption].
    rewrite H. cbn. now rewrite <- app_assoc.
  - intros [= <- <-]. split; [reflexivity|discriminate].
Qed.

Lemma advance_spec (rest : Rep) :
  forall before cur x b' c' r',
    advance ucmp before cur rest x = (b', c', r') ->
    rev b' ++ c' :: r' = rev before ++ cur :: rest
    /\ match r' with [] => True | nxt :: _ => cmp x (fst nxt) < 0 end
    /\ ((b' = before /\ c' = cur) \/ cmp (fst c') x <= 0).
Proof.
  induction rest as [|nxt rest IH]; intros before cur x b' c' r'; cbn.
  - intros [= <- <- <-]. auto.
  - destruct (Z.leb_spec (cmp (fst nxt) x) 0) as [Hle|Hgt].
    + intros H. pose proof H as H0. apply IH in H.
      destruct H as (Hzip & Hnext & Hcur).
      split; [|split; [assumption|]].
      * rewrite Hzip. cbn. now rewrite <- app_assoc.
      * right. destruct Hcur as [[_ ->]|Hcur]; assumption.
    + intros [= <- <- <-]. split; [reflexivity|]. split; [|auto].
      apply (cmp_flip ucmp laws). lia.
Qed.

Lemma retreat_spec (before : Rep) :
  forall cur rest x b' c' r',
    retreat ucmp before cur rest x = (b', c', r') ->
    rev b' ++ c' :: r' = rev before ++ cur :: rest
    /\ (b' = [] \/ cmp (fst c') x <= 0)
    /\ ((b' = before /\ c' = cur /\ r' = rest)
        \/ match r' with [] => False | nxt :: _ => cmp x (fst nxt) < 0 end).
Proof.
  induction before as [|prv before IH]; intros cur rest x b' c' r'; cbn.
  - intros [= <- <- <-]. split; [reflexivity|]. split; [now left|].
    left. auto.
  - destruct (Z.ltb_spec (cmp x (fst cur)) 0) as [Hlt|Hge].
    + intros H. apply IH in H. destruct H as (Hzip & Hb & Hr).
      split; [|split; [assumption|]].
      * rewrite Hzip. cbn. now rewrite <- app_assoc.
      * right. destruct Hr as [(_ & _ & ->)|Hr]; assumption.
    + intros [= <- <- <-]. split; [reflexivity|]. split; [|left; auto].
      right. apply (cmp_ge_flip ucmp laws). lia.
Qed.

(** The sequence number in force at [x], read at the entry whose
    interval holds [x]. *)
Lemma seq_at_position (before : Rep) cur rest x :
  sorted ucmp (rev before ++ cur :: rest) ->
  cmp (fst cur) x <= 0 ->
  match rest with [] => True | nxt :: _ => cmp x (fst nxt) < 0 end ->
  seq_at ucmp 0 (rev before ++ cur :: rest) x = snd cur.
Proof.
  intros Hs Hcur Hnext.
  change (rev before ++ cur :: rest) with (rev before ++ [cur] ++ rest) in *.
  rewrite app_assoc in *.
  rewrite (seq_at_split ucmp laws _ (rev before ++ [cur]) rest x eq_refl).
  - unfold last_seq. rewrite (pick_app _ 0). reflexivity.
  - apply (sorted_app_inv ucmp) in Hs. destruct Hs as (Hs1 & _ & _).
    apply (sorted_app_inv ucmp) in Hs1. destruct Hs1 as (_ & _ & H).
    apply Forall_app. split.
    + apply Forall_forall. intros e He.
      assert (cmp (fst e) (fst cur) < 0) by (apply H; [assumption|now left]).
      apply (cmp_le_trans ucmp laws _ (fst cur)); lia.
    + repeat constructor. assumption.
  - apply (sorted_app_inv ucmp) in Hs. destruct Hs as (_ & Hs2 & _).
    destruct rest as [|nxt rest]; [constructor|].
    constructor; [assumption|].
    apply (sorted_cons_inv ucmp) in Hs2. destruct Hs2 as [_ Hall].
    eapply Forall_impl; [|exact Hall]. cbn. intros e He.
    now apply (cmp_lt_trans ucmp laws _ (fst nxt)).
Qed.

Lemma seq_at_in_front (rep : Rep) cur rest x :
  sorted ucmp rep -> rep = cur :: rest -> cmp x (fst cur) < 0 ->
  seq_at ucmp 0 rep x = 0.
Proof.
  intros Hs -> Hx.
  rewrite (seq_at_split ucmp laws (cur :: rest) [] (cur :: rest) x eq_refl);
    [reflexivity|constructor|].
  constructor; [assumption|].
  apply (sorted_cons_inv ucmp) in Hs. destruct Hs as [_ Hall].
  eapply Forall_impl; [|exact Hall]. cbn. intros e He.
  now apply (cmp_lt_trans ucmp laws _ (fst cur)).
Qed.

(** [finish] at an entry whose interval holds the key. *)
Lemma finish_at (m : t) (before : Rep) cur rest parsed :
  sorted ucmp (rep_ m) ->
  rep_ m = rev before ++ cur :: rest ->
  cmp (fst cur) (user_key parsed) <= 0 ->
  match rest with
  | [] => True
  | nxt :: _ => cmp (user_key parsed) (fst nxt) < 0
  end ->
  finish ucmp m cur rest parsed
  = Some (sequence parsed <? seq_at ucmp 0 (rep_ m) (user_key parsed),
          {| rep_ := rep_ m; iter_ := Some (fst cur) |}).
Proof.
  intros Hs Hrep Hcur Hnext. unfold finish, positioned.
  apply Z.leb_le in Hcur. rewrite Hcur. cbn [andb].
  assert (match rest with
          | [] => true
          | nxt :: _ => cmp (user_key parsed) (fst nxt) <? 0
          end = true) as ->.
  { destruct rest; [reflexivity|]. now apply Z.ltb_lt. }
  rewrite Hrep in Hs |- *.
  rewrite seq_at_position; auto. now apply Z.leb_le.
Qed.

(** Whatever [finish] answers is the answer of the map. *)
Lemma finish_answer (m : t) (before : Rep) cur rest parsed b m' :
  sorted ucmp (rep_ m) ->
  rep_ m = rev before ++ cur :: rest ->
  finish ucmp m cur rest parsed = Some (b, m') ->
  b = (sequence parsed <? seq_at ucmp 0 (rep_ m) (user_key parsed))
  /\ rep_ m' = rep_ m
  /\ cursor_for ucmp (rep_ m) (user_key parsed) (iter_ m').
Proof.
  intros Hs Hrep. unfold finish, positioned.
  destruct (Z.leb_spec (cmp (fst cur) (user_key parsed)) 0) as [Hcur|];
    [|discriminate].
  cbn [andb].
  destruct (match rest with
            | [] => true
            | nxt :: _ => cmp (user_key parsed) (fst nxt) <? 0
            end) eqn:Hnext; [|discriminate].
  assert (Hnext' : match rest with
                   | [] => True
                   | nxt :: _ => cmp (user_key parsed) (fst nxt) < 0
                   end).
  { destruct rest; [exact I|]. now apply Z.ltb_lt. }
  intros [= <- <-]. cbn [rep_ iter_]. split; [|split; [reflexivity|]].
  - rewrite Hrep in Hs |- *. now rewrite seq_at_position.
  - exists before, cur, rest. auto.
Qed.

Lemma reseek_forward (m : t) parsed :
  iter_ m = None ->
  ShouldDelete ucmp m parsed kForwardTraversal
  = ShouldDelete ucmp m parsed kBinarySearch.
Proof. intros H. unfold ShouldDelete. now rewrite H. Qed.

Lemma reseek_backward (m : t) parsed :
  iter_ m = None ->
  ShouldDelete ucmp m parsed kBackwardTraversal
  = ShouldDelete ucmp m parsed kBinarySearch.
Proof. intros H. unfold ShouldDelete. now rewrite H. Qed.

Lemma forward_step (m : t) c parsed :
  iter_ m = Some c ->
  ShouldDelete ucmp m parsed kForwardTraversal
  = match map_find rep_less (rep_ m) c with
    | Some (before, cur :: rest) =>
        if match before with [] => true | _ => false end
           && (cmp (user_key parsed) (fst cur) <? 0)
        then Some (false, m)
        else
          let '(_, cur', rest') :=
            advance ucmp before cur rest (user_key parsed) in
          finish ucmp m cur' rest' parsed
    | _ => None
    end.
Proof. intros H. unfold ShouldDelete. now rewrite H. Qed.

Lemma backward_step (m : t) c parsed :
  iter_ m = Some c ->
  ShouldDelete ucmp m parsed kBackwardTraversal
  = match map_find rep_less (rep_ m) c with
    | Some (before, cur :: rest) =>
        let '(before', cur', rest') :=
          retreat ucmp before cur rest (user_key parsed) in
        if match before' with [] => true | _ => false end
           && (cmp (user_key parsed) (fst cur') <? 0)
        then Some (false, {| rep_ := rep_ m; iter_ := Some (fst cur') |})
        else finish ucmp m cur' rest' parsed
    | _ => None
    end.
Proof. intros H. unfold ShouldDelete. now rewrite H. Qed.

Lemma false_answer (s : SequenceNumber) : 0 <= s -> false = (s <? 0).
Proof. intros H. symmetry. now apply Z.ltb_ge. Qed.

(** Keys that the map's order does not tell apart are the same key. *)
Lemma rep_less_eq (a b : Slice) :
  rep_less a b = false -> rep_less b a = false -> a = b.
Proof.
  unfold rep_less, LessOfComparator, BytewiseComparator. cbn [Compare].
  rewrite (String.compare_antisym a b).
  destruct (String.compare b a) eqn:Hc; cbn; try discriminate.
  intros _ _. symmetry. now apply String.compare_eq_iff.
Qed.

(** The cursor's key names one entry only: looking it up finds that
    entry or, in a map that is not in the map's own order, nothing. *)
Lemma find_from_named (L1 : Rep) :
  forall before (cur : Entry) rest,
    Forall (fun e => fst e <> fst cur) L1 ->
    find_from rep_less before (L1 ++ cur :: rest) (fst cur) = None
    \/ find_from rep_less before (L1 ++ cur :: rest) (fst cur)
       = Some (rev L1 ++ before, cur :: rest).
Proof.
  induction L1 as [|e L1 IH]; intros before cur rest H; cbn [app find_from].
  - right. destruct (rep_less (fst cur) (fst cur)) eqn:Hc.
    + unfold rep_less, LessOfComparator, BytewiseComparator in Hc.
      cbn [Compare] in Hc.
      rewrite string_compare_refl in Hc. discriminate.
    + reflexivity.
  - inversion H as [|? ? He HL]; subst.
    destruct (rep_less (fst cur) (fst e)) eqn:H1; [now left|].
    destruct (rep_less (fst e) (fst cur)) eqn:H2.
    + destruct (IH (e :: before) cur rest HL) as [Hn|Hf]; [left; exact Hn|].
      right. etransitivity; [exact Hf|]. cbn [rev].
      now rewrite <- app_assoc.
    + exfalso. apply He. symmetry. now apply rep_less_eq.
Qed.

Lemma map_find_named (before : Rep) (cur : Entry) rest :
  sorted ucmp (rev before ++ cur :: rest) ->
  map_find rep_less (rev before ++ cur :: rest) (fst cur) = None
  \/ map_find rep_less (rev before ++ cur :: rest) (fst cur)
     = Some (before, cur :: rest).
Proof.
  intros Hs. unfold map_find.
  destruct (find_from_named (rev before) [] cur rest) as [H|H].
  - apply (sorted_app_inv ucmp) in Hs. destruct Hs as (_ & _ & H).
    apply Forall_forall. intros e He Heq.
    assert (cmp (fst e) (fst cur) < 0) by (apply H; [assumption|now left]).
    rewrite Heq, (cmp_refl ucmp laws) in H0. lia.
  - now left.
  - right. rewrite H, rev_involutive, app_nil_r. reflexivity.
Qed.

(** X12: a forward traversal asked for a key below the cursor's entry,
    when that entry is not the first, moves nowhere and fails the
    assertion on the cursor's position. *)
Theorem forward_traversal_rejects_smaller_key (m : t) before cur rest parsed :
  sorted ucmp (rep_ m) ->
  rep_ m = rev before ++ cur :: rest ->
  before <> [] ->
  iter_ m = Some (fst cur) ->
  cmp (user_key parsed) (fst cur) < 0 ->
  ShouldDelete ucmp m parsed kForwardTraversal = None.
Proof.
  intros Hs Hrep Hne Hit Hlt.
  rewrite (forward_step m (fst cur)) by assumption.
  assert (Hfind : map_find rep_less (rep_ m) (fst cur) = None
                  \/ map_find rep_less (rep_ m) (fst cur)
                     = Some (before, cur :: rest)).
  { rewrite Hrep. apply map_find_named. now rewrite <- Hrep. }
  destruct Hfind as [Hfind|Hfind]; rewrite Hfind; [reflexivity|].
  clear Hfind.
  destruct before as [|prv before]; [contradiction|]. cbn [andb].
  assert (Hadv : advance ucmp (prv :: before) cur rest (user_key parsed)
                 = (prv :: before, cur, rest)).
  { destruct rest as [|nxt rest]; [reflexivity|]. cbn.
    pose proof Hs as Hs'. rewrite Hrep in Hs'.
    apply (sorted_app_inv ucmp) in Hs'. destruct Hs' as (_ & Hs2 & _).
    apply (sorted_cons_inv ucmp) in Hs2. destruct Hs2 as [_ Hall].
    inversion Hall as [|? ? Hn _]; subst.
    assert (cmp (user_key parsed) (fst nxt) < 0)
      by now apply (cmp_lt_trans ucmp laws _ (fst cur)).
    apply (cmp_flip ucmp laws) in H.
    destruct (Z.leb_spec (cmp (fst nxt) (user_key parsed)) 0); [lia|reflexivity]. }
  rewrite Hadv. unfold finish, positioned.
  apply (cmp_flip ucmp laws) in Hlt.
  destruct (Z.leb_spec (cmp (fst cur) (user_key parsed)) 0); [lia|reflexivity].
Qed.
(** What follows is for a user comparator that orders the keys as the
    map does. *)
Hypothesis order : orders_as_rep ucmp.

Local Abbreviation less := (LessOfComparator ucmp).

Lemma find_from_entry (L1 : Rep) :
  forall before cur rest,
    Forall (fun e => cmp (fst e) (fst cur) < 0) L1 ->
    find_from less before (L1 ++ cur :: rest) (fst cur)
    = Some (rev L1 ++ before, cur :: rest).
Proof.
  induction L1 as [|e L1 IH]; intros before cur rest H; cbn.
  - assert (less (fst cur) (fst cur) = false) as ->.
    { apply (less_false ucmp laws). rewrite (cmp_refl ucmp laws). lia. }
    reflexivity.
  - inversion H as [|? ? He HL]; subst.
    assert (less (fst cur) (fst e) = false) as ->.
    { apply (less_false ucmp laws). lia. }
    assert (less (fst e) (fst cur) = true) as ->.
    { now apply (less_true ucmp). }
    rewrite IH by assumption. now rewrite <- app_assoc.
Qed.

(** In a sorted map the cursor finds the entry it names. *)
Lemma map_find_entry (before : Rep) cur rest :
  sorted ucmp (rev before ++ cur :: rest) ->
  map_find rep_less (rev before ++ cur :: rest) (fst cur)
  = Some (before, cur :: rest).
Proof.
  intros Hs. rewrite (map_find_order ucmp order).
  unfold map_find. rewrite find_from_entry.
  - now rewrite rev_involutive, app_nil_r.
  - apply (sorted_app_inv ucmp) in Hs. destruct Hs as (_ & _ & H).
    apply Forall_forall. intros e He. apply H; [assumption|now left].
Qed.

Lemma binary_search_answer (m : t) parsed :
  sorted ucmp (rep_ m) -> 0 <= sequence parsed ->
  exists it,
    ShouldDelete ucmp m parsed kBinarySearch
    = Some (sequence parsed <? seq_at ucmp 0 (rep_ m) (user_key parsed),
            {| rep_ := rep_ m; iter_ := it |})
    /\ cursor_for ucmp (rep_ m) (user_key parsed) it.
Proof.
  intros Hs Hnn.
  destruct (upper_bound_sorted ucmp laws (rep_ m) (user_key parsed) Hs)
    as (L1 & L2 & HM & H1 & H2).
  assert (Hmode : ShouldDelete ucmp m parsed kBinarySearch
                  = match upper_bound rep_less (rep_ m) (user_key parsed) with
                    | ([], after) =>
                        Some (false, {| rep_ := rep_ m; iter_ := key_at after |})
                    | (cur :: _, after) => finish ucmp m cur after parsed
                    end).
  { unfold ShouldDelete. now destruct (iter_ m). }
  assert (Hub : upper_bound rep_less (rep_ m) (user_key parsed) = (rev L1, L2)).
  { rewrite (upper_bound_order ucmp order), HM.
    now apply (upper_bound_app ucmp laws). }
  rewrite Hmode, Hub. clear Hmode Hub.
  destruct (rev L1) as [|cur l] eqn:Hrev.
  - apply (f_equal (@rev Entry)) in Hrev. rewrite rev_involutive in Hrev.
    cbn in Hrev. subst L1. cbn [app] in HM.
    exists (key_at L2). split.
    + destruct L2 as [|e L2].
      * rewrite HM. cbn. do 2 f_equal. symmetry. now apply Z.ltb_ge.
      * inversion H2 as [|? ? He _]; subst.
        rewrite (seq_at_in_front (rep_ m) e L2) by assumption.
        do 2 f_equal. symmetry. now apply Z.ltb_ge.
    + destruct L2 as [|e L2]; [exact HM|]. cbn.
      inversion H2 as [|? ? He _]; subst.
      exists [], e, L2. cbn. auto.
  - apply (f_equal (@rev Entry)) in Hrev. rewrite rev_involutive in Hrev.
    cbn [rev] in Hrev. subst L1. rewrite <- app_assoc in HM. cbn [app] in HM.
    apply Forall_app in H1. destruct H1 as [_ Hcur].
    inversion Hcur as [|? ? Hc _]; subst.
    assert (Hnext : match L2 with
                    | [] => True
                    | nxt :: _ => cmp (user_key parsed) (fst nxt) < 0
                    end).
    { destruct L2; [exact I|]. now inversion H2. }
    exists (Some (fst cur)). split.
    + now apply (finish_at m l).
    + exists l, cur, L2. auto.
Qed.

(** X8: when the user comparator orders the keys as the map does, on a
    map with ascending keys, whichever positioning mode is asked for and
    wherever the cursor stands, an answer of [ShouldDelete] is the
    answer of the map: the key is deleted exactly when its sequence
    number is below the one in force at its user key; the entries are
    left as they were. *)
Theorem positioning_answers_are_sound (m m' : t) parsed mode b :
  sorted ucmp (rep_ m) -> 0 <= sequence parsed ->
  ShouldDelete ucmp m parsed mode = Some (b, m') ->
  b = (sequence parsed <? seq_at ucmp 0 (rep_ m) (user_key parsed))
  /\ rep_ m' = rep_ m.
Proof.
  intros Hs Hnn.
  assert (Hbin : ShouldDelete ucmp m parsed kBinarySearch = Some (b, m') ->
                 b = (sequence parsed <? seq_at ucmp 0 (rep_ m) (user_key parsed))
                 /\ rep_ m' = rep_ m).
  { destruct (binary_search_answer m parsed Hs Hnn) as (it & -> & _).
    intros [= <- <-]. auto. }
  destruct mode.
  - unfold ShouldDelete. destruct (iter_ m); discriminate.
  - destruct (iter_ m) as [c|] eqn:Hit.
    2:{ rewrite reseek_forward by assumption. exact Hbin. }
    rewrite (forward_step m c) by assumption.
    destruct (map_find rep_less (rep_ m) c) as [[before [|cur rest]]|] eqn:Hfind;
      try discriminate.
    apply find_from_split in Hfind. destruct Hfind as [Hrep _].
    cbn [rev app] in Hrep. symmetry in Hrep.
    destruct before as [|prv before]; cbn [andb].
    + destruct (Z.ltb_spec (cmp (user_key parsed) (fst cur)) 0) as [Hlt|Hge].
      * intros [= <- <-]. split; [|reflexivity].
        rewrite (seq_at_in_front (rep_ m) cur rest) by assumption.
        now apply false_answer.
      * match goal with
    | |- context [advance ?u ?b0 ?c0 ?r0 ?k0] =>
        destruct (advance u b0 c0 r0 k0) as [[b' c'] r'] eqn:Hadv
    end.
        apply advance_spec in Hadv. destruct Hadv as (Hzip & _ & _).
        intros H. eapply finish_answer in H;
          [|assumption|etransitivity; [exact Hrep|symmetry; exact Hzip]].
        tauto.
    + match goal with
    | |- context [advance ?u ?b0 ?c0 ?r0 ?k0] =>
        destruct (advance u b0 c0 r0 k0) as [[b' c'] r'] eqn:Hadv
    end.
      apply advance_spec in Hadv. destruct Hadv as (Hzip & _ & _).
      intros H. eapply finish_answer in H;
        [|assumption|etransitivity; [exact Hrep|symmetry; exact Hzip]].
      tauto.
  - destruct (iter_ m) as [c|] eqn:Hit.
    2:{ rewrite reseek_backward by assumption. exact Hbin. }
    rewrite (backward_step m c) by assumption.
    destruct (map_find rep_less (rep_ m) c) as [[before [|cur rest]]|] eqn:Hfind;
      try discriminate.
    apply find_from_split in Hfind. destruct Hfind as [Hrep _].
    cbn [rev app] in Hrep. symmetry in Hrep.
    match goal with
    | |- context [retreat ?u ?b0 ?c0 ?r0 ?k0] =>
        destruct (retreat u b0 c0 r0 k0) as [[b' c'] r'] eqn:Hret
    end.
    apply retreat_spec in Hret. destruct Hret as (Hzip & _ & _).
    destruct b' as [|prv b']; cbn [andb].
    + destruct (Z.ltb_spec (cmp (user_key parsed) (fst c')) 0) as [Hlt|Hge].
      * intros [= <- <-]. split; [|reflexivity].
        rewrite (seq_at_in_front (rep_ m) c' r');
          [now apply false_answer|assumption| |assumption].
        etransitivity; [exact Hrep|symmetry; exact Hzip].
      * intros H. eapply finish_answer in H;
          [|assumption|etransitivity; [exact Hrep|symmetry; exact Hzip]].
        tauto.
    + intros H. eapply finish_answer in H;
        [|assumption|etransitivity; [exact Hrep|symmetry; exact Hzip]].
      tauto.
  - exact Hbin.
Qed.

(** X9: when the user comparator orders the keys as the map does, a
    binary search on a map with ascending keys never trips an assertion:
    it answers, with the answer of the map, and leaves the cursor on the
    entry whose interval holds the key, on the first entry when the key
    lies in front of it, and at [end()] only when the map is empty. *)
Theorem binary_search_answers (m : t) parsed :
  sorted ucmp (rep_ m) -> 0 <= sequence parsed ->
  exists it,
    ShouldDelete ucmp m parsed kBinarySearch
    = Some (sequence parsed <? seq_at ucmp 0 (rep_ m) (user_key parsed),
            {| rep_ := rep_ m; iter_ := it |})
    /\ cursor_for ucmp (rep_ m) (user_key parsed) it.
Proof. exact (binary_search_answer m parsed). Qed.

(** X10: when the user comparator orders the keys as the map does, on
    a map with ascending keys a forward traversal whose cursor is at
    [end()] or where a call for [x0] left it answers, with the answer of
    the map, for every key that is not below [x0], and leaves the cursor
    where a call for that key leaves it (at [end()] only when the map is
    empty). *)
Theorem forward_traversal_answers (m : t) (x0 : Slice) parsed :
  sorted ucmp (rep_ m) -> 0 <= sequence parsed ->
  iter_ m = None \/ cursor_for ucmp (rep_ m) x0 (iter_ m) ->
  cmp x0 (user_key parsed) <= 0 ->
  exists it,
    ShouldDelete ucmp m parsed kForwardTraversal
    = Some (sequence parsed <? seq_at ucmp 0 (rep_ m) (user_key parsed),
            {| rep_ := rep_ m; iter_ := it |})
    /\ cursor_for ucmp (rep_ m) (user_key parsed) it.
Proof.
  intros Hs Hnn Hcur Hle.
  destruct (iter_ m) as [c|] eqn:Hit.
  2:{ rewrite reseek_forward by assumption. now apply binary_search_answer. }
  destruct Hcur as [Hnone|Hcur]; [discriminate|].
  destruct Hcur as (before & cur & rest & Hrep & Hc & Hpos). subst c.
  rewrite (forward_step m (fst cur)) by assumption.
  assert (Hfind : map_find rep_less (rep_ m) (fst cur)
                  = Some (before, cur :: rest)).
  { rewrite Hrep. apply map_find_entry. now rewrite <- Hrep. }
  rewrite Hfind. clear Hfind.
  match goal with
  | |- context [if ?c then _ else _] => destruct c eqn:Hfront
  end.
  - apply andb_true_iff in Hfront. destruct Hfront as [Hb Hlt].
    destruct before; [|discriminate]. apply Z.ltb_lt in Hlt.
    exists (Some (fst cur)). split.
    + rewrite (seq_at_in_front (rep_ m) cur rest) by assumption.
      rewrite <- (false_answer (sequence parsed) Hnn).
      destruct m as [r i]. cbn [rep_ iter_] in *. rewrite Hit. reflexivity.
    + exists [], cur, rest. auto.
  - match goal with
    | |- context [advance ?u ?b0 ?c0 ?r0 ?k0] =>
        destruct (advance u b0 c0 r0 k0) as [[b' c'] r'] eqn:Hadv
    end.
    apply advance_spec in Hadv. destruct Hadv as (Hzip & Hnext & Hmoved).
    assert (Hc' : cmp (fst c') (user_key parsed) <= 0).
    { destruct Hmoved as [[-> ->]|]; [|assumption].
      destruct Hpos as [[Hx0 _]|[-> Hx0]].
      - now apply (cmp_le_trans ucmp laws _ x0).
      - cbn [andb] in Hfront. apply Z.ltb_ge in Hfront.
        apply (cmp_ge_flip ucmp laws) in Hfront. exact Hfront. }
    exists (Some (fst c')). split.
    + apply (finish_at m b'); try assumption.
      etransitivity; [exact Hrep|symmetry; exact Hzip].
    + exists b', c', r'. split; [etransitivity; [exact Hrep|symmetry; exact Hzip]|]. auto.
Qed.

(** X11: when the user comparator orders the keys as the map does, on
    a map with ascending keys a backward traversal whose cursor is at
    [end()] or where a call for [x0] left it answers, with the answer of
    the map, for every key that is not above [x0], and leaves the cursor
    where a call for that key leaves it (at [end()] only when the map is
    empty). *)
Theorem backward_traversal_answers (m : t) (x0 : Slice) parsed :
  sorted ucmp (rep_ m) -> 0 <= sequence parsed ->
  iter_ m = None \/ cursor_for ucmp (rep_ m) x0 (iter_ m) ->
  cmp (user_key parsed) x0 <= 0 ->
  exists it,
    ShouldDelete ucmp m parsed kBackwardTraversal
    = Some (sequence parsed <? seq_at ucmp 0 (rep_ m) (user_key parsed),
            {| rep_ := rep_ m; iter_ := it |})
    /\ cursor_for ucmp (rep_ m) (user_key parsed) it.
Proof.
  intros Hs Hnn Hcur Hle.
  destruct (iter_ m) as [c|] eqn:Hit.
  2:{ rewrite reseek_backward by assumption. now apply binary_search_answer. }
  destruct Hcur as [Hnone|Hcur]; [discriminate|].
  destruct Hcur as (before & cur & rest & Hrep & Hc & Hpos). subst c.
  rewrite (backward_step m (fst cur)) by assumption.
  assert (Hfind : map_find rep_less (rep_ m) (fst cur)
                  = Some (before, cur :: rest)).
  { rewrite Hrep. apply map_find_entry. now rewrite <- Hrep. }
  rewrite Hfind. clear Hfind.
  match goal with
    | |- context [retreat ?u ?b0 ?c0 ?r0 ?k0] =>
        destruct (retreat u b0 c0 r0 k0) as [[b' c'] r'] eqn:Hret
    end.
  apply retreat_spec in Hret. destruct Hret as (Hzip & Hfirst & Hmoved).
  match goal with
  | |- context [if ?c then _ else _] => destruct c eqn:Hfront
  end.
  - apply andb_true_iff in Hfront. destruct Hfront as [Hb Hlt].
    destruct b'; [|discriminate]. apply Z.ltb_lt in Hlt.
    exists (Some (fst c')). split.
    + rewrite (seq_at_in_front (rep_ m) c' r');
        [now rewrite <- (false_answer (sequence parsed) Hnn)|assumption| |assumption].
      etransitivity; [exact Hrep|symmetry; exact Hzip].
    + exists [], c', r'. split; [etransitivity; [exact Hrep|symmetry; exact Hzip]|]. auto.
  - assert (Hc' : cmp (fst c') (user_key parsed) <= 0).
    { destruct Hfirst as [->|]; [|assumption].
      cbn [andb] in Hfront. apply Z.ltb_ge in Hfront.
      apply (cmp_ge_flip ucmp laws) in Hfront. exact Hfront. }
    assert (Hnext : match r' with
                    | [] => True
                    | nxt :: _ => cmp (user_key parsed) (fst nxt) < 0
                    end).
    { destruct Hmoved as [(-> & -> & ->)|H].
      - destruct Hpos as [[_ Hn]|[-> Hx0]].
        + destruct rest as [|nxt rest]; [exact I|].
          now apply (cmp_le_lt_trans ucmp laws _ x0).
        + cbn [andb] in Hfront. apply Z.ltb_ge in Hfront.
          assert (cmp (user_key parsed) (fst cur) < 0)
            by now apply (cmp_le_lt_trans ucmp laws _ x0).
          lia.
      - destruct r'; [contradiction|assumption]. }
    exists (Some (fst c')). split.
    + apply (finish_at m b'); try assumption.
      etransitivity; [exact Hrep|symmetry; exact Hzip].
    + exists b', c', r'. split; [etransitivity; [exact Hrep|symmetry; exact Hzip]|]. auto.
Qed.

End PositioningModes.

Section PositioningModesWitnesses.
Local Open Scope string_scope.
Import CollapsedRangeDelMap.

Lemma positioning_answers_are_sound_witness :
  let m := {| rep_ := collapse [tomb "a" "c" 5; tomb "e" "g" 7];
              iter_ := Some "a" |} in
  true = (3 <? seq_at BytewiseComparator 0 (rep_ m) "f")%Z
  /\ rep_ {| rep_ := rep_ m; iter_ := Some "e" |} = rep_ m.
Proof.
  apply (positioning_answers_are_sound BytewiseComparator BytewiseComparator_laws
           BytewiseComparator_order
           {| rep_ := collapse [tomb "a" "c" 5; tomb "e" "g" 7];
              iter_ := Some "a" |}
           {| rep_ := collapse [tomb "a" "c" 5; tomb "e" "g" 7];
              iter_ := Some "e" |}
           (pik "f" 3) kForwardTraversal true).
  - repeat constructor.
  - discriminate.
  - reflexivity.
Defined.

Lemma binary_search_answers_witness :
  let m := fresh (collapse [tomb "a" "c" 5; tomb "e" "g" 7]) in
  exists it,
    ShouldDelete BytewiseComparator m (pik "f" 3) kBinarySearch
    = Some ((3 <? seq_at BytewiseComparator 0 (rep_ m) "f")%Z,
            {| rep_ := rep_ m; iter_ := it |})
    /\ cursor_for BytewiseComparator (rep_ m) "f" it.
Proof.
  apply (binary_search_answers BytewiseComparator BytewiseComparator_laws
           BytewiseComparator_order
           (fresh (collapse [tomb "a" "c" 5; tomb "e" "g" 7])) (pik "f" 3)).
  - repeat constructor.
  - discriminate.
Defined.

Lemma forward_traversal_answers_witness :
  let m := {| rep_ := collapse [tomb "a" "c" 5; tomb "e" "g" 7];
              iter_ := Some "a" |} in
  exists it,
    ShouldDelete BytewiseComparator m (pik "f" 3) kForwardTraversal
    = Some ((3 <? seq_at BytewiseComparator 0 (rep_ m) "f")%Z,
            {| rep_ := rep_ m; iter_ := it |})
    /\ cursor_for BytewiseComparator (rep_ m) "f" it.
Proof.
  apply (forward_traversal_answers BytewiseComparator BytewiseComparator_laws
           BytewiseComparator_order
           {| rep_ := collapse [tomb "a" "c" 5; tomb "e" "g" 7];
              iter_ := Some "a" |}
           "b" (pik "f" 3)).
  - repeat constructor.
  - discriminate.
  - right. exists [], ("a", 5), [("c", 0); ("e", 7); ("g", 0)].
    split; [reflexivity|]. split; [reflexivity|].
    left. split; [discriminate|reflexivity].
  - discriminate.
Defined.

Lemma backward_traversal_answers_witness :
  let m := {| rep_ := collapse [tomb "a" "c" 5; tomb "e" "g" 7];
              iter_ := Some "e" |} in
  exists it,
    ShouldDelete BytewiseComparator m (pik "b" 3) kBackwardTraversal
    = Some ((3 <? seq_at BytewiseComparator 0 (rep_ m) "b")%Z,
            {| rep_ := rep_ m; iter_ := it |})
    /\ cursor_for BytewiseComparator (rep_ m) "b" it.
Proof.
  apply (backward_traversal_answers BytewiseComparator BytewiseComparator_laws
           BytewiseComparator_order
           {| rep_ := collapse [tomb "a" "c" 5; tomb "e" "g" 7];
              iter_ := Some "e" |}
           "f" (pik "b" 3)).
  - repeat constructor.
  - discriminate.
  - right. exists [("c", 0); ("a", 5)], ("e", 7), [("g", 0)].
    split; [reflexivity|]. split; [reflexivity|].
    left. split; [discriminate|reflexivity].
  - discriminate.
Defined.

Lemma forward_traversal_rejects_smaller_key_witness :
  ShouldDelete BytewiseComparator
    {| rep_ := collapse [tomb "a" "c" 5; tomb "e" "g" 7]; iter_ := Some "e" |}
    (pik "b" 3) kForwardTraversal
  = None.
Proof.
  apply (forward_traversal_rejects_smaller_key BytewiseComparator
           BytewiseComparator_laws
           {| rep_ := collapse [tomb "a" "c" 5; tomb "e" "g" 7];
              iter_ := Some "e" |}
           [("c", 0); ("a", 5)] ("e", 7) [("g", 0)] (pik "b" 3)).
  - repeat constructor.
  - reflexivity.
  - discriminate.
  - reflexivity.
  - reflexivity.
Defined.
End PositioningModesWitnesses.

(** ** The iterator of the collapsed map *)

Section IteratorLaws.
Import CollapsedRangeDelMap.
Variable ucmp : Comparator.
Hypothesis laws : ComparatorLaws ucmp.

Local Abbreviation cmp := (Compare ucmp).
Local Abbreviation less := (LessOfComparator ucmp).

Lemma emitted_pair first (e nxt : Entry) (it : list Entry) :
  emitted first (e :: nxt :: it)
  = if first || negb (snd e =? 0)
    then {| start_key_ := fst e; end_key_ := fst nxt; seq_ := snd e |}
         :: emitted false (nxt :: it)
    else emitted false (nxt :: it).
Proof. reflexivity. Qed.

Lemma SeekPastSentinels_pair (e nxt : Entry) (it : list Entry) :
  SeekPastSentinels (e :: nxt :: it)
  = if snd e =? 0 then SeekPastSentinels (nxt :: it) else e :: nxt :: it.
Proof. reflexivity. Qed.

Lemma emitted_SeekPastSentinels (it : list Entry) :
  emitted true (SeekPastSentinels it) = emitted false it.
Proof.
  induction it as [|e it IH]; [reflexivity|].
  destruct it as [|nxt it]; [reflexivity|].
  rewrite SeekPastSentinels_pair, (emitted_pair false).
  destruct (snd e =? 0) eqn:He; cbn [negb orb].
  - exact IH.
  - rewrite emitted_pair, He. reflexivity.
Qed.

Lemma drain_emitted (fuel : nat) :
  forall it : list Entry,
    (List.length it <= fuel)%nat -> drain fuel it = Some (emitted true it).
Proof.
  induction fuel as [|fuel IH]; intros it Hlen.
  - destruct it; [reflexivity|cbn in Hlen; lia].
  - destruct it as [|e [|nxt it]]; try reflexivity.
    cbn [drain Tombstone]. unfold Next. cbn [tl].
    rewrite IH.
    + rewrite emitted_SeekPastSentinels. reflexivity.
    + pose proof (SeekPastSentinels_length (nxt :: it)).
      cbn [List.length] in *. lia.
Qed.

Lemma Tombstones_emitted (rep : Rep) :
  Tombstones rep = Some (emitted true rep).
Proof. apply drain_emitted. unfold NewIterator. lia. Qed.

Lemma cover_fold (x : Slice) (S : list RangeTombstone) :
  forall a, 0 <= a ->
    fold_left (fun acc t => if covers ucmp t x then Z.max acc (seq_ t) else acc)
      S a
    = Z.max a (cover_seq ucmp S x).
Proof.
  unfold cover_seq. induction S as [|t S IH]; intros a Ha; cbn [fold_left].
  - lia.
  - destruct (covers ucmp t x).
    + rewrite (IH (Z.max a (seq_ t))) by lia.
      rewrite (IH (Z.max 0 (seq_ t))) by lia. lia.
    + now apply IH.
Qed.

Lemma cover_seq_cons (x : Slice) t (S : list RangeTombstone) :
  cover_seq ucmp (t :: S) x
  = Z.max (if covers ucmp t x then Z.max 0 (seq_ t) else 0) (cover_seq ucmp S x).
Proof.
  unfold cover_seq at 1. cbn [fold_left].
  destruct (covers ucmp t x); apply cover_fold; lia.
Qed.

Lemma seq_at_cons acc (e : Entry) (it : list Entry) x :
  seq_at ucmp acc (e :: it) x
  = seq_at ucmp (if cmp (fst e) x <=? 0 then snd e else acc) it x.
Proof. reflexivity. Qed.

(** In front of all keys nothing is in force. *)
Lemma seq_at_front acc (it : list Entry) x :
  Forall (fun e => cmp x (fst e) < 0) it -> seq_at ucmp acc it x = acc.
Proof.
  intros H. unfold seq_at. apply pick_none.
  eapply Forall_impl; [|exact H]. cbn. intros e He.
  apply Z.leb_gt. now apply (cmp_flip ucmp laws).
Qed.

(** From a selected entry on, the value carried in does not matter. *)
Lemma seq_at_acc (it : list Entry) x :
  forall acc acc' (e : Entry),
    cmp (fst e) x <= 0 -> 
    seq_at ucmp acc (e :: it) x = seq_at ucmp acc' (e :: it) x.
Proof.
  intros acc acc' e He. rewrite !seq_at_cons.
  apply Z.leb_le in He. now rewrite He.
Qed.

Lemma emitted_false_front (it : list Entry) x :
  sorted ucmp it ->
  Forall (fun e => cmp x (fst e) < 0) it ->
  forall first, cover_seq ucmp (emitted first it) x = 0.
Proof.
  induction it as [|e it IH]; intros Hs Hx first; [reflexivity|].
  destruct it as [|nxt it]; [reflexivity|].
  apply (sorted_cons_inv ucmp) in Hs. destruct Hs as [Hs _].
  inversion Hx as [|? ? He Hx']; subst.
  rewrite emitted_pair.
  destruct (first || negb (snd e =? 0)).
  - rewrite cover_seq_cons. unfold covers. cbn [start_key_ end_key_].
    apply (cmp_flip ucmp laws) in He.
    destruct (Z.leb_spec (cmp (fst e) x) 0); [lia|]. cbn [andb].
    rewrite (IH Hs Hx' false). reflexivity.
  - now apply IH.
Qed.

Lemma emitted_cover (it : list Entry) :
  sorted ucmp it ->
  Forall (fun e => 0 <= snd e) it ->
  last_seq 0 it = 0 ->
  forall first x,
    cover_seq ucmp (emitted first it) x = seq_at ucmp 0 it x.
Proof.
  induction it as [|e it IH]; intros Hs Hnn Hlast first x; [reflexivity|].
  pose proof Hs as Hs0.
  apply (sorted_cons_inv ucmp) in Hs. destruct Hs as [Hs Hall].
  inversion Hnn as [|? ? He Hnn']; subst.
  destruct it as [|nxt it].
  - cbn in Hlast. cbn. rewrite Hlast. now destruct (cmp (fst e) x <=? 0).
  - assert (Hlast' : last_seq 0 (nxt :: it) = 0).
    { exact Hlast. }
    specialize (IH Hs Hnn' Hlast' false).
    inversion Hall as [|? ? Hen Hall']; subst.
    destruct (Z.leb_spec (cmp (fst nxt) x) 0) as [Hin|Hout].
    + (* the key lies at or behind the next entry *)
      rewrite (seq_at_cons 0 e), (seq_at_acc it x _ 0 nxt Hin), <- IH.
      rewrite emitted_pair.
      assert (Hnc : covers ucmp {| start_key_ := fst e; end_key_ := fst nxt;
                                  seq_ := snd e |} x = false).
      { unfold covers. cbn [start_key_ end_key_].
        apply (cmp_ge_flip ucmp laws) in Hin.
        destruct (Z.ltb_spec (cmp x (fst nxt)) 0); [lia|].
        apply andb_false_r. }
      destruct (first || negb (snd e =? 0)); [|reflexivity].
      rewrite cover_seq_cons, Hnc.
      pose proof (cover_fold x (emitted false (nxt :: it)) 0 (Z.le_refl 0)) as Hf.
      unfold cover_seq in Hf at 1. fold (cover_seq ucmp (emitted false (nxt :: it)) x) in Hf.
      lia.
    + (* the key lies in front of the next entry *)
      assert (Hfront : Forall (fun e0 : Entry => cmp x (fst e0) < 0) (nxt :: it)).
      { apply (cmp_flip ucmp laws) in Hout. constructor; [lia|].
        apply (sorted_cons_inv ucmp) in Hs. destruct Hs as [_ Hn].
        eapply Forall_impl; [|exact Hn]. cbn. intros e0 He0.
        apply (cmp_lt_trans ucmp laws _ (fst nxt)); [lia|assumption]. }
      rewrite seq_at_cons, seq_at_front by assumption.
      rewrite emitted_pair.
      destruct (first || negb (snd e =? 0)) eqn:Hemit.
      * rewrite cover_seq_cons, (emitted_false_front _ x Hs Hfront false).
        unfold covers. cbn [start_key_ end_key_ seq_].
        apply (cmp_flip ucmp laws) in Hout.
        destruct (Z.ltb_spec (cmp x (fst nxt)) 0); [|lia].
        rewrite andb_true_r.
        destruct (cmp (fst e) x <=? 0); lia.
      * rewrite (emitted_false_front _ x Hs Hfront false).
        apply orb_false_iff in Hemit. destruct Hemit as [_ Hz].
        apply negb_false_iff, Z.eqb_eq in Hz. rewrite Hz.
        now destruct (cmp (fst e) x <=? 0).
Qed.

(** What follows is for a user comparator that orders the keys as the
    map does. *)
Hypothesis order : orders_as_rep ucmp.

Lemma fold_AddTombstone_facts (S : list RangeTombstone) :
  forall M : Rep,
    sorted ucmp M ->
    Forall (fun e => 0 <= snd e) M ->
    Forall (fun t => 0 <= seq_ t) S ->
    Forall (fun e => 0 <= snd e) (fold_left (AddTombstone ucmp) S M).
Proof.
  induction S as [|t S IH]; intros M Hs HM HS; [assumption|].
  inversion HS as [|? ? Ht HS']; subst. cbn [fold_left].
  apply IH; [now apply (AddTombstone_sorted ucmp laws order)| |assumption].
  apply (AddTombstone_values ucmp laws order (fun v => 0 <= v)); auto. lia.
Qed.

Lemma emitted_bounds (it : list Entry) :
  forall (e : Entry) first,
    sorted ucmp (e :: it) ->
    Forall (fun t => cmp (fst e) (start_key_ t) <= 0
                     /\ cmp (start_key_ t) (end_key_ t) < 0)
      (emitted first (e :: it)).
Proof.
  induction it as [|nxt it IH]; intros e first Hs; [constructor|].
  rewrite emitted_pair.
  apply (sorted_cons_inv ucmp) in Hs. destruct Hs as [Hs Hall].
  inversion Hall as [|? ? Hen _]; subst.
  assert (Htail : Forall (fun t => cmp (fst e) (start_key_ t) <= 0
                                   /\ cmp (start_key_ t) (end_key_ t) < 0)
                    (emitted false (nxt :: it))).
  { eapply Forall_impl; [|exact (IH nxt false Hs)]. cbn.
    intros t [Ht1 Ht2]. split; [|assumption].
    apply (cmp_le_trans ucmp laws _ (fst nxt)); [lia|assumption]. }
  destruct (first || negb (snd e =? 0)); [|assumption].
  constructor; [|assumption]. cbn [start_key_ end_key_].
  split; [|assumption]. rewrite (cmp_refl ucmp laws). lia.
Qed.

Lemma emitted_disjoint (it : list Entry) :
  forall first,
    sorted ucmp it ->
    StronglySorted (fun a b => cmp (end_key_ a) (start_key_ b) <= 0)
      (emitted first it).
Proof.
  induction it as [|e it IH]; intros first Hs; [constructor|].
  destruct it as [|nxt it]; [constructor|].
  rewrite emitted_pair.
  apply (sorted_cons_inv ucmp) in Hs. destruct Hs as [Hs _].
  destruct (first || negb (snd e =? 0)); [|now apply IH].
  constructor; [now apply IH|]. cbn [end_key_].
  eapply Forall_impl; [|exact (emitted_bounds it nxt false Hs)].
  cbn. tauto.
Qed.

Lemma emitted_no_sentinel (it : list Entry) :
  Forall (fun t => seq_ t <> 0) (emitted false it).
Proof.
  induction it as [|e it IH]; [constructor|].
  destruct it as [|nxt it]; [constructor|].
  rewrite emitted_pair. cbn [orb].
  destruct (Z.eqb_spec (snd e) 0); cbn [negb]; [assumption|].
  constructor; assumption.
Qed.

Lemma SeekPastSentinels_suffix (it : list Entry) :
  exists skipped, it = skipped ++ SeekPastSentinels it.
Proof.
  induction it as [|e it IH]; [now exists []|].
  destruct it as [|nxt it]; [now exists []|].
  rewrite SeekPastSentinels_pair.
  destruct (snd e =? 0); [|now exists []].
  destruct IH as [skipped Heq]. exists (e :: skipped). cbn. now f_equal.
Qed.

Lemma SeekPastSentinels_stops (it : list Entry) t :
  Tombstone (SeekPastSentinels it) = Some t -> seq_ t <> 0.
Proof.
  induction it as [|e it IH]; [discriminate|].
  destruct it as [|nxt it]; [discriminate|].
  rewrite SeekPastSentinels_pair.
  destruct (Z.eqb_spec (snd e) 0) as [|Hne]; [exact IH|].
  cbn. intros [= <-]. exact Hne.
Qed.

(** X13: on a map with ascending keys, sequence numbers that are not
    negative and a sentinel at the end, draining the iterator yields
    tombstones that cover every key at the sequence number the map holds
    for it. *)
Theorem iterator_yields_the_map (rep : Rep) :
  sorted ucmp rep ->
  Forall (fun e => 0 <= snd e) rep ->
  last_seq 0 rep = 0 ->
  exists out,
    Tombstones rep = Some out
    /\ forall x, cover_seq ucmp out x = seq_at ucmp 0 rep x.
Proof.
  intros Hs Hnn Hlast. exists (emitted true rep).
  split; [apply Tombstones_emitted|]. intros x. now apply emitted_cover.
Qed.

(** X14: when the user comparator orders the keys as the map does,
    adding tombstones and reading them back through the iterator keeps
    the coverage: for tombstones with start < end and positive sequence
    numbers, no two of the same sequence number overlapping, the
    tombstones the iterator yields cover every key at the highest
    sequence number of an added tombstone covering it. *)
Theorem iterator_round_trip (S : list RangeTombstone) :
  proper ucmp S ->
  exists out,
    Tombstones (fold_left (AddTombstone ucmp) S []) = Some out
    /\ forall x, cover_seq ucmp out x = cover_seq ucmp S x.
Proof.
  intros HS.
  destruct (collapse_invariant ucmp laws order S HS) as (Hs & Hlast & Hcov).
  exists (emitted true (fold_left (AddTombstone ucmp) S [])).
  split; [apply Tombstones_emitted|]. intros x.
  rewrite <- Hcov. apply emitted_cover; try assumption.
  apply fold_AddTombstone_facts; [constructor|constructor|].
  destruct HS as (_ & Hall & _).
  eapply Forall_impl; [|exact Hall]. cbn. intros t [Ht _]. lia.
Qed.

(** X15: the tombstones the iterator yields from a map with ascending
    keys have start < end, each ends no later than the next one starts,
    and none after the first has sequence number 0. *)
Theorem iterator_tombstones_disjoint (rep : Rep) out :
  sorted ucmp rep ->
  Tombstones rep = Some out ->
  Forall (fun t => cmp (start_key_ t) (end_key_ t) < 0) out
  /\ StronglySorted (fun a b => cmp (end_key_ a) (start_key_ b) <= 0) out
  /\ Forall (fun t => seq_ t <> 0) (tl out).
Proof.
  intros Hs. rewrite Tombstones_emitted. intros [= <-].
  split; [|split].
  - destruct rep as [|e rep]; [constructor|].
    eapply Forall_impl; [|exact (emitted_bounds rep e true Hs)]. cbn. tauto.
  - now apply emitted_disjoint.
  - destruct rep as [|e [|nxt rep]]; try constructor.
    rewrite emitted_pair. cbn [orb tl]. apply emitted_no_sentinel.
Qed.

(** X16: when the user comparator orders the keys as the map does,
    after [Seek(target)] on a map with ascending keys a valid iterator
    stands on a tombstone that ends behind the target and whose sequence
    number is not 0. *)
Theorem seek_lands_behind_target (rep : Rep) target t :
  sorted ucmp rep ->
  Tombstone (Seek rep target) = Some t ->
  cmp target (end_key_ t) < 0 /\ seq_ t <> 0.
Proof.
  intros Hs.
  destruct (upper_bound_sorted ucmp laws rep target Hs)
    as (L1 & L2 & Heq & H1 & H2).
  unfold Seek.
  rewrite (upper_bound_order ucmp order), Heq,
    (upper_bound_app ucmp laws L1 L2) by assumption.
  assert (Hin : forall it : list Entry,
             (it = L2 \/ exists prv, it = prv :: L2) ->
             Tombstone (SeekPastSentinels it) = Some t ->
             cmp target (end_key_ t) < 0 /\ seq_ t <> 0).
  { intros it Hit Ht. split; [|now apply (SeekPastSentinels_stops it)].
    destruct (SeekPastSentinels_suffix it) as [skipped Hsk].
    destruct (SeekPastSentinels it) as [|e [|nxt r]]; try discriminate.
    cbn in Ht. injection Ht as <-. cbn [end_key_].
    rewrite Forall_forall in H2. apply H2.
    destruct Hit as [->|[prv ->]].
    - rewrite Hsk. apply in_or_app. right. right. now left.
    - destruct skipped as [|p skipped]; cbn in Hsk.
      + injection Hsk as _ ->. now left.
      + injection Hsk as _ ->. apply in_or_app. right. right. now left. }
  destruct (rev L1) as [|prv l]; apply Hin; eauto.
Qed.
End IteratorLaws.

Section IteratorLawsWitnesses.
Local Open Scope string_scope.
Import CollapsedRangeDelMap.

Lemma iterator_yields_the_map_witness :
  let rep := collapse [tomb "a" "e" 5; tomb "c" "g" 7] in
  exists out,
    Tombstones rep = Some out
    /\ forall x, cover_seq BytewiseComparator out x
                 = seq_at BytewiseComparator 0 rep x.
Proof.
  apply (iterator_yields_the_map BytewiseComparator BytewiseComparator_laws).
  - repeat constructor.
  - repeat constructor; discriminate.
  - reflexivity.
Defined.

Lemma iterator_round_trip_witness :
  let S := [tomb "b" "n" 1; tomb "e" "h" 2; tomb "q" "t" 2; tomb "g" "k" 3] in
  exists out,
    Tombstones (collapse S) = Some out
    /\ forall x, cover_seq BytewiseComparator out x
                 = cover_seq BytewiseComparator S x.
Proof.
  apply (iterator_round_trip BytewiseComparator BytewiseComparator_laws
           BytewiseComparator_order).
  apply (proper_b_sound _ BytewiseComparator_laws). reflexivity.
Defined.

Lemma iterator_tombstones_disjoint_witness :
  let out := [tomb "a" "c" 5; tomb "c" "g" 7] in
  Forall (fun t => Compare BytewiseComparator (start_key_ t) (end_key_ t) < 0) out
  /\ StronglySorted
       (fun a b => Compare BytewiseComparator (end_key_ a) (start_key_ b) <= 0) out
  /\ Forall (fun t => seq_ t <> 0) (tl out).
Proof.
  apply (iterator_tombstones_disjoint BytewiseComparator BytewiseComparator_laws
           (collapse [tomb "a" "e" 5; tomb "c" "g" 7])).
  - repeat constructor.
  - reflexivity.
Defined.

Lemma seek_lands_behind_target_witness :
  Compare BytewiseComparator "d" "g" < 0 /\ 7 <> 0.
Proof.
  apply (seek_lands_behind_target BytewiseComparator BytewiseComparator_laws
           BytewiseComparator_order
           (collapse [tomb "a" "e" 5; tomb "c" "g" 7]) "d" (tomb "c" "g" 7)).
  - repeat constructor.
  - reflexivity.
Defined.
End IteratorLawsWitnesses.

(** ** The uncollapsed map *)

Section UncollapsedMapLaws.
Import UncollapsedRangeDelMap.
Variable ucmp : Comparator.
Hypothesis laws : ComparatorLaws ucmp.

Local Abbreviation cmp := (Compare ucmp).

Lemma scan_parsed (rep : Rep) parsed :
  scan ucmp rep parsed
  = scan ucmp rep (pik (user_key parsed) (sequence parsed)).
Proof.
  induction rep as [|t rep IH]; cbn; [reflexivity|]. now rewrite IH.
Qed.

Lemma multiset_emplace_position (rep : Rep) t :
  start_sorted ucmp rep ->
  exists l1 l2,
    rep = l1 ++ l2
    /\ multiset_emplace (TombstoneStartKeyComparator ucmp) rep t = l1 ++ t :: l2
    /\ Forall (fun a => cmp (start_key_ a) (start_key_ t) <= 0) l1
    /\ Forall (fun b => cmp (start_key_ t) (start_key_ b) < 0) l2.
Proof.
  unfold start_sorted. induction rep as [|y rep IH]; intros Hs.
  - exists [], []. cbn. auto.
  - inversion Hs as [|? ? Hrest Hall]; subst. cbn [multiset_emplace].
    unfold TombstoneStartKeyComparator at 1.
    destruct (Z.ltb_spec (cmp (start_key_ t) (start_key_ y)) 0) as [Hlt|Hge].
    + exists [], (y :: rep). cbn [app]. repeat split; [constructor|].
      constructor; [assumption|].
      eapply Forall_impl; [|exact Hall]. cbn. intros b Hb.
      now apply (cmp_lt_le_trans ucmp laws _ (start_key_ y)).
    + destruct (IH Hrest) as (l1 & l2 & Hrep & Hadd & H1 & H2).
      exists (y :: l1), l2. cbn [app]. rewrite Hadd, <- Hrep.
      repeat split; [|assumption].
      constructor; [|assumption]. apply (cmp_ge_flip ucmp laws). lia.
Qed.

(** X17: the uncollapsed map deletes a key exactly when one of the
    tombstones added to it covers the key with a higher sequence number,
    in whatever order they were added: the [break] of the scan skips no
    such tombstone. *)
Theorem full_scan_finds_deleting_tombstone (S : list RangeTombstone) parsed :
  ShouldDelete ucmp (fold_left (AddTombstone ucmp) S []) parsed kFullScan
  = Some (existsb (deletes ucmp (user_key parsed) (sequence parsed)) S).
Proof.
  destruct (gather_invariant ucmp laws S []) as [Hs Hex]; [constructor|].
  unfold ShouldDelete. f_equal.
  rewrite scan_parsed, (scan_deletes ucmp laws) by assumption.
  rewrite Hex. cbn. apply orb_false_r.
Qed.

(** X18: [AddTombstone] puts the tombstone behind every tombstone whose
    start key is not above its own and in front of those that start
    later; the others keep their places. *)
Theorem uncollapsed_add_position (rep : Rep) (t : RangeTombstone) :
  start_sorted ucmp rep ->
  exists l1 l2,
    rep = l1 ++ l2
    /\ AddTombstone ucmp rep t = l1 ++ t :: l2
    /\ Forall (fun a => cmp (start_key_ a) (start_key_ t) <= 0) l1
    /\ Forall (fun b => cmp (start_key_ t) (start_key_ b) < 0) l2.
Proof. apply multiset_emplace_position. Qed.

(** X19: a range that is reported as overlapped stays so when it is
    widened at either end. *)
Theorem overlap_widens (rep : Rep) (start end_ start' end' : Slice) :
  cmp start' start <= 0 ->
  cmp end_ end' <= 0 ->
  IsRangeOverlapped ucmp rep start end_ = true ->
  IsRangeOverlapped ucmp rep start' end' = true.
Proof.
  intros Hstart Hend. induction rep as [|t rep IH]; cbn; [discriminate|].
  destruct (Z.ltb_spec (cmp start (end_key_ t)) 0) as [H1|H1];
    destruct (Z.leb_spec (cmp (start_key_ t) end_) 0) as [H2|H2];
    destruct (Z.ltb_spec (cmp (start_key_ t) (end_key_ t)) 0) as [H3|H3];
    cbn [andb];
    try (intros H; rewrite (IH H);
         match goal with
         | |- (if ?c then _ else _) = _ => now destruct c
         end).
  intros _.
  assert (cmp start' (end_key_ t) < 0)
    by now apply (cmp_le_lt_trans ucmp laws _ start).
  assert (cmp (start_key_ t) end' <= 0)
    by now apply (cmp_le_trans ucmp laws _ end_).
  destruct (Z.ltb_spec (cmp start' (end_key_ t)) 0); [|lia].
  destruct (Z.leb_spec (cmp (start_key_ t) end') 0); [|lia].
  destruct (Z.ltb_spec (cmp (start_key_ t) (end_key_ t)) 0); [|lia].
  reflexivity.
Qed.

(** X20: a key that the full scan deletes lies in a range that
    [IsRangeOverlapped] reports: the range from the key's user key to
    itself. *)
Theorem deleted_key_is_overlapped (rep : Rep) parsed :
  ShouldDelete ucmp rep parsed kFullScan = Some true ->
  IsRangeOverlapped ucmp rep (user_key parsed) (user_key parsed) = true.
Proof.
  unfold ShouldDelete. intros [= H]. revert H.
  induction rep as [|t rep IH]; cbn; [discriminate|].
  destruct (Z.ltb_spec (cmp (user_key parsed) (start_key_ t)) 0) as [Hlt|Hge];
    [discriminate|].
  apply (cmp_ge_flip ucmp laws) in Hge.
  destruct (sequence parsed <? seq_ t); cbn [andb].
  - destruct (Z.ltb_spec (cmp (user_key parsed) (end_key_ t)) 0) as [Hend|Hend].
    + intros _.
      assert (cmp (start_key_ t) (end_key_ t) < 0)
        by now apply (cmp_le_lt_trans ucmp laws _ (user_key parsed)).
      destruct (Z.leb_spec (cmp (start_key_ t) (user_key parsed)) 0); [|lia].
      destruct (Z.ltb_spec (cmp (start_key_ t) (end_key_ t)) 0); [|lia].
      reflexivity.
    + intros H. rewrite (IH H).
      match goal with
      | |- (if ?c then _ else _) = _ => now destruct c
      end.
  - intros H. rewrite (IH H).
    match goal with
    | |- (if ?c then _ else _) = _ => now destruct c
    end.
Qed.
End UncollapsedMapLaws.

Section UncollapsedMapLawsWitnesses.
Local Open Scope string_scope.
Import UncollapsedRangeDelMap.

Lemma full_scan_finds_deleting_tombstone_witness :
  let S := [tomb "c" "f" 10; tomb "a" "h" 5; tomb "a" "b" 20] in
  ShouldDelete BytewiseComparator (gather S) (pik "d" 7) kFullScan
  = Some (existsb (deletes BytewiseComparator "d" 7) S).
Proof.
  exact (full_scan_finds_deleting_tombstone BytewiseComparator
           BytewiseComparator_laws
           [tomb "c" "f" 10; tomb "a" "h" 5; tomb "a" "b" 20] (pik "d" 7)).
Defined.

Lemma uncollapsed_add_position_witness :
  let rep := gather [tomb "a" "c" 1; tomb "b" "d" 2; tomb "c" "e" 3] in
  let t := tomb "b" "z" 9 in
  exists l1 l2 : Rep,
    rep = (l1 ++ l2)%list
    /\ AddTombstone BytewiseComparator rep t = (l1 ++ t :: l2)%list
    /\ Forall (fun a => Compare BytewiseComparator (start_key_ a) (start_key_ t) <= 0) l1
    /\ Forall (fun b => Compare BytewiseComparator (start_key_ t) (start_key_ b) < 0) l2.
Proof.
  apply (uncollapsed_add_position BytewiseComparator BytewiseComparator_laws).
  repeat constructor; discriminate.
Defined.

Lemma overlap_widens_witness :
  IsRangeOverlapped BytewiseComparator (gather [tomb "c" "f" 10]) "a" "z" = true.
Proof.
  apply (overlap_widens BytewiseComparator BytewiseComparator_laws
           (gather [tomb "c" "f" 10]) "d" "e" "a" "z").
  - discriminate.
  - discriminate.
  - reflexivity.
Defined.

Lemma deleted_key_is_overlapped_witness :
  IsRangeOverlapped BytewiseComparator (gather [tomb "c" "f" 10]) "d" "d" = true.
Proof.
  apply (deleted_key_is_overlapped BytewiseComparator BytewiseComparator_laws
           (gather [tomb "c" "f" 10]) (pik "d" 7)).
  reflexivity.
Defined.
End UncollapsedMapLawsWitnesses.

(** ** The aggregator *)

Section AggregatorLaws.
Import RangeDelAggregator.
Variable kMaxSequenceNumber : SequenceNumber.
Variable ParseInternalKey : Slice -> option ParsedInternalKey.
Variable IsValueType : ValueType -> bool.
Variable IsEmpty : RangeDelMap -> bool.
Variable user_comparator : Comparator.

Local Abbreviation InitRep := (InitRep kMaxSequenceNumber).
Local Abbreviation New := (New kMaxSequenceNumber).
Local Abbreviation ShouldDeleteImpl :=
  (ShouldDeleteImpl IsValueType IsEmpty user_comparator).
Local Abbreviation ShouldAddTombstones := (ShouldAddTombstones IsEmpty).
Local Abbreviation AggIsEmpty := (AggIsEmpty IsEmpty).
Local Abbreviation IsRangeOverlapped := (IsRangeOverlapped user_comparator).
Local Abbreviation AddTombstones :=
  (AddTombstones kMaxSequenceNumber ParseInternalKey user_comparator).
Local Abbreviation AddTombstones_loop :=
  (AddTombstones_loop kMaxSequenceNumber ParseInternalKey user_comparator).
Local Abbreviation prepare := (prepare kMaxSequenceNumber).
Local Abbreviation route := (route user_comparator).

Lemma map_emplace_Forall {K V} (less : K -> K -> bool) (P : K * V -> Prop)
    (m : list (K * V)) k v :
  Forall P m -> P (k, v) -> Forall P (map_emplace less m k v).
Proof.
  induction m as [|e m IH]; intros Hm Hkv; simpl.
  - now constructor.
  - inversion Hm; subst. destruct (less k (fst e)); [now constructor|].
    destruct (less (fst e) k); [|assumption]. constructor; auto.
Qed.

Lemma map_emplace_nonempty {K V} (less : K -> K -> bool) (m : list (K * V)) k v :
  map_emplace less m k v <> [].
Proof.
  destruct m as [|e m]; simpl; [discriminate|].
  destruct (less k (fst e)); [discriminate|].
  destruct (less (fst e) k); discriminate.
Qed.

(** Every stripe [InitRep] creates holds a new map of the kind chosen. *)
Lemma InitRep_maps collapse snapshots :
  stripe_map_ (InitRep collapse snapshots) <> []
  /\ Forall (fun stripe => snd stripe = NewRangeDelMap collapse)
       (stripe_map_ (InitRep collapse snapshots)).
Proof.
  unfold RangeDelAggregator.InitRep. cbn [stripe_map_]. split.
  - apply map_emplace_nonempty.
  - apply map_emplace_Forall; [|reflexivity].
    assert (H : forall m : StripeMap,
               Forall (fun stripe => snd stripe = NewRangeDelMap collapse) m ->
               Forall (fun stripe => snd stripe = NewRangeDelMap collapse)
                 (fold_left
                    (fun m snapshot =>
                       map_emplace Z.ltb m snapshot (NewRangeDelMap collapse))
                    snapshots m)).
    { induction snapshots as [|s rest IH]; intros m Hm; [assumption|].
      simpl. apply IH. now apply map_emplace_Forall. }
    apply H. constructor.
Qed.

Lemma existsb_negb_forallb {A} (f : A -> bool) (l : list A) :
  existsb (fun a => negb (f a)) l = negb (forallb f l).
Proof.
  induction l as [|a l IH]; [reflexivity|]. simpl. rewrite IH.
  now destruct (f a).
Qed.

(** X21: on an aggregator whose stripe map, once created, is not empty,
    [ShouldAddTombstones()] is the negation of [IsEmpty()], and it holds
    whenever [ShouldAddTombstones(true)], which leaves out the first
    stripe, does. *)
Theorem should_add_unless_empty (agg : t) :
  (forall rep, rep_ agg = Some rep -> stripe_map_ rep <> []) ->
  ShouldAddTombstones agg false = negb (AggIsEmpty agg)
  /\ implb (ShouldAddTombstones agg true) (ShouldAddTombstones agg false) = true.
Proof.
  intros _.
  unfold RangeDelAggregator.ShouldAddTombstones, RangeDelAggregator.AggIsEmpty.
  destruct (rep_ agg) as [rep|]; [|split; reflexivity].
  split; [apply existsb_negb_forallb|].
  destruct (stripe_map_ rep) as [|first rest]; [reflexivity|].
  cbn [tl existsb].
  destruct (existsb (fun stripe => negb (IsEmpty (snd stripe))) rest);
    [|reflexivity].
  now rewrite orb_true_r.
Qed.

(** X22: [IsRangeOverlapped] on an aggregator constructed with collapsed
    maps aborts, also when no tombstone was ever added: its first stripe
    holds a collapsed map, whose [IsRangeOverlapped] is unimplemented. *)
Theorem overlap_aborts_on_collapsed_maps snapshots (start end_ : Slice) :
  IsRangeOverlapped (New snapshots true) start end_ = None.
Proof.
  unfold RangeDelAggregator.IsRangeOverlapped, RangeDelAggregator.New.
  cbn [rep_].
  destruct (InitRep_maps true snapshots) as [Hne Hall].
  destruct (stripe_map_ (InitRep true snapshots)) as [|first rest];
    [contradiction|].
  inversion Hall as [|? ? Hfirst _]; subst.
  cbn [any_overlapped]. rewrite Hfirst. reflexivity.
Qed.

(** X23: [AddTombstones] on an aggregator that has its stripes leaves
    their upper bounds as they were, whatever the source holds and
    whether it returns OK or Corruption. *)
Theorem ingestion_keeps_stripes (agg : t) rep input status agg' :
  rep_ agg = Some rep ->
  AddTombstones agg input = Some (status, agg') ->
  keys_of agg' = Some (stripe_keys rep).
Proof.
  intros Hrep Hadd.
  assert (Hkeys : keys_of agg = Some (stripe_keys rep)).
  { unfold keys_of. now rewrite Hrep. }
  destruct (AddTombstones_keys _ _ _ _ _ _ _ Hadd) as [->| ->];
    [assumption|].
  now rewrite prepare_keys, Hrep.
Qed.

(** X24: the first [AddTombstones] that reads a tombstone into an
    aggregator constructed for one snapshot creates its stripes: one
    for the snapshot and the catch-all stripe of kMaxSequenceNumber, in
    ascending order, or the catch-all stripe alone when the snapshot is
    kMaxSequenceNumber itself. *)
Theorem first_ingestion_creates_stripes (agg : t) kv pending status agg' :
  rep_ agg = None ->
  AddTombstones agg (Some (kv :: pending)) = Some (status, agg') ->
  keys_of agg'
  = Some (if upper_bound_ agg <? kMaxSequenceNumber
          then [upper_bound_ agg; kMaxSequenceNumber]
          else if kMaxSequenceNumber <? upper_bound_ agg
               then [kMaxSequenceNumber; upper_bound_ agg]
               else [kMaxSequenceNumber]).
Proof.
  intros Hrep. unfold RangeDelAggregator.AddTombstones. rewrite loop_first.
  intros Hloop. apply loop_keys in Hloop. rewrite Hloop, prepare_keys, Hrep.
  f_equal. unfold stripe_keys, RangeDelAggregator.InitRep.
  cbn [stripe_map_ fold_left map_emplace fst].
  destruct (Z.ltb_spec kMaxSequenceNumber (upper_bound_ agg));
    destruct (Z.ltb_spec (upper_bound_ agg) kMaxSequenceNumber);
    try reflexivity; try lia.
  cbn [map fst]. f_equal. lia.
Qed.

(** X25: a lookup leaves the upper bounds of the stripes as they were. *)
Theorem lookup_keeps_stripes (agg : t) parsed mode b agg' :
  ShouldDeleteImpl agg parsed mode = Some (b, agg') ->
  keys_of agg' = keys_of agg.
Proof. apply ShouldDeleteImpl_keys. Qed.

Lemma prepare_cursors (agg : t) : cursors_at_end (prepare agg).
Proof.
  unfold RangeDelAggregator.prepare, cursors_at_end.
  destruct (rep_ agg) as [rep|] eqn:Hrep.
  - unfold InvalidateRangeDelMapPositions. rewrite Hrep. cbn [rep_ stripe_map_].
    apply Forall_forall. intros stripe Hin. apply in_map_iff in Hin.
    destruct Hin as (s & <- & _). cbn [snd].
    now destruct (snd s).
  - cbn [rep_].
    destruct (InitRep_maps (collapse_deletions_ agg) [upper_bound_ agg])
      as [_ Hall].
    eapply Forall_impl; [|exact Hall]. simpl. intros stripe ->.
    now destruct (collapse_deletions_ agg).
Qed.

Lemma route_cursors rep t rep' :
  Forall (fun stripe => cursor_at_end (snd stripe)) (stripe_map_ rep) ->
  route rep t = Some rep' ->
  Forall (fun stripe => cursor_at_end (snd stripe)) (stripe_map_ rep').
Proof.
  intros Hall. unfold RangeDelAggregator.route.
  destruct (GetRangeDelMap rep (seq_ t)) as [[[before stripe] after]|] eqn:Hget;
    [|discriminate].
  intros [= <-]. apply GetRangeDelMap_position in Hget.
  rewrite Hget in Hall. apply Forall_app in Hall. destruct Hall as [Hb Ha].
  inversion Ha as [|? ? Hs Ha']; subst.
  cbn [set_stripe stripe_map_]. unfold unzip. cbn [fst snd].
  rewrite rev_append_rev. apply Forall_app. split; [assumption|].
  constructor; [|assumption]. cbn [snd].
  destruct (snd stripe); [exact I|exact Hs].
Qed.

Lemma loop_cursors input pending :
  forall agg status agg',
    cursors_at_end agg ->
    AddTombstones_loop input pending false agg = Some (status, agg') ->
    cursors_at_end agg'.
Proof.
  induction pending as [|[key value] rest IH]; intros agg status agg' Hc; simpl.
  - intros [= _ <-]. unfold cursors_at_end, pin in *.
    destruct (rep_ agg) as [rep|] eqn:Hrep; [exact Hc|now rewrite Hrep].
  - destruct (ParseInternalKey key) as [pk|]; [|now intros [= _ <-]].
    destruct (rep_ agg) as [rep|] eqn:Hrep; [|discriminate].
    destruct (route rep (MakeRangeTombstone pk value)) as [rep1|] eqn:Hroute;
      [|discriminate].
    apply IH. unfold cursors_at_end in *. rewrite Hrep in Hc. cbn [rep_].
    now apply (route_cursors rep (MakeRangeTombstone pk value)).
Qed.

Lemma reseek (m : RangeDelMap) parsed :
  cursor_at_end m ->
  Map_ShouldDelete user_comparator m parsed kForwardTraversal
  = Map_ShouldDelete user_comparator m parsed kBinarySearch
  /\ Map_ShouldDelete user_comparator m parsed kBackwardTraversal
     = Map_ShouldDelete user_comparator m parsed kBinarySearch.
Proof.
  destruct m as [rep|c]; simpl; [auto|]. intros Hc.
  unfold CollapsedRangeDelMap.ShouldDelete. rewrite Hc. auto.
Qed.

(** X26: after [AddTombstones] has read from a source that is not empty,
    every cursor is at [end()], so that the next lookup in a traversal
    mode searches the map as a lookup in kBinarySearch mode does. *)
Theorem ingestion_resets_cursors (agg : t) kv pending status agg' parsed :
  AddTombstones agg (Some (kv :: pending)) = Some (status, agg') ->
  cursors_at_end agg'
  /\ ShouldDeleteImpl agg' parsed kForwardTraversal
     = ShouldDeleteImpl agg' parsed kBinarySearch
  /\ ShouldDeleteImpl agg' parsed kBackwardTraversal
     = ShouldDeleteImpl agg' parsed kBinarySearch.
Proof.
  unfold RangeDelAggregator.AddTombstones. rewrite loop_first. intros Hloop.
  apply loop_cursors in Hloop; [|apply prepare_cursors].
  split; [assumption|].
  unfold RangeDelAggregator.ShouldDeleteImpl.
  destruct (negb (IsValueType (type parsed))); [auto|].
  unfold cursors_at_end in Hloop.
  destruct (rep_ agg') as [rep|]; [|auto].
  destruct (GetRangeDelMap rep (sequence parsed)) as [[[before stripe] after]|]
    eqn:Hget; [|auto].
  destruct (IsEmpty (snd stripe)); [auto|].
  apply GetRangeDelMap_position in Hget. rewrite Hget in Hloop.
  apply Forall_app in Hloop. destruct Hloop as [_ Hs].
  inversion Hs as [|? ? Hstripe _]; subst.
  destruct (reseek (snd stripe) parsed Hstripe) as [-> ->]. auto.
Qed.
End AggregatorLaws.

Section AggregatorLawsWitnesses.
Local Open Scope string_scope.
Import RangeDelAggregator.

Lemma ingestion_keeps_stripes_witness :
  let agg := New max_seq_56 [5; 15] true in
  exists agg',
    AddTombstones max_seq_56 example_parse BytewiseComparator agg
      (Some [(ikey "a" 10, "c"); ("", "x")])
    = Some (Corruption "Unable to parse range tombstone InternalKey", agg')
    /\ keys_of agg' = Some [5; 15; max_seq_56].
Proof.
  intros agg.
  destruct (AddTombstones max_seq_56 example_parse BytewiseComparator agg
              (Some [(ikey "a" 10, "c"); ("", "x")]))
    as [[status agg']|] eqn:Hadd; [|discriminate].
  exists agg'.
  pose proof (ingestion_keeps_stripes max_seq_56 example_parse
                BytewiseComparator agg (InitRep max_seq_56 true [5; 15])
                _ status agg' eq_refl Hadd) as Hkeys.
  split; [|exact Hkeys].
  vm_compute in Hadd. injection Hadd as <- <-. reflexivity.
Defined.

Lemma should_add_unless_empty_witness :
  let agg :=
    {| upper_bound_ := max_seq_56;
       collapse_deletions_ := false;
       rep_ :=
         Some {| stripe_map_ :=
                   [(5, Uncollapsed [tomb "a" "c" 3]);
                    (max_seq_56, Uncollapsed [])];
                 pinned_iters_ := [] |} |} in
  ShouldAddTombstones (fun m => Map_Size m =? 0)%Z agg false
  = negb (AggIsEmpty (fun m => Map_Size m =? 0)%Z agg)
  /\ implb (ShouldAddTombstones (fun m => Map_Size m =? 0)%Z agg true)
       (ShouldAddTombstones (fun m => Map_Size m =? 0)%Z agg false)
     = true.
Proof.
  apply (should_add_unless_empty (fun m => Map_Size m =? 0)%Z).
  intros rep [= <-]. discriminate.
Defined.

Lemma first_ingestion_creates_stripes_witness :
  let agg := NewForSnapshot 12 true in
  exists agg',
    AddTombstones max_seq_56 example_parse BytewiseComparator agg
      (Some [(ikey "b" 9, "d")])
    = Some (OK, agg')
    /\ keys_of agg' = Some [12; max_seq_56].
Proof.
  intros agg.
  destruct (AddTombstones max_seq_56 example_parse BytewiseComparator agg
              (Some [(ikey "b" 9, "d")]))
    as [[status agg']|] eqn:Hadd; [|discriminate].
  exists agg'.
  pose proof (first_ingestion_creates_stripes max_seq_56 example_parse
                BytewiseComparator agg (ikey "b" 9, "d") [] status agg'
                eq_refl Hadd) as Hkeys.
  split; [|exact Hkeys].
  vm_compute in Hadd. injection Hadd as <- <-. reflexivity.
Defined.

Lemma lookup_keeps_stripes_witness :
  let agg :=
    {| upper_bound_ := max_seq_56;
       collapse_deletions_ := true;
       rep_ :=
         Some {| stripe_map_ :=
                   [(5, Collapsed (fresh (collapse [tomb "a" "c" 3])));
                    (max_seq_56, Collapsed (fresh (collapse [tomb "b" "d" 9])))];
                 pinned_iters_ := [] |} |} in
  exists agg',
    ShouldDeleteImpl (fun _ => true) (fun m => Map_Size m =? 0)%Z
      BytewiseComparator agg (pik "c" 7) kBinarySearch
    = Some (true, agg')
    /\ keys_of agg' = keys_of agg.
Proof.
  intros agg.
  destruct (ShouldDeleteImpl (fun _ => true) (fun m => Map_Size m =? 0)%Z
              BytewiseComparator agg (pik "c" 7) kBinarySearch)
    as [[b agg']|] eqn:Hlookup; [|discriminate].
  exists agg'.
  pose proof (lookup_keeps_stripes (fun _ => true) (fun m => Map_Size m =? 0)%Z
                BytewiseComparator agg (pik "c" 7) kBinarySearch b agg' Hlookup)
    as Hkeys.
  split; [|exact Hkeys].
  vm_compute in Hlookup. injection Hlookup as <- <-. reflexivity.
Defined.

Lemma ingestion_resets_cursors_witness :
  let agg :=
    {| upper_bound_ := max_seq_56;
       collapse_deletions_ := true;
       rep_ :=
         Some {| stripe_map_ :=
                   [(max_seq_56,
                     Collapsed
                       {| CollapsedRangeDelMap.rep_ := collapse [tomb "a" "c" 3];
                          CollapsedRangeDelMap.iter_ := Some "c" |})];
                 pinned_iters_ := [] |} |} in
  exists agg',
    AddTombstones max_seq_56 example_parse BytewiseComparator agg
      (Some [(ikey "b" 9, "d")])
    = Some (OK, agg')
    /\ cursors_at_end agg'
    /\ ShouldDeleteImpl (fun _ => true) (fun m => Map_Size m =? 0)%Z
         BytewiseComparator agg' (pik "a" 1) kForwardTraversal
       = ShouldDeleteImpl (fun _ => true) (fun m => Map_Size m =? 0)%Z
           BytewiseComparator agg' (pik "a" 1) kBinarySearch
    /\ ShouldDeleteImpl (fun _ => true) (fun m => Map_Size m =? 0)%Z
         BytewiseComparator agg' (pik "a" 1) kBackwardTraversal
       = ShouldDeleteImpl (fun _ => true) (fun m => Map_Size m =? 0)%Z
           BytewiseComparator agg' (pik "a" 1) kBinarySearch.
Proof.
  intros agg.
  destruct (AddTombstones max_seq_56 example_parse BytewiseComparator agg
              (Some [(ikey "b" 9, "d")]))
    as [[status agg']|] eqn:Hadd; [|discriminate].
  exists agg'.
  pose proof (ingestion_resets_cursors max_seq_56 example_parse (fun _ => true)
                (fun m => Map_Size m =? 0)%Z BytewiseComparator agg
                (ikey "b" 9, "d") [] status agg' (pik "a" 1) Hadd)
    as Hreset.
  split; [|exact Hreset].
  vm_compute in Hadd. injection Hadd as <- <-. reflexivity.
Defined.
End AggregatorLawsWitnesses.

(** ** AddToBuilder *)

Section TableLaws.
Import RangeDelAggregator.
Import TableOutput.
Variable InternalKey : Type.
Variable MakeInternalKey : Slice -> SequenceNumber -> ValueType -> InternalKey.
Variable InternalKey_user_key : InternalKey -> Slice.
Variable InternalKey_size : InternalKey -> Z.
Variable Encode : InternalKey -> Slice.
Variable Serialize : RangeTombstone -> InternalKey * Slice.
Variable SerializeEndKey : RangeTombstone -> InternalKey.
Variable icmp_Compare : InternalKey -> InternalKey -> Z.
Variable kMaxSequenceNumber : SequenceNumber.
Variable kTypeRangeDeletion : ValueType.
Variable user_comparator : Comparator.
Variable counter_add : Z -> Z -> Z.

Local Abbreviation cmp := (Compare user_comparator).
Local Abbreviation Meta := (FileMetaData InternalKey).
Local Abbreviation add_one :=
  (add_one InternalKey MakeInternalKey InternalKey_user_key InternalKey_size
     Encode Serialize SerializeEndKey icmp_Compare kMaxSequenceNumber
     kTypeRangeDeletion user_comparator).
Local Abbreviation add_stripe :=
  (add_stripe InternalKey MakeInternalKey InternalKey_user_key InternalKey_size
     Encode Serialize SerializeEndKey icmp_Compare kMaxSequenceNumber
     kTypeRangeDeletion user_comparator).
Local Abbreviation add_stripes :=
  (add_stripes InternalKey MakeInternalKey InternalKey_user_key InternalKey_size
     Encode Serialize SerializeEndKey icmp_Compare kMaxSequenceNumber
     kTypeRangeDeletion user_comparator).
Local Abbreviation AddToBuilder :=
  (AddToBuilder InternalKey MakeInternalKey InternalKey_user_key InternalKey_size
     Encode Serialize SerializeEndKey icmp_Compare kMaxSequenceNumber
     kTypeRangeDeletion user_comparator counter_add).
Local Abbreviation credited := (credited counter_add).
Local Abbreviation write_list :=
  (write_list InternalKey MakeInternalKey InternalKey_user_key InternalKey_size
     Encode Serialize SerializeEndKey icmp_Compare kMaxSequenceNumber
     kTypeRangeDeletion user_comparator).
Local Abbreviation write_stripes :=
  (write_stripes InternalKey MakeInternalKey InternalKey_user_key InternalKey_size
     Encode Serialize SerializeEndKey icmp_Compare kMaxSequenceNumber
     kTypeRangeDeletion user_comparator).
Local Abbreviation written := (written user_comparator).
Local Abbreviation written_of := (written_of user_comparator).
Local Abbreviation in_bounds := (in_bounds user_comparator).
Local Abbreviation entry := (entry InternalKey Encode Serialize).

Lemma iterator_done (it : RangeDelIterator) :
  Iterator_Valid it = false -> yields it = [].
Proof.
  destruct it as [l|l]; cbn.
  - destruct l; [reflexivity|discriminate].
  - destruct l as [|e [|nxt l]]; try reflexivity. discriminate.
Qed.

Lemma iterator_step (it : RangeDelIterator) :
  Iterator_Valid it = true ->
  exists tombstone,
    Iterator_Tombstone it = Some tombstone
    /\ yields it = tombstone :: yields (Iterator_Next it)
    /\ (Iterator_remaining (Iterator_Next it) < Iterator_remaining it)%nat.
Proof.
  destruct it as [l|l]; cbn [Iterator_Valid].
  - destruct l as [|t l]; [discriminate|]. intros _. exists t. cbn. auto.
  - destruct l as [|e [|nxt l]]; try discriminate. intros _.
    exists {| start_key_ := fst e; end_key_ := fst nxt; seq_ := snd e |}.
    split; [reflexivity|]. split.
    + cbn [yields Iterator_Next]. unfold CollapsedRangeDelMap.Next. cbn [tl].
      now rewrite emitted_SeekPastSentinels.
    + cbn [Iterator_remaining Iterator_Next].
      apply Next_length. discriminate.
Qed.

(** The loop over the iterator ends and does what the loop over the
    tombstones it yields does. *)
Lemma add_stripe_list (fuel : nat) :
  forall it lower upper first_added builder (meta : Meta),
    (Iterator_remaining it <= fuel)%nat ->
    add_stripe fuel it lower upper first_added builder meta
    = Some (write_list lower upper first_added builder meta (yields it)).
Proof.
  induction fuel as [|fuel IH]; intros it lower upper fa builder meta Hlen.
  - assert (Hv : Iterator_Valid it = false).
    { destruct it as [[|? ?]|[|? ?]]; cbn in Hlen |- *; try reflexivity; lia. }
    cbn. rewrite Hv, (iterator_done it Hv). reflexivity.
  - simpl.
    destruct (Iterator_Valid it) eqn:Hv; cbn [negb].
    + destruct (iterator_step it Hv) as (t & Ht & Hy & Hlt).
      rewrite Ht, Hy. simpl.
      destruct (starts_behind user_comparator upper t); [reflexivity|].
      destruct (ends_before user_comparator lower t).
      * apply IH. lia.
      * destruct (add_one lower upper fa builder meta t) as [b' m'].
        apply IH. lia.
    + now rewrite (iterator_done it Hv).
Qed.

Lemma add_stripes_list (stripes : StripeMap) :
  forall lower upper builder (meta : Meta),
    add_stripes stripes lower upper builder meta
    = Some (write_stripes lower upper builder meta stripes).
Proof.
  induction stripes as [|stripe rest IH]; intros lower upper builder meta;
    [reflexivity|].
  simpl. rewrite add_stripe_list by lia.
  unfold tombstones_of.
  destruct (write_list lower upper false builder meta
              (yields (Map_NewIterator (snd stripe)))) as [b' m'].
  apply IH.
Qed.

Lemma write_list_builder lower upper (l : list RangeTombstone) :
  forall first_added builder (meta : Meta),
    fst (write_list lower upper first_added builder meta l)
    = builder ++ map entry (written lower upper l).
Proof.
  induction l as [|t l IH]; intros fa builder meta; simpl.
  - now rewrite app_nil_r.
  - destruct (starts_behind user_comparator upper t);
      [simpl; now rewrite app_nil_r|].
    destruct (ends_before user_comparator lower t); [apply IH|].
    rewrite IH. simpl. now rewrite <- app_assoc.
Qed.

Lemma write_stripes_builder lower upper (stripes : StripeMap) :
  forall builder (meta : Meta),
    fst (write_stripes lower upper builder meta stripes)
    = builder ++ map entry (written_of lower upper stripes).
Proof.
  induction stripes as [|stripe rest IH]; intros builder meta; simpl.
  - now rewrite app_nil_r.
  - pose proof (write_list_builder lower upper (tombstones_of (snd stripe))
                  false builder meta) as Hb.
    destruct (write_list lower upper false builder meta
                (tombstones_of (snd stripe))) as [b' m'].
    simpl in Hb. subst b'. rewrite IH, map_app. now rewrite <- app_assoc.
Qed.

Lemma write_list_seqno lower upper (l : list RangeTombstone) :
  forall first_added builder (meta : Meta),
    let meta' := snd (write_list lower upper first_added builder meta l) in
    smallest_seqno meta' <= smallest_seqno meta
    /\ largest_seqno meta <= largest_seqno meta'
    /\ Forall (fun t => smallest_seqno meta' <= seq_ t <= largest_seqno meta')
         (written lower upper l)
    /\ (written lower upper l = [] -> meta' = meta).
Proof.
  induction l as [|t l IH]; intros fa builder meta; simpl.
  - repeat split; try lia; constructor.
  - destruct (starts_behind user_comparator upper t);
      [simpl; repeat split; try lia; constructor|].
    destruct (ends_before user_comparator lower t); [apply IH|].
    specialize (IH true (fst (add_one lower upper fa builder meta t))
                  (snd (add_one lower upper fa builder meta t))).
    simpl in IH. destruct IH as (H1 & H2 & H3 & _).
    split; [lia|]. split; [lia|]. split; [|discriminate].
    constructor; [lia|assumption].
Qed.

Lemma write_stripes_seqno lower upper (stripes : StripeMap) :
  forall builder (meta : Meta),
    let meta' := snd (write_stripes lower upper builder meta stripes) in
    smallest_seqno meta' <= smallest_seqno meta
    /\ largest_seqno meta <= largest_seqno meta'
    /\ Forall (fun t => smallest_seqno meta' <= seq_ t <= largest_seqno meta')
         (written_of lower upper stripes)
    /\ (written_of lower upper stripes = [] -> meta' = meta).
Proof.
  induction stripes as [|stripe rest IH]; intros builder meta; simpl.
  - repeat split; try lia; constructor.
  - pose proof (write_list_seqno lower upper (tombstones_of (snd stripe))
                  false builder meta) as Hl.
    destruct (write_list lower upper false builder meta
                (tombstones_of (snd stripe))) as [b' m'].
    simpl in Hl. destruct Hl as (H1 & H2 & H3 & H4).
    specialize (IH b' m'). simpl in IH. destruct IH as (I1 & I2 & I3 & I4).
    split; [lia|]. split; [lia|]. split.
    + unfold TableOutput.written_of. simpl.
      apply Forall_app. split; [|exact I3].
      eapply Forall_impl; [|exact H3]. simpl. intros t Ht. lia.
    + unfold TableOutput.written_of. simpl. intros Hnil.
      apply app_eq_nil in Hnil. destruct Hnil as [Hn1 Hn2].
      rewrite (I4 Hn2). now apply H4.
Qed.

Lemma written_in_bounds lower upper (l : list RangeTombstone) :
  Forall (fun t => In t l /\ in_bounds lower upper t = true)
    (written lower upper l).
Proof.
  induction l as [|t l IH]; simpl; [constructor|].
  assert (Hrest : Forall (fun t0 => (t = t0 \/ In t0 l)
                                    /\ in_bounds lower upper t0 = true)
                    (written lower upper l)).
  { eapply Forall_impl; [|exact IH]. simpl. tauto. }
  destruct (starts_behind user_comparator upper t) eqn:Hup; [constructor|].
  destruct (ends_before user_comparator lower t) eqn:Hlo; [assumption|].
  constructor; [|assumption]. split; [now left|].
  unfold TableOutput.in_bounds. now rewrite Hup, Hlo.
Qed.

Lemma AddToBuilder_stripes agg rep builder lower upper (meta : Meta) stats
    bottommost result :
  rep_ agg = Some rep ->
  AddToBuilder agg builder lower upper meta stats bottommost = Some result ->
  result
  = (write_stripes lower upper builder meta (visited rep bottommost),
     credited rep stats bottommost).
Proof.
  intros Hrep. unfold TableOutput.AddToBuilder, visited, TableOutput.credited.
  rewrite Hrep.
  destruct (stripe_map_ rep) as [|first rest]; [discriminate|].
  destruct bottommost.
  - destruct stats as [stats|]; [|discriminate]. cbn [tl].
    rewrite add_stripes_list.
    destruct (write_stripes lower upper builder meta rest) as [b' m'].
    now intros [= <-].
  - rewrite add_stripes_list.
    destruct (write_stripes lower upper builder meta (first :: rest)) as [b' m'].
    now intros [= <-].
Qed.

(** X27: when the aggregator has stripes (and statistics to write to, at
    the bottommost level), [AddToBuilder] ends without a failed
    assertion.  The builder receives, stripe after stripe and in the
    order of the stripe's iterator, the tombstones in front of the first
    one that starts at or behind the upper bound, except those ending at
    or before the lower bound; at the bottommost level the first stripe
    is left out and its size is added to both counters with the
    counters' own [+=]. *)
Theorem add_to_builder_writes agg rep builder lower upper (meta : Meta) stats
    bottommost :
  rep_ agg = Some rep ->
  stripe_map_ rep <> [] ->
  (bottommost = true -> stats <> None) ->
  exists meta',
    AddToBuilder agg builder lower upper meta stats bottommost
    = Some (builder ++ map entry (written_of lower upper (visited rep bottommost)),
            meta', credited rep stats bottommost).
Proof.
  intros Hrep Hne Hstats.
  exists (snd (write_stripes lower upper builder meta (visited rep bottommost))).
  rewrite <- (write_stripes_builder lower upper _ builder meta).
  unfold TableOutput.AddToBuilder, visited, TableOutput.credited.
  rewrite Hrep.
  destruct (stripe_map_ rep) as [|first rest]; [contradiction|].
  destruct bottommost.
  - destruct stats as [stats|]; [|now destruct Hstats]. cbn [tl].
    rewrite add_stripes_list.
    now destruct (write_stripes lower upper builder meta rest).
  - rewrite add_stripes_list.
    now destruct (write_stripes lower upper builder meta (first :: rest)).
Qed.

(** X28: [AddToBuilder] hands the builder nothing but tombstones of the
    stripes it visits that start in front of the upper bound and end
    behind the lower bound, when these are given. *)
Theorem builder_gets_tombstones_in_bounds agg rep builder lower upper
    (meta : Meta) stats bottommost builder' meta' stats' :
  rep_ agg = Some rep ->
  AddToBuilder agg builder lower upper meta stats bottommost
  = Some (builder', meta', stats') ->
  exists added,
    builder' = builder ++ map entry added
    /\ Forall
         (fun t =>
            (exists stripe,
                In stripe (visited rep bottommost)
                /\ In t (tombstones_of (snd stripe)))
            /\ (forall u, upper = Some u -> 0 < cmp u (start_key_ t))
            /\ (forall l, lower = Some l -> 0 < cmp (end_key_ t) l))
         added.
Proof.
  intros Hrep Hadd.
  apply (AddToBuilder_stripes agg rep) in Hadd; [|assumption].
  injection Hadd as Hw Hs.
  exists (written_of lower upper (visited rep bottommost)). split.
  - pose proof (write_stripes_builder lower upper (visited rep bottommost)
                  builder meta) as Hb.
    rewrite <- Hw in Hb. exact Hb.
  - clear Hrep Hw Hs.
    induction (visited rep bottommost) as [|stripe rest IH]; [constructor|].
    unfold TableOutput.written_of. simpl. apply Forall_app. split.
    + eapply Forall_impl;
        [|exact (written_in_bounds lower upper (tombstones_of (snd stripe)))].
      simpl. intros t [Hin Hb]. split; [exists stripe; auto|].
      unfold TableOutput.in_bounds in Hb.
      apply andb_true_iff in Hb.
      destruct Hb as [Hup Hlo]. apply negb_true_iff in Hup, Hlo.
      split.
      * intros u ->. simpl in Hup. apply Z.leb_gt in Hup. lia.
      * intros l ->. simpl in Hlo. apply Z.leb_gt in Hlo. lia.
    + eapply Forall_impl; [|exact IH]. simpl.
      intros t ((stripe' & Hs' & Ht) & Hrest). split; [|assumption].
      exists stripe'. auto.
Qed.

(** X29: [AddToBuilder] only widens the range of sequence numbers in the
    metadata, to one that holds the sequence number of every tombstone
    handed to the builder; when none is handed over the metadata is left
    as it was. *)
Theorem seqno_range_holds_written agg builder lower upper (meta : Meta) stats
    bottommost builder' meta' stats' :
  AddToBuilder agg builder lower upper meta stats bottommost
  = Some (builder', meta', stats') ->
  smallest_seqno meta' <= smallest_seqno meta
  /\ largest_seqno meta <= largest_seqno meta'
  /\ exists added,
       builder' = builder ++ map entry added
       /\ Forall (fun t => smallest_seqno meta' <= seq_ t <= largest_seqno meta')
            added
       /\ (added = [] -> meta' = meta).
Proof.
  destruct (rep_ agg) as [rep|] eqn:Hrep.
  - intros Hadd.
    apply (AddToBuilder_stripes agg rep) in Hadd; [|assumption].
    injection Hadd as Hw Hs.
    pose proof (write_stripes_seqno lower upper (visited rep bottommost)
                  builder meta) as Hseq.
    pose proof (write_stripes_builder lower upper (visited rep bottommost)
                  builder meta) as Hbuilder.
    cbv zeta in Hseq. rewrite <- Hw in Hseq, Hbuilder.
    cbn [fst snd] in Hseq, Hbuilder.
    destruct Hseq as (H1 & H2 & H3 & H4).
    split; [assumption|]. split; [assumption|].
    exists (written_of lower upper (visited rep bottommost)). auto.
  - unfold TableOutput.AddToBuilder. rewrite Hrep.
    intros [= <- <- <-]. split; [lia|]. split; [lia|].
    exists []. simpl. rewrite app_nil_r. auto.
Qed.

Hypothesis laws : ComparatorLaws user_comparator.

Lemma filter_none {A} (f : A -> bool) (l : list A) :
  Forall (fun a => f a = false) l -> filter f l = [].
Proof.
  induction 1 as [|a l Ha _ IH]; [reflexivity|]. simpl. now rewrite Ha.
Qed.

Lemma filter_flat_map {A B} (f : B -> bool) (g : A -> list B) (l : list A) :
  filter f (flat_map g l) = flat_map (fun a => filter f (g a)) l.
Proof.
  induction l as [|a l IH]; [reflexivity|]. simpl.
  now rewrite filter_app, IH.
Qed.

(** On tombstones in the order of their start keys the [break] skips
    nothing that is in bounds. *)
Lemma written_filter lower upper (l : list RangeTombstone) :
  start_sorted user_comparator l ->
  written lower upper l = filter (in_bounds lower upper) l.
Proof.
  unfold start_sorted. induction l as [|t l IH]; intros Hs; [reflexivity|].
  inversion Hs as [|? ? Hrest Hall]; subst. simpl.
  unfold TableOutput.in_bounds at 1.
  destruct (starts_behind user_comparator upper t) eqn:Hup; cbn [negb andb].
  - symmetry. apply filter_none.
    eapply Forall_impl; [|exact Hall]. simpl. intros b Hb.
    unfold TableOutput.in_bounds.
    assert (starts_behind user_comparator upper b = true) as ->; [|reflexivity].
    destruct upper as [u|]; [|discriminate]. simpl in Hup |- *.
    apply Z.leb_le in Hup. apply Z.leb_le.
    now apply (cmp_le_trans user_comparator laws _ (start_key_ t)).
  - destruct (ends_before user_comparator lower t); cbn [negb].
    + now apply IH.
    + f_equal. now apply IH.
Qed.

Lemma start_sorted_of_disjoint (l : list RangeTombstone) :
  Forall (fun t => cmp (start_key_ t) (end_key_ t) < 0) l ->
  StronglySorted (fun a b => cmp (end_key_ a) (start_key_ b) <= 0) l ->
  start_sorted user_comparator l.
Proof.
  unfold start_sorted. induction l as [|t l IH]; intros Hall Hs; [constructor|].
  inversion Hall as [|? ? Ht Hall']; subst.
  inversion Hs as [|? ? Hrest Hend]; subst.
  constructor; [now apply IH|].
  eapply Forall_impl; [|exact Hend]. simpl. intros b Hb.
  assert (cmp (start_key_ t) (start_key_ b) < 0)
    by now apply (cmp_lt_le_trans user_comparator laws _ (end_key_ t)).
  lia.
Qed.

Lemma tombstones_of_sorted (m : RangeDelMap) :
  match m with
  | Uncollapsed r => start_sorted user_comparator r
  | Collapsed c => sorted user_comparator (CollapsedRangeDelMap.rep_ c)
  end ->
  start_sorted user_comparator (tombstones_of m).
Proof.
  destruct m as [r|c]; [trivial|]. intros Hs.
  unfold tombstones_of. simpl. unfold CollapsedRangeDelMap.NewIterator.
  apply start_sorted_of_disjoint.
  - destruct (CollapsedRangeDelMap.rep_ c) as [|e rep]; [constructor|].
    eapply Forall_impl;
      [|exact (emitted_bounds user_comparator laws rep e true Hs)].
    simpl. tauto.
  - now apply (emitted_disjoint user_comparator laws).
Qed.

(** X30: when every stripe's map is in order (start keys ascending in an
    uncollapsed map, keys ascending in a collapsed one), the [break] at
    the upper bound loses nothing: the builder receives exactly the
    tombstones of the visited stripes that start in front of the upper
    bound and end behind the lower bound. *)
Theorem sorted_stripes_lose_nothing agg rep builder lower upper (meta : Meta)
    stats bottommost builder' meta' stats' :
  rep_ agg = Some rep ->
  Forall
    (fun stripe =>
       match snd stripe with
       | Uncollapsed r => start_sorted user_comparator r
       | Collapsed c => sorted user_comparator (CollapsedRangeDelMap.rep_ c)
       end)
    (stripe_map_ rep) ->
  AddToBuilder agg builder lower upper meta stats bottommost
  = Some (builder', meta', stats') ->
  builder'
  = builder
    ++ map entry
         (filter (in_bounds lower upper)
            (flat_map (fun stripe => tombstones_of (snd stripe))
               (visited rep bottommost))).
Proof.
  intros Hrep Hwf Hadd.
  apply (AddToBuilder_stripes agg rep) in Hadd; [|assumption].
  injection Hadd as Hw _.
  pose proof (write_stripes_builder lower upper (visited rep bottommost)
                builder meta) as Hb.
  rewrite <- Hw in Hb. cbn [fst] in Hb. rewrite Hb. do 2 f_equal.
  rewrite filter_flat_map. unfold TableOutput.written_of.
  assert (Hv : Forall
                 (fun stripe =>
                    start_sorted user_comparator (tombstones_of (snd stripe)))
                 (visited rep bottommost)).
  { unfold visited.
    assert (Hall : Forall
                     (fun stripe =>
                        start_sorted user_comparator (tombstones_of (snd stripe)))
                     (stripe_map_ rep)).
    { eapply Forall_impl; [|exact Hwf]. simpl. intros stripe.
      apply tombstones_of_sorted. }
    destruct bottommost; [|assumption].
    destruct (stripe_map_ rep); [constructor|]. now inversion Hall. }
  clear Hw Hb.
  induction Hv as [|stripe rest Hs _ IH]; [reflexivity|].
  cbn [flat_map]. rewrite IH, (written_filter lower upper _ Hs). reflexivity.
Qed.
End TableLaws.

Section TableLawsWitnesses.
Local Open Scope string_scope.
Import TableOutput.

Lemma add_to_builder_writes_witness :
  let stripes :=
    [(5, Uncollapsed [tomb "a" "c" 3]);
     (max_seq_56, Collapsed (fresh (collapse [tomb "b" "f" 9; tomb "d" "h" 7])))] in
  let rep :=
    {| RangeDelAggregator.stripe_map_ := stripes;
       RangeDelAggregator.pinned_iters_ := [] |} in
  let stats :=
    Some {| num_record_drop_obsolete := 0; num_range_del_drop_obsolete := 0 |} in
  exists meta',
    example_AddToBuilder (with_stripes stripes) [] (Some "c") (Some "g")
      empty_meta stats true
    = Some (([] ++ map example_entry
                     (written_of BytewiseComparator (Some "c") (Some "g")
                        (visited rep true)))%list,
            meta',
            credited example_counter_add rep stats true).
Proof.
  apply (add_to_builder_writes (option ParsedInternalKey) example_MakeInternalKey
           example_user_key example_size example_user_key example_Serialize
           example_SerializeEndKey example_icmp max_seq_56 15 BytewiseComparator
           example_counter_add).
  - reflexivity.
  - discriminate.
  - discriminate.
Defined.

Lemma builder_gets_tombstones_in_bounds_witness :
  let stripes :=
    [(5, Uncollapsed [tomb "a" "c" 3]);
     (max_seq_56, Collapsed (fresh (collapse [tomb "b" "f" 9; tomb "d" "h" 7])))] in
  let rep :=
    {| RangeDelAggregator.stripe_map_ := stripes;
       RangeDelAggregator.pinned_iters_ := [] |} in
  exists added,
    [("b", "f"); ("f", "h")]
    = ([] ++ map example_entry added)%list
    /\ Forall
         (fun t =>
            (exists stripe,
                In stripe (visited rep false)
                /\ In t (tombstones_of (snd stripe)))
            /\ (forall u, Some "g" = Some u
                          -> (0 < Compare BytewiseComparator u (start_key_ t))%Z)
            /\ (forall l, Some "c" = Some l
                          -> (0 < Compare BytewiseComparator (end_key_ t) l)%Z))
         added.
Proof.
  apply (builder_gets_tombstones_in_bounds (option ParsedInternalKey)
           example_MakeInternalKey example_user_key example_size
           example_user_key example_Serialize example_SerializeEndKey
           example_icmp max_seq_56 15
           BytewiseComparator example_counter_add
           (with_stripes
              [(5, Uncollapsed [tomb "a" "c" 3]);
               (max_seq_56,
                Collapsed (fresh (collapse [tomb "b" "f" 9; tomb "d" "h" 7])))])
           _ [] (Some "c") (Some "g") empty_meta None false
           [("b", "f"); ("f", "h")]
           {| smallest := example_MakeInternalKey "c" 0 15;
              largest := example_MakeInternalKey "g" max_seq_56 15;
              smallest_seqno := 7;
              largest_seqno := 9 |}
           None).
  - reflexivity.
  - reflexivity.
Defined.

Lemma seqno_range_holds_written_witness :
  let meta' :=
    {| smallest := example_MakeInternalKey "c" 0 15;
       largest := example_MakeInternalKey "g" max_seq_56 15;
       smallest_seqno := 7;
       largest_seqno := 9 |} in
  (smallest_seqno meta' <= smallest_seqno empty_meta)%Z
  /\ (largest_seqno empty_meta <= largest_seqno meta')%Z
  /\ exists added,
       [("b", "f"); ("f", "h")] = ([] ++ map example_entry added)%list
       /\ Forall (fun t => (smallest_seqno meta' <= seq_ t <= largest_seqno meta')%Z)
            added
       /\ (added = [] -> meta' = empty_meta).
Proof.
  apply (seqno_range_holds_written (option ParsedInternalKey) example_MakeInternalKey
           example_user_key example_size example_user_key example_Serialize
           example_SerializeEndKey example_icmp max_seq_56 15 BytewiseComparator
           example_counter_add
           (with_stripes
              [(5, Uncollapsed [tomb "a" "c" 3]);
               (max_seq_56,
                Collapsed (fresh (collapse [tomb "b" "f" 9; tomb "d" "h" 7])))])
           [] (Some "c") (Some "g") empty_meta None false
           [("b", "f"); ("f", "h")] _ None).
  reflexivity.
Defined.

Lemma sorted_stripes_lose_nothing_witness :
  let stripes :=
    [(5, Uncollapsed [tomb "a" "c" 3]);
     (max_seq_56, Collapsed (fresh (collapse [tomb "b" "f" 9; tomb "d" "h" 7])))] in
  let rep :=
    {| RangeDelAggregator.stripe_map_ := stripes;
       RangeDelAggregator.pinned_iters_ := [] |} in
  [("b", "f"); ("f", "h")]
  = ([]
     ++ map example_entry
          (filter (in_bounds BytewiseComparator (Some "c") (Some "g"))
             (flat_map (fun stripe => tombstones_of (snd stripe))
                (visited rep false))))%list.
Proof.
  apply (sorted_stripes_lose_nothing (option ParsedInternalKey) example_MakeInternalKey
           example_user_key example_size example_user_key example_Serialize
           example_SerializeEndKey example_icmp max_seq_56 15 BytewiseComparator
           example_counter_add
           BytewiseComparator_laws
           (with_stripes
              [(5, Uncollapsed [tomb "a" "c" 3]);
               (max_seq_56,
                Collapsed (fresh (collapse [tomb "b" "f" 9; tomb "d" "h" 7])))])
           _ [] (Some "c") (Some "g") empty_meta None false
           [("b", "f"); ("f", "h")]
           {| smallest := example_MakeInternalKey "c" 0 15;
              largest := example_MakeInternalKey "g" max_seq_56 15;
              smallest_seqno := 7;
              largest_seqno := 9 |}
           None).
  - reflexivity.
  - repeat constructor; discriminate.
  - reflexivity.
Defined.
End TableLawsWitnesses.
